(** * Drain3 evaluator: the accuracy scoring of [examples/evaluator.py]

    A shallow embedding of [get_accuracy] and [evaluate], and the
    properties of the four scores (precision, recall, F-measure, parsing
    accuracy) that the specification states about them.

    Modelling conventions.
    - A pandas [Series] is the list of its rows [(index label, value)] in
      row order; a missing value (NaN) is [None]. Index labels may repeat:
      selecting by label returns every row that carries the label.
    - [value_counts] drops the missing values and lists the distinct values
      by decreasing count, ties in order of first appearance.
    - A [DataFrame] is its header and its rows, as loaded by [pd.read_csv];
      reading the files and printing the scores are left out.
    - [scipy.special.comb(n, 2)] and the Python float ratios are taken at
      their mathematical value: counts are natural numbers, ratios are
      rationals ([Q]) compared with [Qeq].
    - Python exceptions are the [Raise] results of a small error monad; the
      output of the debug branch is collected in a list.
    - The scripts around the evaluator ([main] of [evaluator.py],
      [drain_train_infer.py], [parse_all.py]) are modelled after the
      scorer, with the file system and the template miner as functions
      given to the model. *)

From Stdlib Require Import QArith Lqa Qround Qabs Qpower Qcanon.
From stdpp Require Import base list strings numbers.

Close Scope Q_scope.
Open Scope nat_scope.

(** ** Exceptions *)

Inductive exn := KeyError | ValueError | ZeroDivisionError.

Inductive result (A : Type) : Type :=
  | Ok (a : A)
  | Raise (e : exn).
Arguments Ok {A} a.
Arguments Raise {A} e.

#[global] Instance result_ret : MRet result := λ A a, Ok a.
#[global] Instance result_bind : MBind result := λ A B f m,
  match m with Ok a => f a | Raise e => Raise e end.
#[global] Instance result_fmap : FMap result := λ A B f m,
  match m with Ok a => Ok (f a) | Raise e => Raise e end.

(** A [for] loop whose body may raise. *)
Fixpoint for_each {A B : Type} (body : A → B → result A) (st : A) (l : list B)
    : result A :=
  match l with
  | [] => Ok st
  | x :: l' => st' ← body st x; for_each body st' l'
  end.

(** ** Numbers *)

(** [scipy.special.comb(n, k)]: the number of [k]-element subsets of an
    [n]-element set. *)
Fixpoint comb (n k : nat) {struct n} : nat :=
  match n, k with
  | _, 0 => 1
  | 0, S _ => 0
  | S n', S k' => comb n' k' + comb n' k
  end.

Definition Qnat (n : nat) : Q := inject_Z (Z.of_nat n).

(** Python's [/] on floats raises on a zero divisor. *)
Definition fdiv (a b : Q) : result Q :=
  if Qeq_bool b 0 then Raise ZeroDivisionError else Ok (a / b)%Q.

(** ** Series *)

Section series.
Context {Id V : Type} `{EqDecision Id}.

(** [s.index] and [s.size]. *)
Definition index (s : list (Id * V)) : list Id := s.*1.
Definition size (s : list (Id * V)) : nat := length s.

(** The rows carrying index label [i]. *)
Definition loc (s : list (Id * V)) (i : Id) : list (Id * V) :=
  filter (λ r, r.1 = i) s.

(** [s[ids]] with a list of index labels: for every label, in the order
    of [ids], all the rows that carry it; a label that no row carries
    raises [KeyError]. *)
Fixpoint getitem (s : list (Id * V)) (ids : list Id) : result (list (Id * V)) :=
  match ids with
  | [] => Ok []
  | i :: ids' =>
      match loc s i with
      | [] => Raise KeyError
      | rs => rest ← getitem s ids'; Ok (rs ++ rest)
      end
  end.
End series.

Section value_counts.
Context {L : Type} `{EqDecision L}.

(** Distinct values in order of first appearance. *)
Fixpoint unique (vs : list L) : list L :=
  match vs with
  | [] => []
  | v :: vs' => v :: filter (λ w, w ≠ v) (unique vs')
  end.

Definition count_of (v : L) (vs : list L) : nat :=
  length (filter (λ w, w = v) vs).

(** Stable sort of [(value, count)] by decreasing count. *)
Fixpoint insert_desc (x : L * nat) (l : list (L * nat)) : list (L * nat) :=
  match l with
  | [] => [x]
  | y :: l' => if decide (x.2 < y.2) then y :: insert_desc x l' else x :: y :: l'
  end.

Definition sort_desc (l : list (L * nat)) : list (L * nat) :=
  foldr insert_desc [] l.

(** [s.value_counts()]: the distinct non-null values with their number
    of occurrences, most frequent first ([dropna=True], [sort=True]). *)
Definition value_counts {Id : Type} (s : list (Id * option L)) : list (L * nat) :=
  let vs := omap snd s in
  sort_desc ((λ v, (v, count_of v vs)) <$> unique vs).

(** [s[s == v]]. *)
Definition select {Id : Type} (s : list (Id * option L)) (v : L)
    : list (Id * option L) :=
  filter (λ r, r.2 = Some v) s.
End value_counts.

(** ** [get_accuracy] *)

(** The body of the loops [for count in ...: if count > 1: acc += comb(count, 2)]. *)
Definition add_pairs (acc count : nat) : nat :=
  if decide (1 < count) then acc + comb count 2 else acc.

Record counts := Counts {
  real_pairs : nat;
  parsed_pairs : nat;
  accurate_pairs : nat;
  accurate_events : nat;
  groundtruth_size : nat
}.

Record scores := Scores {
  precision : Q;
  recall : Q;
  f_measure : Q;
  accuracy : Q
}.

Section get_accuracy.
Context {Id G P : Type} `{EqDecision Id, EqDecision G, EqDecision P}.

(** What the debug branch prints for a predicted class:
    [(parsed_eventId, groundtruth_eventIds)] and the number of messages. *)
Definition trace : Type := P * list G * nat.

(** The state of the loop over the predicted classes:
    [accurate_pairs], [accurate_events] and the lines printed so far. *)
Definition loop_state : Type := nat * nat * list trace.

(** One iteration of [for parsed_eventId in series_parsedlog_valuecounts.index]. *)
Definition score_class (debug : bool)
    (series_groundtruth : list (Id * option G))
    (series_parsedlog : list (Id * option P))
    (st : loop_state) (parsed_eventId : P) : result loop_state :=
  let '(pairs, events, out) := st in
  let logIds := index (select series_parsedlog parsed_eventId) in
  sel ← getitem series_groundtruth logIds;
  let series_gt_valuecounts := value_counts sel in
  let error_eventIds := (parsed_eventId, series_gt_valuecounts.*1) in
  let '(events', error) :=
    match series_gt_valuecounts with
    | [(groundtruth_eventId, _)] =>
        if decide (length logIds = size (select series_groundtruth groundtruth_eventId))
        then (events + length logIds, false)
        else (events, true)
    | _ => (events, true)
    end in
  let out' := if error && debug then out ++ [(error_eventIds, length logIds)] else out in
  Ok (foldl add_pairs pairs series_gt_valuecounts.*2, events', out').

(** Lines 40-72: the four counts and the diagnostic output. *)
Definition get_counts (series_groundtruth : list (Id * option G))
    (series_parsedlog : list (Id * option P)) (debug : bool)
    : result (counts * list trace) :=
  let real := foldl add_pairs 0 (value_counts series_groundtruth).*2 in
  let series_parsedlog_valuecounts := value_counts series_parsedlog in
  let parsed := foldl add_pairs 0 series_parsedlog_valuecounts.*2 in
  '(pairs, events, out) ←
    for_each (score_class debug series_groundtruth series_parsedlog)
             (0, 0, []) series_parsedlog_valuecounts.*1;
  Ok (Counts real parsed pairs events (size series_groundtruth), out).
End get_accuracy.

(** Lines 75-78: the guarded ratios. *)
Definition ratios (c : counts) : result scores :=
  precision ← (if decide (parsed_pairs c ≠ 0)
               then fdiv (Qnat (accurate_pairs c)) (Qnat (parsed_pairs c)) else Ok 0%Q);
  recall ← (if decide (real_pairs c ≠ 0)
            then fdiv (Qnat (accurate_pairs c)) (Qnat (real_pairs c)) else Ok 0%Q);
  f_measure ← (if negb (Qeq_bool (precision + recall) 0)
               then fdiv (2 * precision * recall) (precision + recall) else Ok 0%Q);
  accuracy ← (if decide (groundtruth_size c ≠ 0)
              then fdiv (Qnat (accurate_events c)) (Qnat (groundtruth_size c)) else Ok 0%Q);
  Ok (Scores precision recall f_measure accuracy).

Section get_accuracy_def.
Context {Id G P : Type} `{EqDecision Id, EqDecision G, EqDecision P}.

(** [get_accuracy]: the returned tuple, paired with what was printed. *)
Definition get_accuracy (series_groundtruth : list (Id * option G))
    (series_parsedlog : list (Id * option P)) (debug : bool)
    : result (scores * list (@trace G P)) :=
  '(c, out) ← get_counts series_groundtruth series_parsedlog debug;
  s ← ratios c;
  Ok (s, out).
End get_accuracy_def.

(** ** [evaluate] *)

Inductive value := VInt (z : Z) | VStr (s : string).

#[global] Instance value_eq_dec : EqDecision value.
Proof. solve_decision. Defined.

(** A cell of a loaded table; [None] is a missing value. *)
Abbreviation cell := (option value).

(** A table as [pd.read_csv] returns it: the header and the rows. *)
Record DataFrame := {
  columns : list string;
  rows : list (list cell)
}.

(** A table after [set_index]: every row carries its index label and the
    cells of the remaining columns. *)
Record IndexedFrame := {
  icolumns : list string;
  irows : list (cell * list cell)
}.

Definition position (name : string) (cols : list string) : result nat :=
  match list_find (λ c, c = name) cols with
  | Some (k, _) => Ok k
  | None => Raise KeyError
  end.

(** The cell of column [k] of a row; a short row reads as missing. *)
Definition cell_at (k : nat) (r : list cell) : cell := default None (r !! k).

(** [df.set_index(name)]. *)
Definition set_index (name : string) (df : DataFrame) : result IndexedFrame :=
  k ← position name (columns df);
  Ok {| icolumns := delete k (columns df);
        irows := (λ r, (cell_at k r, delete k r)) <$> rows df |}.

(** [df[name]]: one column as a series over the index of [df]. *)
Definition getcol (df : IndexedFrame) (name : string)
    : result (list (cell * cell)) :=
  k ← position name (icolumns df);
  Ok ((λ r, (r.1, cell_at k r.2)) <$> irows df).

(** [df[~df[name].isnull()]]. *)
Definition dropnull (df : IndexedFrame) (name : string) : result IndexedFrame :=
  k ← position name (icolumns df);
  Ok {| icolumns := icolumns df;
        irows := filter (λ r, cell_at k r.2 ≠ None) (irows df) |}.

(** [idx.intersection(other)]: the distinct labels of [idx] found in [other]. *)
Definition intersection (idx other : list cell) : list cell :=
  unique (filter (λ i, i ∈ other) idx).

(** [df.loc[ids]]. *)
Definition frame_loc (df : IndexedFrame) (ids : list cell) : result IndexedFrame :=
  rs ← getitem (irows df) ids;
  Ok {| icolumns := icolumns df; irows := rs |}.

Definition LineId : string := "LineId".
Definition EventId : string := "EventId".

(** Lines 91-104 of [evaluate]: the two [EventId] series handed to
    [get_accuracy]. *)
Definition align (df_groundtruth df_parsedlog : DataFrame)
    : result (list (cell * cell) * list (cell * cell)) :=
  if decide (LineId ∉ columns df_groundtruth ∨ LineId ∉ columns df_parsedlog)
  then Raise ValueError
  else
    df_groundtruth ← set_index LineId df_groundtruth;
    df_parsedlog ← set_index LineId df_parsedlog;
    df_groundtruth ← dropnull df_groundtruth EventId;
    let common_lineids :=
      intersection (index (irows df_groundtruth)) (index (irows df_parsedlog)) in
    df_groundtruth ← frame_loc df_groundtruth common_lineids;
    df_parsedlog ← frame_loc df_parsedlog common_lineids;
    series_groundtruth ← getcol df_groundtruth EventId;
    series_parsedlog ← getcol df_parsedlog EventId;
    Ok (series_groundtruth, series_parsedlog).

(** [evaluate] on the two loaded tables; it returns [(f_measure, accuracy)]. *)
Definition evaluate (df_groundtruth df_parsedlog : DataFrame) : result (Q * Q) :=
  '(series_groundtruth, series_parsedlog) ← align df_groundtruth df_parsedlog;
  '(s, _) ← get_accuracy series_groundtruth series_parsedlog false;
  Ok (f_measure s, accuracy s).

(** ** Vocabulary of the properties *)

Section vocabulary.
Context {Id L : Type} `{EqDecision Id, EqDecision L}.

(** The non-null values of a series, in row order. *)
Definition values (s : list (Id * option L)) : list L := omap snd s.

(** The number of pairs of positions of a list that hold the same value. *)
Fixpoint same_pairs (vs : list L) : nat :=
  match vs with
  | [] => 0
  | v :: vs' => count_of v vs' + same_pairs vs'
  end.

(** The label a series gives to line [i] (null when it has no such line). *)
Definition label_at (s : list (Id * option L)) (i : Id) : option L :=
  match loc s i with
  | r :: _ => r.2
  | [] => None
  end.

(** The number of lines of a series that carry label [v]. *)
Definition class_size (s : list (Id * option L)) (v : L) : nat :=
  size (select s v).

(** Renaming the labels of a series. *)
Definition rename {L' : Type} (f : L → L') (s : list (Id * option L))
    : list (Id * option L') :=
  (λ r : Id * option L, (r.1, f <$> r.2)) <$> s.
End vocabulary.

(** Two labelings are aligned when they are defined over the same set of
    line ids, every line occurring once. *)
Definition aligned {Id G P : Type} (gt : list (Id * option G))
    (parsed : list (Id * option P)) : Prop :=
  NoDup (index gt) ∧ index parsed ≡ₚ index gt.

Definition in_unit (q : Q) : Prop := (0 <= q)%Q ∧ (q <= 1)%Q.

(** The ratio of two counts, zero when the denominator is. *)
Definition ratio (a b : nat) : Q :=
  if decide (b ≠ 0) then (Qnat a / Qnat b)%Q else 0%Q.

(** The harmonic mean, zero when both arguments are. *)
Definition harmonic (p r : Q) : Q :=
  if negb (Qeq_bool (p + r) 0) then (2 * p * r / (p + r))%Q else 0%Q.

(** The four scores as functions of the counts (section 4.4 of the
    specification). *)
Definition scores_of_counts (c : counts) : scores :=
  let precision := ratio (accurate_pairs c) (parsed_pairs c) in
  let recall := ratio (accurate_pairs c) (real_pairs c) in
  Scores precision recall (harmonic precision recall)
         (ratio (accurate_events c) (groundtruth_size c)).

(** ** The loop over the predicted classes, without its output *)

Section loop_counts.
Context {Id G P : Type} `{EqDecision Id, EqDecision G, EqDecision P}.

(** The numeric components of the loop state. *)
Definition numeric (st : @loop_state G P) : nat * nat := (st.1.1, st.1.2).

(** What one predicted class adds to [accurate_pairs] and to
    [accurate_events]. *)
Definition class_counts (gt : list (Id * option G))
    (parsed : list (Id * option P)) (p : P) : result (nat * nat) :=
  let logIds := index (select parsed p) in
  sel ← getitem gt logIds;
  Ok (same_pairs (values sel),
      match unique (values sel) with
      | [g] => if decide (length logIds = class_size gt g)
               then length logIds else 0
      | _ => 0
      end).

Fixpoint loop_counts (gt : list (Id * option G))
    (parsed : list (Id * option P)) (ps : list P) : result (nat * nat) :=
  match ps with
  | [] => Ok (0, 0)
  | p :: ps' =>
      x ← class_counts gt parsed p;
      y ← loop_counts gt parsed ps';
      Ok (x.1 + y.1, x.2 + y.2)
  end.
End loop_counts.

Section aligned_defs.
Context {Id G P : Type} `{EqDecision Id, EqDecision G, EqDecision P}.

(** On aligned labelings: the pairs of members of predicted class [p]
    that also share their ground-truth label. *)
Definition class_pairs (gt : list (Id * option G))
    (parsed : list (Id * option P)) (p : P) : nat :=
  same_pairs (omap (label_at gt) (index (select parsed p))).

(** On aligned labelings: what predicted class [p] adds to
    [accurate_events]. *)
Definition class_events (gt : list (Id * option G))
    (parsed : list (Id * option P)) (p : P) : nat :=
  match unique (omap (label_at gt) (index (select parsed p))) with
  | [g] => if decide (class_size parsed p = class_size gt g)
           then class_size parsed p else 0
  | _ => 0
  end.

Definition aligned_counts (gt : list (Id * option G))
    (parsed : list (Id * option P)) : counts :=
  let classes := unique (values parsed) in
  Counts (same_pairs (values gt)) (same_pairs (values parsed))
         (sum_list_with (class_pairs gt parsed) classes)
         (sum_list_with (class_events gt parsed) classes)
         (size gt).
End aligned_defs.

(** ** The scenarios of the specification *)

(** A labeling of the lines 1, 2, ... from the list of their labels. *)
Definition labeling (labels : list string) : list (Z * option string) :=
  imap (λ i l, (Z.of_nat (S i), Some l)) labels.

Definition scenario_groundtruth : list (Z * option string) :=
  labeling ["X"; "X"; "X"; "Y"; "Y"]%string.

Definition scenario_A_predicted : list (Z * option string) :=
  labeling ["A"; "A"; "A"; "B"; "B"]%string.

Definition scenario_B_predicted : list (Z * option string) :=
  labeling ["A"; "A"; "B"; "B"; "B"]%string.

(** Equality of score tuples, as rationals. *)
Definition scores_eq (s t : scores) : Prop :=
  (precision s == precision t)%Q ∧ (recall s == recall t)%Q
  ∧ (f_measure s == f_measure t)%Q ∧ (accuracy s == accuracy t)%Q.

(** The scores as a function of the two labelings alone: no debug flag,
    no output. *)
Definition pure_scores {Id G P : Type} `{EqDecision Id, EqDecision G, EqDecision P}
    (gt : list (Id * option G)) (parsed : list (Id * option P)) : result scores :=
  x ← loop_counts gt parsed (unique (values parsed));
  ratios (Counts (same_pairs (values gt)) (same_pairs (values parsed))
                 x.1 x.2 (size gt)).

(** ** Exact matches, in the words of the specification *)

Section exact_match.
Context {Id G P : Type} `{EqDecision Id, EqDecision G, EqDecision P}.

(** No line of the series has a null label. *)
Definition labelled {L : Type} (s : list (Id * option L)) : Prop :=
  Forall (λ r, r.2 ≠ None) s.

(** Predicted class [p] is an exact match of ground-truth class [g]:
    every member of [p] carries ground-truth label [g], and [p] has as
    many members as there are lines with label [g]. *)
Definition exact_match_of (gt : list (Id * option G))
    (parsed : list (Id * option P)) (p : P) (g : G) : Prop :=
  Forall (λ i, label_at gt i = Some g) (index (select parsed p))
  ∧ class_size parsed p = class_size gt g.

(** Predicted class [p] is an exact match of some ground-truth class. *)
Definition exact_match (gt : list (Id * option G))
    (parsed : list (Id * option P)) (p : P) : Prop :=
  Exists (exact_match_of gt parsed p) (unique (values gt)).

#[global] Instance exact_match_dec gt parsed p : Decision (exact_match gt parsed p).
Proof. unfold exact_match, exact_match_of. apply _. Defined.

(** The member counts of the exactly matched predicted classes. *)
Definition exact_match_events (gt : list (Id * option G))
    (parsed : list (Id * option P)) : nat :=
  sum_list_with (class_size parsed)
    (filter (exact_match gt parsed) (unique (values parsed))).
End exact_match.

Definition distinct_labels : list (Z * option string) :=
  labeling ["X"; "Y"]%string.

(** ** Null predicted labels *)

Section null_defs.
Context {Id L : Type} `{EqDecision Id, EqDecision L}.

(** The lines of a series that carry a label. *)
Definition drop_unlabelled (s : list (Id * option L)) : list (Id * option L) :=
  filter (λ r, r.2 ≠ None) s.

End null_defs.


(** ** Alignment, on the two label series *)

(** The [EventId] column of a loaded table, indexed by [LineId]. *)
Definition event_series (df : DataFrame) : result (list (cell * cell)) :=
  df ← set_index LineId df;
  getcol df EventId.

(** What lines 97-104 do to the two series: the ground-truth lines
    without a label are removed, then both series are restricted to the
    line ids they have in common. *)
Definition align_series (gs ps : list (cell * cell))
    : list (cell * cell) * list (cell * cell) :=
  let labelled_gs := drop_unlabelled gs in
  let common_lineids := intersection (index labelled_gs) (index ps) in
  (common_lineids ≫= loc labelled_gs, common_lineids ≫= loc ps).

(** ** Example tables *)

Definition table_groundtruth : DataFrame :=
  {| columns := ["LineId"; "Content"; "EventId"]%string;
     rows := [ [Some (VInt 1); Some (VStr "a"); Some (VStr "E1")];
               [Some (VInt 2); Some (VStr "b"); Some (VStr "E1")];
               [Some (VInt 3); Some (VStr "c"); None];
               [Some (VInt 4); Some (VStr "d"); Some (VStr "E2")] ] |}.

Definition table_parsed : DataFrame :=
  {| columns := ["LineId"; "EventId"]%string;
     rows := [ [Some (VInt 1); Some (VInt 7)];
               [Some (VInt 2); Some (VInt 7)];
               [Some (VInt 3); Some (VInt 7)];
               [Some (VInt 4); None];
               [Some (VInt 5); None] ] |}.

Definition table_parsed_elsewhere : DataFrame :=
  {| columns := ["LineId"; "EventId"]%string;
     rows := [ [Some (VInt 10); Some (VInt 7)];
               [Some (VInt 11); Some (VInt 7)] ] |}.

Definition table_without_LineId : DataFrame :=
  {| columns := ["Content"; "EventId"]%string;
     rows := [ [Some (VStr "a"); Some (VStr "E1")] ] |}.

Definition table_without_EventId : DataFrame :=
  {| columns := ["LineId"; "Content"]%string;
     rows := [ [Some (VInt 1); Some (VStr "a")] ] |}.

Definition wrong_label_groundtruth : list (Z * option string) :=
  labeling ["X"; "Y"]%string.

Definition wrong_label_predicted : list (Z * option string) :=
  labeling ["A"; "A"]%string.

Definition null_label_predicted : list (Z * option string) :=
  [(1%Z, Some "A"%string); (2%Z, None)].

(** ** Further example labelings *)

Definition groundtruth_short : list (Z * option string) :=
  labeling ["X"; "X"]%string.

Definition predicted_long : list (Z * option string) :=
  labeling ["A"; "A"; "A"]%string.

Definition predicted_long_unlabelled : list (Z * option string) :=
  [(1%Z, Some "A"%string); (2%Z, Some "A"%string); (3%Z, None)].

Definition predicted_all_distinct : list (Z * option string) :=
  labeling ["A"; "B"; "C"; "D"; "E"]%string.


(** ** The lines labelled by both series *)


(** ** Pure classes *)


(** Rows for the examples of what [evaluate] leaves out: parser rows for
    line 3, which the ground truth does not label, and line 10, which it
    does not have; ground-truth rows for line 5, without label, and line
    6, which the parser did not report. *)
Definition rows_parsed_unmatched : list (list cell) :=
  [ [Some (VInt 3); Some (VInt 9)];
    [Some (VInt 10); Some (VInt 7)] ].

Definition rows_groundtruth_unmatched : list (list cell) :=
  [ [Some (VInt 5); Some (VStr "e"); None];
    [Some (VInt 6); Some (VStr "f"); Some (VStr "E2")] ].

(** ** The scripts around the evaluator

    What a script does to the file system is modelled through what it asks
    of it and what it hands over to it: a test such as [os.path.isfile]
    and a load such as [pd.read_csv] are functions given to the model,
    about which nothing is assumed; a written file is the value the
    script returns. Console output is left out. *)

Inductive failure :=
  | Scoring (e : exn)
  | CannotRead (path : string)
  | IndexError
  | AttributeError
  | NotAnInteger.

Inductive outcome (A : Type) : Type :=
  | Done (a : A)
  | Failed (f : failure).
Arguments Done {A} a.
Arguments Failed {A} f.

#[global] Instance outcome_ret : MRet outcome := λ A a, Done a.
#[global] Instance outcome_bind : MBind outcome := λ A B f m,
  match m with Done a => f a | Failed e => Failed e end.

(** A [for] loop of a script. *)
Fixpoint each {A B : Type} (body : A → B → outcome A) (st : A) (l : list B)
    : outcome A :=
  match l with
  | [] => Done st
  | x :: l' => st' ← body st x; each body st' l'
  end.

(** [s.startswith(t)] and [s.endswith(t)]. *)
Definition startswith (s t : string) : bool :=
  bool_decide (String.substring 0 (String.length t) s = t).
Definition endswith (s t : string) : bool :=
  bool_decide (String.substring (String.length s - String.length t)
                 (String.length t) s = t).

(** [os.path.join(a, *p)] of [posixpath]. *)
Definition join_step (path b : string) : string :=
  if startswith b "/" then b
  else if bool_decide (path = "") || endswith path "/" then path +:+ b
  else path +:+ "/" +:+ b.
Definition path_join (a : string) (p : list string) : string :=
  foldl join_step a p.

(** *** [main] of [evaluator.py] *)

Definition data_dir : string := "/home/davidh/logparser/data".
Definition results_dir_prefix : string :=
  "/home/davidh/logparser/Drain3/examples/results_".
Definition datasets : list string :=
  ["Proxifier"; "HDFS"; "BGL"; "Hadoop"; "OpenSSH"].

(** A row of [results_list]: dataset, mode, F1 and accuracy. *)
Definition summary_row : Type := string * string * Q * Q.

Section evaluator_main.
Variable isfile : string → bool.
Variable read_csv : string → option DataFrame.

Definition load (path : string) : outcome DataFrame :=
  match read_csv path with
  | Some df => Done df
  | None => Failed (CannotRead path)
  end.

(** [evaluate] from the two file names on: lines 88-89 load the tables,
    the ground truth first, and the rest is [evaluate] above. *)
Definition evaluate_files (groundtruth parsedresult : string) : outcome (Q * Q) :=
  df_groundtruth ← load groundtruth;
  df_parsedlog ← load parsedresult;
  match evaluate df_groundtruth df_parsedlog with
  | Ok r => Done r
  | Raise e => Failed (Scoring e)
  end.

(** One of the two [if os.path.isfile(...)] blocks of the loop body. *)
Definition evaluate_if_present (results_list : list summary_row)
    (dataset gt_csv parsed_csv mode : string) : outcome (list summary_row) :=
  if isfile parsed_csv then
    '(f1, acc) ← evaluate_files gt_csv parsed_csv;
    mret (results_list ++ [(dataset, mode, f1, acc)])
  else mret results_list.

Definition main_body (results_list : list summary_row) (dataset : string)
    : outcome (list summary_row) :=
  let gt_csv := path_join data_dir [dataset; dataset +:+ "_2k.log_structured.csv"] in
  let results_folder := results_dir_prefix +:+ dataset in
  let parsed_csv_raw :=
    path_join results_folder [dataset +:+ "_Drain3_parsed_rawlog.csv"] in
  results_list ← evaluate_if_present results_list dataset gt_csv parsed_csv_raw
                    "rawlog";
  let parsed_csv_struct :=
    path_join results_folder [dataset +:+ "_Drain3_parsed_structured_csv.csv"] in
  evaluate_if_present results_list dataset gt_csv parsed_csv_struct
    "structured_csv".

(** The loop of [main] over a list of dataset names. *)
Definition main_loop (names : list string) : outcome (list summary_row) :=
  each main_body [] names.

(** [main]: the rows written to [evaluation_results.csv], or [None] when
    the file is not written. *)
Definition main : outcome (option (list summary_row)) :=
  results_list ← main_loop datasets;
  mret (match results_list with [] => None | _ => Some results_list end).

(** The evaluations [main] considers, in the order in which it does:
    dataset, mode, ground-truth file and parsed file. *)
Definition runs_of (dataset : string) : list (string * string * string * string) :=
  let gt_csv := path_join data_dir [dataset; dataset +:+ "_2k.log_structured.csv"] in
  let results_folder := results_dir_prefix +:+ dataset in
  [ (dataset, "rawlog", gt_csv,
     path_join results_folder [dataset +:+ "_Drain3_parsed_rawlog.csv"]);
    (dataset, "structured_csv", gt_csv,
     path_join results_folder [dataset +:+ "_Drain3_parsed_structured_csv.csv"]) ].

(** The loop body for one of them. *)
Definition run_step (results_list : list summary_row)
    (r : string * string * string * string) : outcome (list summary_row) :=
  let '(dataset, mode, gt_csv, parsed_csv) := r in
  evaluate_if_present results_list dataset gt_csv parsed_csv mode.

(** Those whose parsed file is there. *)
Definition present_runs (names : list string)
    : list (string * string * string * string) :=
  filter (λ r, isfile r.2 = true) (names ≫= runs_of).

(** Row [row] is the result of evaluation [r]. *)
Definition row_of_run (row : summary_row) (r : string * string * string * string)
    : Prop :=
  let '(dataset, mode, gt_csv, parsed_csv) := r in
  ∃ f1 acc, evaluate_files gt_csv parsed_csv = Done (f1, acc)
            ∧ row = (dataset, mode, f1, acc).
End evaluator_main.

(** Example file systems: one where only the raw-log parse of HDFS is
    there, with nothing that can be loaded, or with the example tables. *)
Definition only_HDFS_rawlog (path : string) : bool :=
  bool_decide (path = "/home/davidh/logparser/Drain3/examples/results_HDFS/HDFS_Drain3_parsed_rawlog.csv").

Definition nothing_loads (path : string) : option DataFrame := None.

Definition example_tables (path : string) : option DataFrame :=
  if bool_decide (path = "/home/davidh/logparser/data/HDFS/HDFS_2k.log_structured.csv")
  then Some table_groundtruth
  else if only_HDFS_rawlog path then Some table_parsed
  else None.

(** *** Training and inference of [drain_train_infer.py]

    The template miner is a library object: its state is a type [Miner],
    and [add_log_message] and [match] are functions given to the model,
    about which nothing is assumed but that they return. So is
    [int(n * subset_ratio)], a float computation, which raises on a ratio
    that is infinite or not a number. What is logged and the timing of
    the batches are left out; a logger that is [None] makes the first
    [logger.info] raise. *)

(** What [match] returns for a line that matches a cluster. *)
Record LogCluster := { cluster_id : Z; log_template_tokens : list string }.

(** A row of the parsed output:
    [(LineId, Content, EventId, EventTemplate)]. *)
Definition parsed_line : Type := Z * string * option Z * option string.

Definition line_id (row : parsed_line) : Z := row.1.1.1.
Definition content (row : parsed_line) : string := row.1.1.2.
Definition event_id (row : parsed_line) : option Z := row.1.2.
Definition event_template (row : parsed_line) : option string := row.2.

(** [l[i]] on a Python list: a negative index counts from the end. *)
Definition list_getitem {A : Type} (l : list A) (i : Z) : outcome A :=
  let k := if decide (i < 0)%Z then (i + Z.of_nat (length l))%Z else i in
  if decide (k < 0)%Z then Failed IndexError
  else match l !! Z.to_nat k with
       | Some a => Done a
       | None => Failed IndexError
       end.

(** [range(a, b)]. *)
Definition range (a b : Z) : list Z := seqZ a (b - a).

Section template_miner.
Context {Miner Logger Ratio : Type}.
Variable add_log_message : Miner → string → Miner.
Variable miner_match : Miner → string → Miner * option LogCluster.
Variable int_times : nat → Ratio → option Z.

(** The loop of [train_on_subset]; the miner is returned as the loop
    leaves it, also when an index is out of range. *)
Fixpoint train_loop (template_miner : Miner) (lines : list string)
    (indices : list Z) : Miner * outcome unit :=
  match indices with
  | [] => (template_miner, Done ())
  | i :: indices' =>
      match list_getitem lines i with
      | Failed f => (template_miner, Failed f)
      | Done line =>
          train_loop (add_log_message template_miner line) lines indices'
      end
  end.

Definition train_on_subset (template_miner : Miner) (lines : list string)
    (subset_ratio : Ratio) (logger : option Logger) : Miner * outcome Z :=
  match int_times (length lines) subset_ratio with
  | None => (template_miner, Failed NotAnInteger)
  | Some n =>
      let num_train := if decide (n = 0)%Z then 1%Z else n in
      match logger with
      | None => (template_miner, Failed AttributeError)
      | Some _ =>
          let '(template_miner, r) :=
            train_loop template_miner lines (range 0 num_train) in
          (template_miner, r ≫= λ _, Done num_train)
      end
  end.

(** The row appended for line [line] at index [i]. *)
Definition match_row (template_miner : Miner) (i : Z) (line : string)
    : Miner * parsed_line :=
  let '(template_miner, match_result) := miner_match template_miner line in
  (template_miner,
   match match_result with
   | None => ((i + 1)%Z, line, None, None)
   | Some c => ((i + 1)%Z, line, Some (cluster_id c),
                Some (String.concat " " (log_template_tokens c)))
   end).

Fixpoint inference_loop (template_miner : Miner) (lines : list string)
    (parsed_results : list parsed_line) (indices : list Z)
    : Miner * outcome (list parsed_line) :=
  match indices with
  | [] => (template_miner, Done parsed_results)
  | i :: indices' =>
      match list_getitem lines i with
      | Failed f => (template_miner, Failed f)
      | Done line =>
          let '(template_miner, row) := match_row template_miner i line in
          inference_loop template_miner lines (parsed_results ++ [row]) indices'
      end
  end.

Definition inference_on_remaining (template_miner : Miner) (lines : list string)
    (start_index : Z) (logger : option Logger)
    : Miner * outcome (list parsed_line) :=
  match logger with
  | None => (template_miner, Failed AttributeError)
  | Some _ =>
      inference_loop template_miner lines []
        (range start_index (Z.of_nat (length lines)))
  end.

(** The inference loop of [main], [for i, line in enumerate(lines)], with
    the index the enumeration has reached. *)
Fixpoint enumerate_loop (template_miner : Miner) (parsed_lines : list parsed_line)
    (i : Z) (lines : list string) : Miner * list parsed_line :=
  match lines with
  | [] => (template_miner, parsed_lines)
  | line :: lines' =>
      let '(template_miner, row) := match_row template_miner i line in
      enumerate_loop template_miner (parsed_lines ++ [row]) (i + 1)%Z lines'
  end.

Definition infer_all (template_miner : Miner) (lines : list string)
    : Miner * list parsed_line :=
  enumerate_loop template_miner [] 0%Z lines.
End template_miner.


(** The lines looked up by [range(start_index, len(lines))]. *)
Definition lines_from (lines : list string) (start_index : Z) : list string :=
  if decide (start_index < 0)%Z
  then drop (Z.to_nat (Z.of_nat (length lines) + start_index)) lines ++ lines
  else drop (Z.to_nat start_index) lines.

(** An example miner: its state is the list of the lines it was trained
    on, and a line matches when it is one of them, the cluster being its
    length. *)
Definition history_add (m : list string) (line : string) : list string :=
  m ++ [line].
Definition history_match (m : list string) (line : string)
    : list string * option LogCluster :=
  (m, if bool_decide (line ∈ m)
      then Some {| cluster_id := Z.of_nat (String.length line);
                   log_template_tokens := [line] |}
      else None).
Definition tenth (n : nat) (ratio : unit) : option Z := Some (Z.of_nat n / 10)%Z.

(** *** The parse of all datasets: [parse_all.py] and the file names of
    [drain_train_infer.py]

    A run of the parser script is the script and the values of its
    command-line arguments, as [argparse] hands them to [main]; the
    content column is ["Content"] in both modes, passed or by default. The
    folders created are left out, and the listing and the tests of the
    file system are taken once for the whole loop. *)

Record arguments := {
  arg_mode : string;
  arg_path : string;
  arg_content_column : string;
  arg_dataset : string;
  arg_results_folder : string;
  arg_subset_ratio : string;
  arg_persistence_file : option string
}.

#[global] Instance arguments_eq_dec : EqDecision arguments.
Proof. solve_decision. Defined.

(** Lines 145-153 of [main] of [drain_train_infer.py]. *)
Definition run_mode_suffix (args : arguments) : string :=
  if bool_decide (arg_mode args = "log") then "_rawlog" else "_structured_csv".

Definition out_logfile (args : arguments) : string :=
  path_join (arg_results_folder args)
    [arg_dataset args +:+ "_train_infer_output" +:+ run_mode_suffix args +:+ ".log"].

Definition output_csv (args : arguments) : string :=
  path_join (arg_results_folder args)
    [arg_dataset args +:+ "_Drain3_parsed" +:+ run_mode_suffix args +:+ ".csv"].

Section parse_all.
Variable listdir : string → option (list string).
Variable isdir : string → bool.
Variable isfile : string → bool.

(** The body of the loop of [parse_all_datasets]: the runs for one entry
    of the base directory. *)
Definition parse_entry (base_dir parser_script entry : string)
    : list (string * arguments) :=
  let dataset_path := path_join base_dir [entry] in
  if negb (isdir dataset_path) then []
  else
    let dataset_name := entry in
    let log_file := path_join dataset_path [dataset_name +:+ "_2k.log"] in
    let csv_file :=
      path_join dataset_path [dataset_name +:+ "_2k.log_structured.csv"] in
    let results_folder := "results_" +:+ dataset_name in
    (if isfile log_file
     then [(parser_script,
            {| arg_mode := "log";
               arg_path := log_file;
               arg_content_column := "Content";
               arg_dataset := dataset_name;
               arg_results_folder := results_folder;
               arg_subset_ratio := "0.1";
               arg_persistence_file :=
                 Some (path_join results_folder
                         [dataset_name +:+ "_snapshot_log.json"]) |})]
     else [])
    ++ (if isfile csv_file
        then [(parser_script,
               {| arg_mode := "csv";
                  arg_path := csv_file;
                  arg_content_column := "Content";
                  arg_dataset := dataset_name;
                  arg_results_folder := results_folder;
                  arg_subset_ratio := "0.1";
                  arg_persistence_file :=
                    Some (path_join results_folder
                            [dataset_name +:+ "_snapshot_csv.json"]) |})]
        else []).

(** The runs of the parser script, in order. *)
Definition parse_all_datasets (base_dir parser_script : string)
    : outcome (list (string * arguments)) :=
  match listdir base_dir with
  | None => Failed (CannotRead base_dir)
  | Some entries => Done (entries ≫= parse_entry base_dir parser_script)
  end.
End parse_all.

(** ["/" in s]. *)
Fixpoint has_slash (s : string) : bool :=
  match s with
  | EmptyString => false
  | String c s' => bool_decide (String c EmptyString = "/") || has_slash s'
  end.

(** The directory of the scripts, where the evaluator looks for results. *)
Definition examples_dir : string := "/home/davidh/logparser/Drain3/examples/".

(** An example base directory: two dataset folders and a file. *)
Definition example_listdir (path : string) : option (list string) :=
  if bool_decide (path = data_dir) then Some ["HDFS"; "README.md"; "BGL"]
  else None.
Definition example_isdir (path : string) : bool :=
  bool_decide (path ∈ ["/home/davidh/logparser/data/HDFS";
                       "/home/davidh/logparser/data/BGL"]).
Definition example_isfile (path : string) : bool :=
  bool_decide (path ∈ ["/home/davidh/logparser/data/HDFS/HDFS_2k.log";
                       "/home/davidh/logparser/data/HDFS/HDFS_2k.log_structured.csv";
                       "/home/davidh/logparser/data/BGL/BGL_2k.log_structured.csv";
                       "/home/davidh/logparser/data/README.md"]).

(** The run on the structured file of BGL. *)
Definition example_run : string * arguments :=
  ("drain_train_infer.py",
   {| arg_mode := "csv";
      arg_path := "/home/davidh/logparser/data/BGL/BGL_2k.log_structured.csv";
      arg_content_column := "Content";
      arg_dataset := "BGL";
      arg_results_folder := "results_BGL";
      arg_subset_ratio := "0.1";
      arg_persistence_file := Some "results_BGL/BGL_snapshot_csv.json" |}).

(** ** Binary64 arithmetic

    The numbers of the source are Python floats: binary64. A binary64
    value is modelled by the rational it denotes, and every operation
    returns the exact result rounded to 53 significant bits, ties to the
    even neighbour. The exponent range is left unbounded: overflow and
    subnormal numbers are out of reach of the pair counts and of their
    ratios (a series would need more than [2^500] lines), and no NaN or
    infinity arises. *)

(** The exponent [e] of the binade of a positive rational:
    [2^e <= x < 2^(e+1)]. *)
Definition binade (x : Q) : Z :=
  let e := (Z.log2 (Qnum x) - Z.log2 (Z.pos (Qden x)))%Z in
  if Qle_bool (2 ^ e) x then e else (e - 1)%Z.

(** The integer nearest to a rational, a tie going to the even one. *)
Definition nearest_even (x : Q) : Z :=
  let f := Qfloor x in
  match (x - inject_Z f ?= 1 # 2)%Q with
  | Lt => f
  | Gt => (f + 1)%Z
  | Eq => if Z.even f then f else (f + 1)%Z
  end.

(** A positive rational rounded to 53 significant bits. *)
Definition round_pos (x : Q) : Q :=
  let ulp := (2 ^ (binade x - 52))%Q in
  (inject_Z (nearest_even (x / ulp)) * ulp)%Q.

(** The binary64 number nearest to [x], in lowest terms. *)
Definition round64 (x : Q) : Q :=
  Qred (match (x ?= 0)%Q with
        | Eq => 0
        | Gt => round_pos x
        | Lt => - round_pos (- x)
        end)%Q.

Definition add64 (x y : Q) : Q := round64 (x + y).
Definition sub64 (x y : Q) : Q := round64 (x - y).
Definition mul64 (x y : Q) : Q := round64 (x * y).

(** Python's [/] on floats. *)
Definition div64 (x y : Q) : result Q :=
  if Qeq_bool y 0 then Raise ZeroDivisionError else Ok (round64 (x / y)).

(** [float(n)] for a Python integer. *)
Definition float_of_nat (n : nat) : Q := round64 (Qnat n).

(** The values a binary64 number can take, zero apart: an integer below
    [2^53] times a power of two. *)
Definition representable (x : Q) : Prop :=
  ∃ k j : Z, (0 < k < 2 ^ 53)%Z ∧ (x == inject_Z k * 2 ^ j)%Q.

(** ** [get_accuracy] in binary64

    The definitions above take [comb] and the ratios at their mathematical
    value. The source computes them as Python floats: [comb(count, 2)] is
    called with the default [exact=False] and returns a binary64 number,
    [+=] accumulates these in binary64, and the four ratios are binary64
    quotients. The definitions below follow the same lines with that
    arithmetic; the counts of messages stay integers. *)

(** [scipy.special.comb(count, 2)] with [exact=False]: SciPy's [binom]
    takes the multiplication formula for a small integer [k], here
    [(1 + n - 2) * (2 + n - 2)] over [1 * 2] with [n = float(count)],
    every operation in binary64 (for [count] 2 and 3 it shortens the
    product by symmetry, with the same values 1 and 3). SciPy is not part
    of the repository: the formula is that of its source. *)
Definition binom64 (n : Q) : Q :=
  let num := mul64 (mul64 1 (sub64 (add64 1 n) 2)) (sub64 (add64 2 n) 2) in
  round64 (num / 2).

Definition comb64 (count : nat) : Q := binom64 (float_of_nat count).

(** The body of the loops [if count > 1: acc += comb(count, 2)]. *)
Definition add_pairs64 (acc : Q) (count : nat) : Q :=
  if decide (1 < count) then add64 acc (comb64 count) else acc.

Record counts64 := Counts64 {
  real_pairs64 : Q;
  parsed_pairs64 : Q;
  accurate_pairs64 : Q;
  accurate_events64 : nat;
  groundtruth_size64 : nat
}.

Section get_accuracy64.
Context {Id G P : Type} `{EqDecision Id, EqDecision G, EqDecision P}.

(** One iteration of the loop over the predicted classes. *)
Definition score_class64 (debug : bool)
    (series_groundtruth : list (Id * option G))
    (series_parsedlog : list (Id * option P))
    (st : Q * nat * list (@trace G P)) (parsed_eventId : P)
    : result (Q * nat * list (@trace G P)) :=
  let '(pairs, events, out) := st in
  let logIds := index (select series_parsedlog parsed_eventId) in
  sel ← getitem series_groundtruth logIds;
  let series_gt_valuecounts := value_counts sel in
  let error_eventIds := (parsed_eventId, series_gt_valuecounts.*1) in
  let '(events', error) :=
    match series_gt_valuecounts with
    | [(groundtruth_eventId, _)] =>
        if decide (length logIds = size (select series_groundtruth groundtruth_eventId))
        then (events + length logIds, false)
        else (events, true)
    | _ => (events, true)
    end in
  let out' := if error && debug then out ++ [(error_eventIds, length logIds)] else out in
  Ok (foldl add_pairs64 pairs series_gt_valuecounts.*2, events', out').

(** Lines 40-72 in binary64. *)
Definition get_counts64 (series_groundtruth : list (Id * option G))
    (series_parsedlog : list (Id * option P)) (debug : bool)
    : result (counts64 * list (@trace G P)) :=
  let real := foldl add_pairs64 0%Q (value_counts series_groundtruth).*2 in
  let series_parsedlog_valuecounts := value_counts series_parsedlog in
  let parsed := foldl add_pairs64 0%Q series_parsedlog_valuecounts.*2 in
  '(pairs, events, out) ←
    for_each (score_class64 debug series_groundtruth series_parsedlog)
             (0%Q, 0, []) series_parsedlog_valuecounts.*1;
  Ok (Counts64 real parsed pairs events (size series_groundtruth), out).
End get_accuracy64.

(** Lines 75-78 in binary64; [float(x)] of a count is [round64 x]. *)
Definition ratios64 (c : counts64) : result scores :=
  precision ← (if negb (Qeq_bool (parsed_pairs64 c) 0)
               then div64 (round64 (accurate_pairs64 c)) (parsed_pairs64 c)
               else Ok 0%Q);
  recall ← (if negb (Qeq_bool (real_pairs64 c) 0)
            then div64 (round64 (accurate_pairs64 c)) (real_pairs64 c)
            else Ok 0%Q);
  f_measure ← (if negb (Qeq_bool (add64 precision recall) 0)
               then div64 (mul64 (mul64 2 precision) recall) (add64 precision recall)
               else Ok 0%Q);
  accuracy ← (if decide (groundtruth_size64 c ≠ 0)
              then div64 (float_of_nat (accurate_events64 c))
                         (float_of_nat (groundtruth_size64 c))
              else Ok 0%Q);
  Ok (Scores precision recall f_measure accuracy).

Section get_accuracy64_def.
Context {Id G P : Type} `{EqDecision Id, EqDecision G, EqDecision P}.

(** [get_accuracy] as the source computes it: the returned tuple of
    binary64 numbers, paired with what was printed. *)
Definition get_accuracy64 (series_groundtruth : list (Id * option G))
    (series_parsedlog : list (Id * option P)) (debug : bool)
    : result (scores * list (@trace G P)) :=
  '(c, out) ← get_counts64 series_groundtruth series_parsedlog debug;
  s ← ratios64 c;
  Ok (s, out).
End get_accuracy64_def.

(** [evaluate] with the binary64 scores. *)
Definition evaluate64 (df_groundtruth df_parsedlog : DataFrame) : result (Q * Q) :=
  '(series_groundtruth, series_parsedlog) ← align df_groundtruth df_parsedlog;
  '(s, _) ← get_accuracy64 series_groundtruth series_parsedlog false;
  Ok (f_measure s, accuracy s).

(** A number of lines, [2^27], up to which every pair count is below
    [2^53], so that the counting is not rounded:
    [134217728 * 134217727 / 2 = 2^53 - 2^26]. *)
Definition exact_lines : Z := 134217728.

(** The counts as binary64 numbers that hold them exactly. *)
Definition counts64_of (c : counts) : counts64 :=
  Counts64 (Qnat (real_pairs c)) (Qnat (parsed_pairs c)) (Qnat (accurate_pairs c))
           (accurate_events c) (groundtruth_size c).

(** The rounded ratio of two counts, zero when the denominator is. *)
Definition ratio64 (a b : nat) : Q :=
  if decide (b ≠ 0) then round64 (Qnat a / Qnat b) else 0%Q.

(** The harmonic mean as line 77 computes it. *)
Definition harmonic64 (p r : Q) : Q :=
  if negb (Qeq_bool (add64 p r) 0)
  then round64 (mul64 (mul64 2 p) r / add64 p r) else 0%Q.

(** The binary64 scores as functions of counts that are held exactly. *)
Definition scores64_of_counts (c : counts) : scores :=
  let precision := ratio64 (accurate_pairs c) (parsed_pairs c) in
  let recall := ratio64 (accurate_pairs c) (real_pairs c) in
  Scores precision recall (harmonic64 precision recall)
         (ratio64 (accurate_events c) (groundtruth_size c)).

(** ** Labelings given by runs

    A labeling of very many lines is written as a list of runs: the run
    [((g, p), n)] stands for [n] consecutive lines with ground-truth label
    [g] and predicted label [p]. The lines are numbered from 1. The scores
    of such a labeling are computed on the runs, with the class sizes as
    binary integers. *)

(** The elements of a list of runs, each as often as its run is long. *)
Definition expand {A : Type} (r : list (A * positive)) : list A :=
  r ≫= λ x, replicate (Pos.to_nat x.2) x.1.

(** A list with its elements numbered from 1. *)
Definition numbered {A : Type} (l : list A) : list (Z * A) :=
  imap (λ i x, (Z.of_nat (S i), x)) l.

Section rows.
Context {Id G P : Type}.

(** The two series of a table of lines [(id, (g, p))]. *)
Definition groundtruth_of (rows : list (Id * (G * option P))) : list (Id * option G) :=
  (λ r, (r.1, Some r.2.1)) <$> rows.
Definition predicted_of (rows : list (Id * (G * option P))) : list (Id * option P) :=
  (λ r, (r.1, r.2.2)) <$> rows.
End rows.

Section run_counts.
Context {L : Type} `{EqDecision L}.

(** The number of lines of the runs with label [v]. *)
Definition total (v : L) (r : list (L * positive)) : Z :=
  foldr (λ x acc, if decide (x.1 = v) then (Z.pos x.2 + acc)%Z else acc) 0%Z r.

Fixpoint insert_descZ (x : L * Z) (l : list (L * Z)) : list (L * Z) :=
  match l with
  | [] => [x]
  | y :: l' => if decide (x.2 < y.2)%Z then y :: insert_descZ x l' else x :: y :: l'
  end.

Definition sort_descZ (l : list (L * Z)) : list (L * Z) := foldr insert_descZ [] l.

(** [value_counts] on runs. *)
Definition run_counts (r : list (L * positive)) : list (L * Z) :=
  sort_descZ ((λ v, (v, total v r)) <$> unique r.*1).

(** [value_counts] on a list of values. *)
Definition list_counts (vs : list L) : list (L * nat) :=
  sort_desc ((λ v, (v, count_of v vs)) <$> unique vs).

(** A count of runs as a count of lines. *)
Definition to_nat_count (x : L * Z) : L * nat := (x.1, Z.to_nat x.2).
End run_counts.

Definition add_pairs64Z (acc : Q) (count : Z) : Q :=
  if decide (1 < count)%Z then add64 acc (binom64 (round64 (inject_Z count))) else acc.

(** Lines 75-78 on counts and sizes given as binary integers. *)
Definition ratios64Z (real parsed pairs : Q) (events size : Z) : result scores :=
  precision ← (if negb (Qeq_bool parsed 0)
               then div64 (round64 pairs) parsed else Ok 0%Q);
  recall ← (if negb (Qeq_bool real 0)
            then div64 (round64 pairs) real else Ok 0%Q);
  f_measure ← (if negb (Qeq_bool (add64 precision recall) 0)
               then div64 (mul64 (mul64 2 precision) recall) (add64 precision recall)
               else Ok 0%Q);
  accuracy ← (if decide (size ≠ 0%Z)
              then div64 (round64 (inject_Z events)) (round64 (inject_Z size))
              else Ok 0%Q);
  Ok (Scores precision recall f_measure accuracy).

Section scores_of_runs.
Context {G P : Type} `{EqDecision G, EqDecision P}.
Implicit Types J : list (G * option P * positive).

Definition groundtruth_runs J : list (G * positive) := (λ x, (x.1.1, x.2)) <$> J.
Definition predicted_runs J : list (P * positive) :=
  omap (λ x, (λ p, (p, x.2)) <$> x.1.2) J.
(** The ground-truth labels of the lines of predicted class [p]. *)
Definition class_runs J (p : P) : list (G * positive) :=
  (λ x, (x.1.1, x.2)) <$> filter (λ x, x.1.2 = Some p) J.

Definition lines J : Z := foldr (λ x acc, (Z.pos x.2 + acc)%Z) 0%Z J.

(** One iteration of the loop over the predicted classes. *)
Definition score_class_runs J (st : Q * Z) (p : P) : Q * Z :=
  let class := run_counts (class_runs J p) in
  let members := total p (predicted_runs J) in
  (foldl add_pairs64Z st.1 class.*2,
   match class with
   | [(g, _)] =>
       if decide (members = total g (groundtruth_runs J))
       then (st.2 + members)%Z else st.2
   | _ => st.2
   end).

(** [get_accuracy] in binary64 on a labeling given by runs. *)
Definition scores_of_runs J : result scores :=
  let real := foldl add_pairs64Z 0%Q (run_counts (groundtruth_runs J)).*2 in
  let classes := run_counts (predicted_runs J) in
  let parsed := foldl add_pairs64Z 0%Q classes.*2 in
  let st := foldl (score_class_runs J) (0%Q, 0%Z) classes.*1 in
  ratios64Z real parsed st.1 st.2 (lines J).

(** One iteration of the loop over the predicted classes, on aligned
    series and without the output. *)
Definition class_step64 {Id : Type} `{EqDecision Id} (gt : list (Id * option G))
    (parsed : list (Id * option P)) (st : Q * nat) (p : P) : Q * nat :=
  let logIds := index (select parsed p) in
  let class := list_counts (omap (label_at gt) logIds) in
  (foldl add_pairs64 st.1 class.*2,
   match class with
   | [(g, _)] =>
       if decide (length logIds = size (select gt g))
       then st.2 + length logIds else st.2
   | _ => st.2
   end).

(** The labeling itself. *)
Definition groundtruth_of_runs J : list (Z * option G) :=
  groundtruth_of (numbered (expand J)).
Definition predicted_of_runs J : list (Z * option P) :=
  predicted_of (numbered (expand J)).
End scores_of_runs.

(** ** Long labelings

    Labelings whose pair counts pass [2^53], given by runs. *)

(** 134217737 lines: 134217732 lines of ground-truth class a, 3 of class
    b and 2 of class c; the prediction puts the lines of a and c in one
    class and recovers b. *)
Definition long_merged : list (string * option string * positive) :=
  [(("a", Some "P1"), 134217732); (("b", Some "P2"), 3); (("c", Some "P1"), 2)]%positive.

(** 160000013 lines: ground-truth classes a and a2 of 120000011 and
    40000000 lines that the prediction merges, and a class f of which
    the prediction recovers two lines. *)
Definition long_partial : list (string * option string * positive) :=
  [(("a", Some "P0"), 120000011); (("a2", Some "P0"), 40000000);
   (("f", Some "P1"), 2)]%positive.

(** One class of 134217730 lines, recovered by the prediction. *)
Definition long_class : list (string * option string * positive) :=
  [(("a", Some "P1"), 134217730)]%positive.

(** ** Arithmetic of pair counts *)

Lemma comb_1 n : comb n 1 = n.
Proof. induction n as [|n IH]; simpl; [done|]. rewrite IH. destruct n; simpl; lia. Qed.

Lemma comb_S_2 n : comb (S n) 2 = n + comb n 2.
Proof. change (comb (S n) 2) with (comb n 1 + comb n 2). by rewrite comb_1. Qed.

Lemma comb_2_small n : n ≤ 1 → comb n 2 = 0.
Proof. intros Hn. destruct n as [|[|n]]; [done|done|lia]. Qed.

Lemma comb_2_closed n : 2 * comb n 2 = n * (n - 1).
Proof.
  induction n as [|n IH]; [done|]. rewrite comb_S_2.
  replace (S n - 1) with n by lia. destruct n as [|m]; [done|].
  replace (S m - 1) with m in IH by lia.
  rewrite Nat.mul_add_distr_l, IH. clear IH. lia.
Qed.

Lemma add_pairs_comb acc n : add_pairs acc n = acc + comb n 2.
Proof.
  unfold add_pairs. case_decide; [done|]. rewrite comb_2_small; lia.
Qed.

Lemma foldl_add_pairs acc cs :
  foldl add_pairs acc cs = acc + sum_list_with (λ c, comb c 2) cs.
Proof.
  revert acc. induction cs as [|c cs IH]; intros acc; simpl; [lia|].
  rewrite IH, add_pairs_comb. lia.
Qed.

Lemma sum_list_with_fmap {A B : Type} (f : B → nat) (g : A → B) (l : list A) :
  sum_list_with f (g <$> l) = sum_list_with (λ x, f (g x)) l.
Proof.
  induction l as [|x l IH]; [done|].
  rewrite fmap_cons. cbn [sum_list_with]. by rewrite IH.
Qed.

Lemma sum_list_with_ext_in {A : Type} (f g : A → nat) (l : list A) :
  (∀ x, x ∈ l → f x = g x) → sum_list_with f l = sum_list_with g l.
Proof.
  induction l as [|x l IH]; intros Hfg; cbn [sum_list_with]; [done|].
  rewrite Hfg by left. rewrite IH; [done|]. intros y Hy. apply Hfg. by right.
Qed.

Lemma sum_list_with_le {A : Type} (f g : A → nat) (l : list A) :
  (∀ x, x ∈ l → f x ≤ g x) → sum_list_with f l ≤ sum_list_with g l.
Proof.
  induction l as [|x l IH]; intros Hfg; cbn [sum_list_with]; [done|].
  pose proof (Hfg x ltac:(left)).
  assert (sum_list_with f l ≤ sum_list_with g l); [|lia].
  apply IH. intros y Hy. apply Hfg. by right.
Qed.

Lemma sum_list_with_add {A : Type} (f g : A → nat) (l : list A) :
  sum_list_with (λ x, f x + g x) l = sum_list_with f l + sum_list_with g l.
Proof.
  induction l as [|x l IH]; [done|]. cbn [sum_list_with]. rewrite IH. lia.
Qed.

Lemma sum_list_with_zero {A : Type} (l : list A) :
  sum_list_with (λ _, 0) l = 0.
Proof. induction l as [|x l IH]; [done|]. by cbn [sum_list_with]. Qed.

(** ** Counting values *)

Section counting.
Context {L : Type} `{EqDecision L}.
Implicit Types (v : L) (vs ls : list L).

Lemma insert_desc_perm (x : L * nat) l : insert_desc x l ≡ₚ x :: l.
Proof.
  induction l as [|y l IH]; simpl; [done|].
  case_decide; [|done]. rewrite IH. apply perm_swap.
Qed.

Lemma sort_desc_perm (l : list (L * nat)) : sort_desc l ≡ₚ l.
Proof.
  induction l as [|x l IH]; simpl; [done|].
  by rewrite insert_desc_perm, IH.
Qed.

Lemma elem_of_unique v vs : v ∈ unique vs ↔ v ∈ vs.
Proof.
  induction vs as [|w vs IH]; simpl; [done|].
  rewrite !elem_of_cons, list_elem_of_filter, IH.
  destruct (decide (v = w)); tauto.
Qed.

Lemma NoDup_unique vs : NoDup (unique vs).
Proof.
  induction vs as [|w vs IH]; simpl; [constructor|].
  constructor; [|by apply list.NoDup_filter].
  rewrite list_elem_of_filter. tauto.
Qed.

Lemma count_of_cons v w vs :
  count_of v (w :: vs) = (if decide (w = v) then 1 else 0) + count_of v vs.
Proof. unfold count_of. rewrite filter_cons. by case_decide. Qed.

Lemma count_of_le v vs : count_of v vs ≤ length vs.
Proof. apply length_filter. Qed.

Lemma count_of_zero v vs : v ∉ vs → count_of v vs = 0.
Proof.
  intros Hv. unfold count_of. destruct (filter _ vs) as [|w l] eqn:E; [done|].
  assert (w ∈ filter (λ w, w = v) vs) as Hw by (rewrite E; left).
  apply list_elem_of_filter in Hw as [-> ?]. done.
Qed.

Lemma count_of_perm v vs vs' : vs ≡ₚ vs' → count_of v vs = count_of v vs'.
Proof. intros Hp. unfold count_of. by rewrite Hp. Qed.

(** Summing [f] over the entries of a duplicate-free list equal to [v]. *)
Lemma sum_filter_eq (f : L → nat) v ls :
  NoDup ls →
  sum_list_with f (filter (λ w, w = v) ls) = if decide (v ∈ ls) then f v else 0.
Proof.
  induction 1 as [|w ls Hw Hnd IH]; [done|].
  rewrite filter_cons. destruct (decide (w = v)) as [->|Hne].
  - cbn [sum_list_with]. rewrite IH.
    destruct (decide (v ∈ ls)); [done|].
    destruct (decide (v ∈ v :: ls)) as [|Hn]; [lia|]. destruct Hn. left.
  - rewrite IH. destruct (decide (v ∈ ls)) as [Hin|Hin].
    + destruct (decide (v ∈ w :: ls)) as [|Hn]; [done|]. destruct Hn. by right.
    + destruct (decide (v ∈ w :: ls)) as [Hn|]; [|done].
      apply elem_of_cons in Hn as [->|?]; done.
Qed.

Lemma sum_filter_split (f : L → nat) (Q : L → Prop) `{∀ x, Decision (Q x)} ls :
  sum_list_with f ls =
  sum_list_with f (filter Q ls) + sum_list_with f (filter (λ x, ¬ Q x) ls).
Proof.
  induction ls as [|w ls IH]; [done|].
  rewrite !filter_cons. cbn [sum_list_with]. destruct (decide (Q w)).
  - rewrite decide_False by tauto. cbn [sum_list_with]. lia.
  - rewrite decide_True by done. cbn [sum_list_with]. lia.
Qed.

Lemma same_pairs_unique vs :
  sum_list_with (λ w, comb (count_of w vs) 2) (unique vs) = same_pairs vs.
Proof.
  induction vs as [|v vs IH]; [done|]. cbn [unique same_pairs sum_list_with].
  rewrite <-IH. clear IH.
  rewrite (sum_filter_split (λ w, comb (count_of w vs) 2) (λ w, w = v) (unique vs)).
  rewrite sum_filter_eq by apply NoDup_unique.
  rewrite count_of_cons, decide_True by done.
  change (1 + count_of v vs) with (S (count_of v vs)). rewrite comb_S_2.
  assert (sum_list_with (λ w, comb (count_of w (v :: vs)) 2) (filter (λ w, w ≠ v) (unique vs))
          = sum_list_with (λ w, comb (count_of w vs) 2) (filter (λ x, x ≠ v) (unique vs))) as ->.
  { induction (unique vs) as [|w ls IH]; [done|].
    rewrite !filter_cons. case_decide; simpl; rewrite ?IH; [|done].
    rewrite count_of_cons, decide_False by done. done. }
  case_decide as Hin.
  - lia.
  - rewrite elem_of_unique in Hin. rewrite (count_of_zero v vs Hin). simpl. lia.
Qed.

Lemma value_counts_pairs {Id : Type} (s : list (Id * option L)) acc :
  foldl add_pairs acc (value_counts s).*2 = acc + same_pairs (omap snd s).
Proof.
  rewrite foldl_add_pairs. f_equal. unfold value_counts.
  rewrite <-same_pairs_unique. generalize (omap snd s). intros vs.
  rewrite (sum_list_with_Permutation_proper _ _ _
    (fmap_Permutation snd _ _ (sort_desc_perm _))).
  by rewrite !sum_list_with_fmap.
Qed.

Lemma value_counts_index {Id : Type} (s : list (Id * option L)) :
  (value_counts s).*1 ≡ₚ unique (omap snd s).
Proof.
  unfold value_counts. rewrite sort_desc_perm, <-list_fmap_compose.
  by rewrite list_fmap_id.
Qed.

Lemma same_pairs_perm vs vs' : vs ≡ₚ vs' → same_pairs vs = same_pairs vs'.
Proof.
  induction 1 as [|v vs vs' Hp IH|v w vs|vs1 vs2 vs3 _ IH1 _ IH2];
    cbn [same_pairs].
  - done.
  - by rewrite IH, (count_of_perm v vs vs').
  - rewrite !count_of_cons.
    destruct (decide (v = w)) as [->|Hne].
    + rewrite decide_True by done. lia.
    + rewrite decide_False by congruence. lia.
  - congruence.
Qed.

Lemma same_pairs_le_comb vs : same_pairs vs ≤ comb (length vs) 2.
Proof.
  induction vs as [|v vs IH]; [done|]. cbn [same_pairs length].
  rewrite comb_S_2. pose proof (count_of_le v vs). lia.
Qed.

Lemma count_of_all v vs : Forall (λ w, w = v) vs → count_of v vs = length vs.
Proof.
  induction 1 as [|w vs -> _ IH]; [done|].
  rewrite count_of_cons, decide_True by done. cbn [length]. lia.
Qed.

Lemma same_pairs_const v vs :
  Forall (λ w, w = v) vs → same_pairs vs = comb (length vs) 2.
Proof.
  induction 1 as [|w vs -> Hvs IH]; [done|]. cbn [same_pairs length].
  by rewrite comb_S_2, IH, count_of_all.
Qed.
End counting.

(** ** The loop and its counts *)

Lemma bind_Ok {A B} (f : A → result B) (a : A) : (Ok a ≫= f) = f a.
Proof. done. Qed.

Lemma bind_Raise {A B} (f : A → result B) e : (Raise e ≫= f) = Raise e.
Proof. done. Qed.

Section loop.
Context {Id G P : Type} `{EqDecision Id, EqDecision G, EqDecision P}.
Implicit Types (gt : list (Id * option G)) (parsed : list (Id * option P)).

Lemma getitem_error {V} (s : list (Id * V)) ids e :
  getitem s ids = Raise e → e = KeyError.
Proof.
  revert e. induction ids as [|i ids IH]; intros e; [done|].
  cbn [getitem]. destruct (loc s i); [congruence|].
  destruct (getitem s ids) as [rest|e']; [done|].
  intros [= <-]. by apply IH.
Qed.

Lemma value_counts_single {Id'} {A} (sel : list (Id' * option G)) (F : G → A) (D : A) :
  match value_counts sel with [(g, _)] => F g | _ => D end
  = match unique (omap snd sel) with [g] => F g | _ => D end.
Proof.
  pose proof (value_counts_index sel) as Hp.
  destruct (value_counts sel) as [|[g n] [|x vc]].
  - apply Permutation_nil_l in Hp. by rewrite <-Hp.
  - apply Permutation_singleton_l in Hp. by rewrite <-Hp.
  - pose proof (Permutation_length Hp) as Hl.
    destruct (unique (omap snd sel)) as [|g1 [|g2 l]]; done.
Qed.

Lemma score_class_numeric debug gt parsed a e out p :
  numeric <$> score_class debug gt parsed (a, e, out) p
  = (λ x, (a + x.1, e + x.2)) <$> class_counts gt parsed p.
Proof.
  unfold score_class, class_counts.
  destruct (getitem gt _) as [sel|err]; [|done].
  rewrite !bind_Ok.
  rewrite value_counts_pairs.
  rewrite (value_counts_single sel
    (λ g, if decide (length (index (select parsed p)) = size (select gt g))
          then (e + length (index (select parsed p)), false) else (e, true)) (e, true)).
  unfold class_size; unfold values.
  destruct (unique (omap snd sel)) as [|g [|g' l]]; [|case_decide|];
    cbn; unfold numeric; cbn; by rewrite ?Nat.add_0_r.
Qed.

Lemma for_each_numeric debug gt parsed ps a e out :
  numeric <$> for_each (score_class debug gt parsed) (a, e, out) ps
  = (λ x, (a + x.1, e + x.2)) <$> loop_counts gt parsed ps.
Proof.
  revert a e out. induction ps as [|p ps IH]; intros a e out.
  - cbn. unfold numeric. cbn. f_equal. f_equal; lia.
  - cbn [for_each loop_counts].
    pose proof (score_class_numeric debug gt parsed a e out p) as Hp.
    destruct (score_class debug gt parsed (a, e, out) p) as [[[a' e'] out']|err];
      destruct (class_counts gt parsed p) as [[da de]|err']; try done.
    injection Hp as -> ->. rewrite !bind_Ok, IH.
    destruct (loop_counts gt parsed ps) as [[x y]|]; [|done].
    cbn. f_equal. f_equal; lia.
Qed.

Lemma class_counts_error gt parsed p e :
  class_counts gt parsed p = Raise e → e = KeyError.
Proof.
  unfold class_counts. destruct (getitem gt _) eqn:E; [done|].
  intros [= <-]. by eapply getitem_error.
Qed.

Lemma loop_counts_error gt parsed ps e :
  loop_counts gt parsed ps = Raise e → e = KeyError.
Proof.
  induction ps as [|p ps IH]; [done|]. cbn [loop_counts].
  destruct (class_counts gt parsed p) eqn:E.
  - destruct (loop_counts gt parsed ps); [done|].
    intros [= <-]. by apply IH.
  - intros [= <-]. by eapply class_counts_error.
Qed.

Lemma loop_counts_perm gt parsed ps ps' :
  ps ≡ₚ ps' → loop_counts gt parsed ps = loop_counts gt parsed ps'.
Proof.
  induction 1 as [|p ps ps' _ IH|p q ps|ps1 ps2 ps3 _ IH1 _ IH2].
  - done.
  - cbn [loop_counts]. by rewrite IH.
  - cbn [loop_counts].
    destruct (class_counts gt parsed p) as [[a1 e1]|err1] eqn:E1;
      destruct (class_counts gt parsed q) as [[a2 e2]|err2] eqn:E2;
      rewrite ?bind_Ok, ?bind_Raise.
    + destruct (loop_counts gt parsed ps) as [[a3 e3]|]; [|done].
      cbn. f_equal. f_equal; lia.
    + done.
    + destruct (loop_counts gt parsed ps); done.
    + apply class_counts_error in E1, E2. by subst.
  - congruence.
Qed.

(** The counts of [get_counts], whatever the debug flag. *)
Lemma get_counts_numeric gt parsed debug :
  fst <$> get_counts gt parsed debug
  = (λ x, Counts (same_pairs (values gt)) (same_pairs (values parsed))
                 x.1 x.2 (size gt))
    <$> loop_counts gt parsed (unique (values parsed)).
Proof.
  unfold get_counts. rewrite !value_counts_pairs.
  pose proof (for_each_numeric debug gt parsed (value_counts parsed).*1 0 0 [])
    as Hn.
  rewrite (loop_counts_perm _ _ _ _ (value_counts_index parsed)) in Hn.
  unfold values.
  destruct (for_each _ _ _) as [[[a e] out]|err];
    destruct (loop_counts _ _ _) as [[x y]|err']; try done.
  - injection Hn as -> ->. done.
  - injection Hn as ->. done.
Qed.
End loop.

(** ** The guarded ratios *)

Lemma Qnat_nonneg n : (0 <= Qnat n)%Q.
Proof. unfold Qnat. change 0%Q with (inject_Z 0). rewrite <-Zle_Qle. lia. Qed.

Lemma Qnat_le n m : n ≤ m → (Qnat n <= Qnat m)%Q.
Proof. intros. unfold Qnat. rewrite <-Zle_Qle. lia. Qed.

Lemma Qnat_pos n : n ≠ 0 → (0 < Qnat n)%Q.
Proof. intros. unfold Qnat. change 0%Q with (inject_Z 0). rewrite <-Zlt_Qlt. lia. Qed.

Lemma fdiv_Ok a b : ¬ (b == 0)%Q → fdiv a b = Ok (a / b)%Q.
Proof.
  intros Hb. unfold fdiv. destruct (Qeq_bool b 0) eqn:E; [|done].
  by apply Qeq_bool_eq in E.
Qed.

Lemma guarded_ratio_Ok a b :
  (if decide (b ≠ 0) then fdiv (Qnat a) (Qnat b) else Ok 0%Q) = Ok (ratio a b).
Proof.
  unfold ratio. case_decide as Hb; [|done]. apply fdiv_Ok.
  pose proof (Qnat_pos b Hb). lra.
Qed.

Lemma guarded_harmonic_Ok p r :
  (if negb (Qeq_bool (p + r) 0) then fdiv (2 * p * r) (p + r) else Ok 0%Q)
  = Ok (harmonic p r).
Proof.
  unfold harmonic. destruct (Qeq_bool (p + r) 0) eqn:E; [done|]. cbn.
  apply fdiv_Ok. by apply Qeq_bool_neq.
Qed.

(** The guards leave no division by zero: [ratios] always returns. *)
Lemma ratios_Ok c : ratios c = Ok (scores_of_counts c).
Proof.
  unfold ratios. rewrite !guarded_ratio_Ok, !bind_Ok.
  by rewrite guarded_harmonic_Ok.
Qed.

Lemma ratio_in_unit a b : a ≤ b → in_unit (ratio a b).
Proof.
  intros Hab. unfold ratio, in_unit. case_decide as Hb; [|lra].
  pose proof (Qnat_pos b Hb). pose proof (Qnat_nonneg a).
  pose proof (Qnat_le a b Hab). split.
  - apply Qle_shift_div_l; [done|]. lra.
  - apply Qle_shift_div_r; [done|]. lra.
Qed.


Lemma omap_fmap {A B C : Type} (f : B → option C) (g : A → B) (l : list A) :
  omap f (g <$> l) = omap (λ x, f (g x)) l.
Proof.
  induction l as [|x l IH]; [done|]. rewrite fmap_cons. cbn [omap list_omap].
  by rewrite IH.
Qed.

(** ** Aligned labelings *)

Section lookup.
Context {Id V : Type} `{EqDecision Id}.
Implicit Types (s : list (Id * V)) (i : Id).

Lemma loc_nil_not_in s i : i ∉ index s → loc s i = [].
Proof.
  intros Hi. unfold loc. induction s as [|[j v] s IH]; [done|].
  unfold index in Hi. rewrite fmap_cons, not_elem_of_cons in Hi.
  destruct Hi as [Hne Hi]. cbn in Hne.
  rewrite filter_cons_False by (cbn; congruence).
  by apply IH.
Qed.

Lemma loc_NoDup s i v : NoDup (index s) → (i, v) ∈ s → loc s i = [(i, v)].
Proof.
  unfold index, loc. induction s as [|[j w] s IH]; intros Hnd Hin.
  - by apply elem_of_nil in Hin.
  - rewrite fmap_cons in Hnd. apply list.NoDup_cons in Hnd as [Hj Hnd].
    apply elem_of_cons in Hin as [[= <- <-]|Hin].
    + rewrite filter_cons_True by done. f_equal. by apply loc_nil_not_in.
    + rewrite filter_cons_False; [by apply IH|]. cbn. intros ->.
      apply Hj. apply list_elem_of_fmap. by exists (i, v).
Qed.

Lemma loc_in s i r : r ∈ loc s i → r ∈ s ∧ r.1 = i.
Proof. unfold loc. rewrite list_elem_of_filter. tauto. Qed.

Lemma loc_nonempty s i : i ∈ index s → loc s i ≠ [].
Proof.
  unfold index. rewrite list_elem_of_fmap. intros [r [-> Hr]] Hnil.
  assert (r ∈ loc s r.1) as Hin by (by apply list_elem_of_filter).
  rewrite Hnil in Hin. by apply elem_of_nil in Hin.
Qed.

(** Looking up lines that all exist does not raise. *)
Lemma getitem_Ok s ids :
  ids ⊆ index s → getitem s ids = Ok (ids ≫= loc s).
Proof.
  induction ids as [|i ids IH]; intros Hsub; [done|].
  cbn [getitem]. rewrite IH by (intros j Hj; apply Hsub; by right).
  pose proof (loc_nonempty s i (Hsub i ltac:(left))).
  destruct (loc s i) eqn:E; [done|]. rewrite bind_Ok, bind_cons. by rewrite E.
Qed.

Lemma getitem_Raise s ids i :
  i ∈ ids → i ∉ index s → getitem s ids = Raise KeyError.
Proof.
  induction ids as [|j ids IH]; intros Hin Hnot.
  - by apply elem_of_nil in Hin.
  - cbn [getitem]. apply elem_of_cons in Hin as [<-|Hin].
    + by rewrite loc_nil_not_in.
    + rewrite IH by done. by destruct (loc s j).
Qed.
End lookup.

Section aligned.
Context {Id G P : Type} `{EqDecision Id, EqDecision G, EqDecision P}.
Implicit Types (gt : list (Id * option G)) (parsed : list (Id * option P)).

Lemma loc_label_at gt i :
  NoDup (index gt) → i ∈ index gt → loc gt i = [(i, label_at gt i)].
Proof.
  intros Hnd Hi. unfold index in Hi. apply list_elem_of_fmap in Hi as [[j v] [-> Hr]].
  cbn. unfold label_at. by rewrite (loc_NoDup gt j v).
Qed.

Lemma getitem_aligned gt ids :
  NoDup (index gt) → ids ⊆ index gt →
  getitem gt ids = Ok ((λ i, (i, label_at gt i)) <$> ids).
Proof.
  intros Hnd Hsub. rewrite getitem_Ok by done. f_equal.
  induction ids as [|i ids IH]; [done|].
  rewrite bind_cons, fmap_cons, IH by (intros j Hj; apply Hsub; by right).
  rewrite loc_label_at; [done..|]. apply Hsub. left.
Qed.

(** A series with distinct line ids is the table of its own lookups. *)
Lemma label_at_index gt :
  NoDup (index gt) → (λ i, (i, label_at gt i)) <$> index gt = gt.
Proof.
  intros Hnd. unfold index. rewrite <-list_fmap_compose.
  transitivity (id <$> gt); [|apply list_fmap_id].
  apply Forall_fmap_ext_1, list.Forall_forall.
  intros [i v] Hr. cbn. unfold label_at. by rewrite (loc_NoDup gt i v).
Qed.

Lemma values_label_at gt ids :
  NoDup (index gt) → ids ≡ₚ index gt → omap (label_at gt) ids ≡ₚ values gt.
Proof.
  intros Hnd Hp. rewrite Hp. unfold values.
  pose proof (label_at_index gt Hnd) as Hgt.
  apply (f_equal (omap snd)) in Hgt. rewrite omap_fmap in Hgt.
  by rewrite <-Hgt.
Qed.

Lemma select_index_subseteq parsed p : index (select parsed p) ⊆ index parsed.
Proof.
  unfold index, select. intros i Hi.
  apply list_elem_of_fmap in Hi as [r [-> Hr]].
  apply list_elem_of_filter in Hr as [_ Hr].
  apply list_elem_of_fmap. by exists r.
Qed.

(** On aligned labelings the look-up of a predicted class never raises,
    and selects one ground-truth line per member. *)
Lemma class_counts_aligned gt parsed p :
  aligned gt parsed →
  class_counts gt parsed p = Ok (class_pairs gt parsed p, class_events gt parsed p).
Proof.
  intros [Hnd Hp]. unfold class_counts.
  rewrite getitem_aligned; [|done|].
  - rewrite bind_Ok. unfold values, class_pairs, class_events.
    rewrite !omap_fmap. unfold class_size at 1 3. unfold size, index.
    by rewrite !length_fmap.
  - intros i Hi. rewrite <-Hp. by eapply select_index_subseteq.
Qed.

Lemma loop_counts_Ok gt parsed ps (A E : P → nat) :
  (∀ p, p ∈ ps → class_counts gt parsed p = Ok (A p, E p)) →
  loop_counts gt parsed ps = Ok (sum_list_with A ps, sum_list_with E ps).
Proof.
  induction ps as [|p ps IH]; intros Hps; [done|].
  cbn [loop_counts sum_list_with]. rewrite Hps by left.
  rewrite IH by (intros q Hq; apply Hps; by right). done.
Qed.

Lemma get_counts_aligned gt parsed debug :
  aligned gt parsed →
  fst <$> get_counts gt parsed debug = Ok (aligned_counts gt parsed).
Proof.
  intros Hal. rewrite get_counts_numeric.
  rewrite (loop_counts_Ok _ _ _ (class_pairs gt parsed) (class_events gt parsed));
    [done|].
  intros p _. by apply class_counts_aligned.
Qed.
End aligned.

(** ** Bounds on the counts *)

Lemma comb_2_mono n m : n ≤ m → comb n 2 ≤ comb m 2.
Proof.
  induction 1 as [|m _ IH]; [done|]. rewrite comb_S_2. lia.
Qed.

Section bounds.
Context {Id G P : Type} `{EqDecision Id, EqDecision G, EqDecision P}.
Implicit Types (gt : list (Id * option G)) (parsed : list (Id * option P)).

Lemma class_size_count parsed p : class_size parsed p = count_of p (values parsed).
Proof.
  unfold class_size, size, select, values, count_of.
  induction parsed as [|[i [q|]] parsed IH]; [done|..].
  - rewrite filter_cons. cbn [omap list_omap snd]. rewrite filter_cons.
    destruct (decide (q = p)) as [->|Hne].
    + rewrite decide_True by done. cbn [length]. by rewrite IH.
    + rewrite decide_False by (cbn; congruence). done.
  - rewrite filter_cons_False by done. done.
Qed.

Lemma length_values_le parsed : length (values parsed) ≤ length parsed.
Proof.
  unfold values. induction parsed as [|[i [q|]] parsed IH]; cbn; lia.
Qed.

Lemma count_of_omap_filter {A} (f : A → option G) (Q : A → Prop)
    `{∀ x, Decision (Q x)} g (l : list A) :
  count_of g (omap f (filter Q l)) ≤ count_of g (omap f l).
Proof.
  induction l as [|x l IH]; [done|]. rewrite filter_cons.
  destruct (decide (Q x)); cbn [omap list_omap]; destruct (f x);
    rewrite ?count_of_cons; lia.
Qed.

(** Splitting a list in two never creates pairs. *)
Lemma same_pairs_split {A} (f : A → option G) (Q : A → Prop)
    `{∀ x, Decision (Q x)} (l : list A) :
  same_pairs (omap f (filter Q l)) + same_pairs (omap f (filter (λ x, ¬ Q x) l))
  ≤ same_pairs (omap f l).
Proof.
  induction l as [|x l IH]; [done|]. rewrite !filter_cons.
  destruct (decide (Q x)).
  - rewrite decide_False by tauto. cbn [omap list_omap].
    destruct (f x) as [g|]; [|done]. cbn [same_pairs].
    pose proof (count_of_omap_filter f Q g l). lia.
  - rewrite decide_True by done. cbn [omap list_omap].
    destruct (f x) as [g|]; [|done]. cbn [same_pairs].
    pose proof (count_of_omap_filter f (λ x, ¬ Q x) g l). lia.
Qed.

Lemma select_filter_ne parsed p q :
  q ≠ p → select (filter (λ r, r.2 ≠ Some p) parsed) q = select parsed q.
Proof.
  intros Hne. unfold select. rewrite list_filter_filter.
  apply list_filter_iff. intros r. split; [tauto|].
  intros ->. split; [done|]. congruence.
Qed.

(** The pairs found inside distinct predicted classes are distinct pairs
    of the whole. *)
Lemma sum_select_pairs (h : Id → option G) ps parsed :
  NoDup ps →
  sum_list_with (λ p, same_pairs (omap (λ r, h r.1) (select parsed p))) ps
  ≤ same_pairs (omap (λ r, h r.1) parsed).
Proof.
  intros Hnd. revert parsed.
  induction Hnd as [|p ps Hp Hnd IH]; intros parsed; cbn [sum_list_with]; [lia|].
  pose proof (same_pairs_split (λ r : Id * option P, h r.1)
                (λ r, r.2 = Some p) parsed) as Hsplit.
  specialize (IH (filter (λ r, r.2 ≠ Some p) parsed)).
  rewrite (sum_list_with_ext_in _
    (λ q, same_pairs (omap (λ r, h r.1) (select parsed q)))) in IH.
  - unfold select at 1. lia.
  - intros q Hq. rewrite select_filter_ne; [done|]. by intros ->.
Qed.

Lemma sum_count_of_le (ps : list P) (vs : list P) :
  NoDup ps → sum_list_with (λ p, count_of p vs) ps ≤ length vs.
Proof.
  intros Hnd. induction vs as [|v vs IH].
  - rewrite (sum_list_with_ext_in _ (λ _, 0)) by done.
    by rewrite sum_list_with_zero.
  - cbn [length].
    rewrite (sum_list_with_ext_in _
      (λ p, (if decide (p = v) then 1 else 0) + count_of p vs)).
    + rewrite sum_list_with_add.
      rewrite (sum_filter_split _ (λ p, p = v)), sum_filter_eq by done.
      rewrite (sum_list_with_ext_in _ (λ _, 0) (filter _ ps)).
      * rewrite sum_list_with_zero. case_decide.
        -- rewrite decide_True by done. lia.
        -- lia.
      * intros p Hp. apply list_elem_of_filter in Hp as [Hp _].
        by rewrite decide_False.
    + intros p _. rewrite count_of_cons.
      destruct (decide (v = p)) as [->|]; [by rewrite decide_True|].
      by rewrite decide_False by congruence.
Qed.
End bounds.

(** ** The scores of aligned labelings *)

Section scores.
Context {Id G P : Type} `{EqDecision Id, EqDecision G, EqDecision P}.
Implicit Types (gt : list (Id * option G)) (parsed : list (Id * option P)).

Lemma class_pairs_select gt parsed p :
  class_pairs gt parsed p
  = same_pairs (omap (λ r : Id * option P, label_at gt r.1) (select parsed p)).
Proof. unfold class_pairs, index. by rewrite omap_fmap. Qed.

Lemma class_pairs_le_comb gt parsed p :
  class_pairs gt parsed p ≤ comb (count_of p (values parsed)) 2.
Proof.
  rewrite class_pairs_select, <-class_size_count.
  etrans; [apply same_pairs_le_comb|]. apply comb_2_mono.
  unfold class_size, size. generalize (select parsed p). intros l.
  induction l as [|r l IH]; [done|]. cbn [omap list_omap].
  destruct (label_at gt r.1); cbn [length]; lia.
Qed.

Lemma class_events_le gt parsed p :
  class_events gt parsed p ≤ count_of p (values parsed).
Proof.
  unfold class_events. rewrite <-class_size_count.
  destruct (unique _) as [|g [|g' l]]; [lia| |lia]. case_decide; lia.
Qed.

Lemma aligned_length gt parsed : aligned gt parsed → length parsed = length gt.
Proof.
  intros [_ Hp]. apply Permutation_length in Hp. unfold index in Hp.
  by rewrite !length_fmap in Hp.
Qed.

(** On aligned labelings the jointly grouped pairs are among the pairs
    of either labeling, and the exactly recovered lines among all lines. *)
Lemma aligned_counts_bounds gt parsed :
  aligned gt parsed →
  accurate_pairs (aligned_counts gt parsed) ≤ parsed_pairs (aligned_counts gt parsed)
  ∧ accurate_pairs (aligned_counts gt parsed) ≤ real_pairs (aligned_counts gt parsed)
  ∧ accurate_events (aligned_counts gt parsed)
    ≤ groundtruth_size (aligned_counts gt parsed).
Proof.
  intros Hal. pose proof Hal as [Hnd Hp]. cbn. repeat split.
  - rewrite <-(same_pairs_unique (values parsed)).
    apply sum_list_with_le. intros p _. apply class_pairs_le_comb.
  - rewrite (sum_list_with_ext_in _ _ _ (λ p _, class_pairs_select gt parsed p)).
    etrans; [apply sum_select_pairs, NoDup_unique|].
    rewrite <-(omap_fmap (label_at gt) fst parsed).
    by rewrite (same_pairs_perm _ _ (values_label_at gt _ Hnd Hp)).
  - etrans; [apply sum_list_with_le; intros p _; apply class_events_le|].
    etrans; [apply sum_count_of_le, NoDup_unique|].
    etrans; [apply length_values_le|]. by rewrite (aligned_length gt parsed).
Qed.

Lemma get_accuracy_numeric gt parsed debug :
  fst <$> get_accuracy gt parsed debug
  = (fst <$> get_counts gt parsed debug) ≫= ratios.
Proof.
  unfold get_accuracy. destruct (get_counts gt parsed debug) as [[c out]|]; [|done].
  cbn. by destruct (ratios c).
Qed.

Lemma get_accuracy_aligned gt parsed debug :
  aligned gt parsed →
  fst <$> get_accuracy gt parsed debug
  = Ok (scores_of_counts (aligned_counts gt parsed)).
Proof.
  intros Hal. rewrite get_accuracy_numeric, get_counts_aligned by done.
  apply ratios_Ok.
Qed.


End scores.

Lemma scenario_B_aligned : aligned scenario_groundtruth scenario_B_predicted.
Proof.
  split; [|reflexivity]. apply (bool_decide_unpack _). vm_compute. exact I.
Defined.


(** C5. Scenario B of the specification: on the lines 1 to 5 with
    ground-truth labels X,X,X,Y,Y and predicted labels A,A,B,B,B the counts
    are real_pairs = 4, predicted_pairs = 4, accurate_pairs = 2 and
    accurate_events = 0, and the returned scores are precision = 0.5,
    recall = 0.5, f_measure = 0.5 and accuracy = 0. *)
Theorem scenario_B_scores :
  fst <$> get_counts scenario_groundtruth scenario_B_predicted false
    = Ok (Counts 4 4 2 0 5)
  ∧ ∃ s out,
      get_accuracy scenario_groundtruth scenario_B_predicted false = Ok (s, out)
      ∧ scores_eq s (Scores (1 # 2) (1 # 2) (1 # 2) 0).
Proof.
  split; [by vm_compute|].
  eexists _, _. split; [by vm_compute|]. by vm_compute.
Qed.

Section purity.
Context {Id G P : Type} `{EqDecision Id, EqDecision G, EqDecision P}.
Implicit Types (gt : list (Id * option G)) (parsed : list (Id * option P)).

Lemma get_accuracy_pure gt parsed debug :
  fst <$> get_accuracy gt parsed debug = pure_scores gt parsed.
Proof.
  rewrite get_accuracy_numeric, get_counts_numeric. unfold pure_scores.
  by destruct (loop_counts gt parsed _).
Qed.

(** The only exception [get_accuracy] can raise is the [KeyError] of a
    predicted line id that the ground truth does not have. *)
Lemma get_accuracy_error gt parsed debug e :
  get_accuracy gt parsed debug = Raise e → e = KeyError.
Proof.
  intros He. pose proof (get_accuracy_pure gt parsed debug) as Hs.
  rewrite He in Hs. unfold pure_scores in Hs.
  destruct (loop_counts gt parsed _) as [x|e'] eqn:Hl.
  - by rewrite bind_Ok, ratios_Ok in Hs.
  - apply loop_counts_error in Hl as ->. by injection Hs.
Qed.

(** C8. The tuple returned by [get_accuracy] with [debug=True] is the
    tuple returned with [debug=False], and with either flag it is one
    and the same function of the two labelings: the diagnostic output
    has no influence on the numeric result. *)
Theorem debug_leaves_scores_unchanged gt parsed :
  fst <$> get_accuracy gt parsed true = fst <$> get_accuracy gt parsed false
  ∧ ∀ debug, fst <$> get_accuracy gt parsed debug = pure_scores gt parsed.
Proof.
  split; [by rewrite !get_accuracy_pure|]. intros. apply get_accuracy_pure.
Qed.
End purity.

(** In scenario B the debug branch prints a line for each of the two
    predicted classes, most frequent class first. *)
Example scenario_B_debug_output :
  snd <$> get_accuracy scenario_groundtruth scenario_B_predicted true
  = Ok [("B", ["Y"; "X"], 3); ("A", ["X"], 2)]%string
  ∧ snd <$> get_accuracy scenario_groundtruth scenario_B_predicted false = Ok [].
Proof. split; by vm_compute. Qed.

(** ** Renaming labels *)

Lemma filter_fmap {A B : Type} (f : A → B) (Q : B → Prop) `{∀ y, Decision (Q y)}
    (l : list A) :
  filter Q (f <$> l) = f <$> filter (λ x, Q (f x)) l.
Proof.
  induction l as [|x l IH]; [done|]. rewrite fmap_cons, !filter_cons, IH.
  by destruct (decide (Q (f x))).
Qed.

Section rename_values.
Context {L L' : Type} `{EqDecision L, EqDecision L'}.
Context (f : L → L') `{!Inj (=) (=) f}.

Lemma count_of_fmap v (vs : list L) : count_of (f v) (f <$> vs) = count_of v vs.
Proof.
  unfold count_of. rewrite filter_fmap, length_fmap. f_equal.
  apply list_filter_iff. intros w. split; [apply (inj f)|congruence].
Qed.

Lemma unique_fmap (vs : list L) : unique (f <$> vs) = f <$> unique vs.
Proof.
  induction vs as [|v vs IH]; [done|]. rewrite fmap_cons. cbn [unique].
  rewrite IH, filter_fmap, fmap_cons. do 2 f_equal.
  apply list_filter_iff. intros w. split; [congruence|].
  intros Hne Heq. by apply Hne, (inj f).
Qed.

Lemma same_pairs_fmap (vs : list L) : same_pairs (f <$> vs) = same_pairs vs.
Proof.
  induction vs as [|v vs IH]; [done|]. rewrite fmap_cons. cbn [same_pairs].
  by rewrite IH, count_of_fmap.
Qed.

Lemma values_rename {Id} (s : list (Id * option L)) :
  values (rename f s) = f <$> values s.
Proof.
  unfold values, rename. rewrite omap_fmap.
  induction s as [|[i [v|]] s IH]; [done|..]; cbn [omap list_omap]; cbn.
  - by rewrite <-IH.
  - done.
Qed.

Lemma index_rename {Id} (s : list (Id * option L)) : index (rename f s) = index s.
Proof. unfold index, rename. by rewrite <-list_fmap_compose. Qed.

Lemma size_rename {Id} (s : list (Id * option L)) : size (rename f s) = size s.
Proof. apply length_fmap. Qed.

Lemma select_rename {Id} (s : list (Id * option L)) v :
  select (rename f s) (f v) = rename f (select s v).
Proof.
  unfold select, rename. rewrite filter_fmap. f_equal.
  apply list_filter_iff. intros [i [w|]]; cbn; split; try done.
  - intros [= Hw]. by apply (inj f) in Hw as ->.
  - by intros [= ->].
Qed.

Lemma class_size_rename {Id} (s : list (Id * option L)) v :
  class_size (rename f s) (f v) = class_size s v.
Proof. unfold class_size. by rewrite select_rename, size_rename. Qed.

Lemma loc_rename {Id} `{EqDecision Id} (s : list (Id * option L)) i :
  loc (rename f s) i = rename f (loc s i).
Proof. unfold loc, rename. by rewrite filter_fmap. Qed.

Lemma getitem_rename {Id} `{EqDecision Id} (s : list (Id * option L)) ids :
  getitem (rename f s) ids = rename f <$> getitem s ids.
Proof.
  induction ids as [|i ids IH]; [done|]. cbn [getitem].
  rewrite loc_rename, IH. destruct (loc s i) as [|r rs]; [done|].
  destruct (getitem s ids) as [rest|]; [|done]. cbn.
  unfold rename. by rewrite fmap_app.
Qed.
End rename_values.

Section rename.
Context {Id G P G' P' : Type}.
Context `{EqDecision Id, EqDecision G, EqDecision P, EqDecision G', EqDecision P'}.
Context (f : G → G') (g : P → P') `{!Inj (=) (=) f, !Inj (=) (=) g}.
Implicit Types (gt : list (Id * option G)) (parsed : list (Id * option P)).

Lemma class_counts_rename gt parsed p :
  class_counts (rename f gt) (rename g parsed) (g p) = class_counts gt parsed p.
Proof.
  unfold class_counts. rewrite (select_rename g), index_rename, getitem_rename.
  destruct (getitem gt _) as [sel|]; [|done]. cbn.
  rewrite (values_rename f), (same_pairs_fmap f), (unique_fmap f).
  destruct (unique (values sel)) as [|g0 [|g1 l]]; [done| |done].
  cbn. by rewrite (class_size_rename f).
Qed.

Lemma loop_counts_rename gt parsed ps :
  loop_counts (rename f gt) (rename g parsed) (g <$> ps) = loop_counts gt parsed ps.
Proof.
  induction ps as [|p ps IH]; [done|]. rewrite fmap_cons. cbn [loop_counts].
  by rewrite class_counts_rename, IH.
Qed.

Lemma pure_scores_rename gt parsed :
  pure_scores (rename f gt) (rename g parsed) = pure_scores gt parsed.
Proof.
  unfold pure_scores.
  rewrite (values_rename g), (unique_fmap g), loop_counts_rename.
  by rewrite (values_rename f), (same_pairs_fmap f), (same_pairs_fmap g),
    size_rename.
Qed.

End rename.

Lemma filter_none {A : Type} (Q : A → Prop) `{∀ x, Decision (Q x)} (l : list A) :
  Forall (λ x, ¬ Q x) l → filter Q l = [].
Proof.
  induction 1 as [|x l Hx _ IH]; [done|]. by rewrite filter_cons_False.
Qed.

Section unique_facts.
Context {L : Type} `{EqDecision L}.

Lemma unique_const (g : L) vs :
  vs ≠ [] → Forall (λ w, w = g) vs → unique vs = [g].
Proof.
  intros Hne Hall. destruct Hall as [|w vs -> Hall]; [done|]. cbn [unique].
  f_equal. apply filter_none. apply list.Forall_forall. intros w Hw.
  apply (proj1 (elem_of_unique _ _)) in Hw.
  rewrite list.Forall_forall in Hall. rewrite (Hall w Hw). tauto.
Qed.

Lemma unique_singleton (g : L) vs : unique vs = [g] → Forall (λ w, w = g) vs.
Proof.
  intros Hu. apply list.Forall_forall. intros w Hw.
  apply (proj2 (elem_of_unique _ _)) in Hw. rewrite Hu in Hw.
  by apply list_elem_of_singleton in Hw.
Qed.

Lemma sum_list_with_filter (F : L → nat) (Q : L → Prop) `{∀ x, Decision (Q x)} ls :
  sum_list_with (λ v, if decide (Q v) then F v else 0) ls
  = sum_list_with F (filter Q ls).
Proof.
  induction ls as [|v ls IH]; [done|]. rewrite filter_cons.
  cbn [sum_list_with]. rewrite IH. by destruct (decide (Q v)).
Qed.

Lemma comb_count_le_same_pairs (v : L) vs : comb (count_of v vs) 2 ≤ same_pairs vs.
Proof.
  induction vs as [|w vs IH]; [done|]. rewrite count_of_cons. cbn [same_pairs].
  destruct (decide (w = v)) as [->|]; [|cbn; lia].
  change (1 + count_of v vs) with (S (count_of v vs)). rewrite comb_S_2. lia.
Qed.

Lemma sum_count_of_unique (vs : list L) :
  sum_list_with (λ v, count_of v vs) (unique vs) = length vs.
Proof.
  induction vs as [|v vs IH]; [done|]. cbn [unique sum_list_with length].
  rewrite count_of_cons, decide_True by done.
  rewrite (sum_list_with_ext_in _ (λ w, count_of w vs) (filter _ _)).
  - rewrite <-IH.
    rewrite (sum_filter_split (λ w, count_of w vs) (λ w, w = v) (unique vs)).
    rewrite sum_filter_eq by apply NoDup_unique.
    case_decide as Hin; [lia|].
    rewrite elem_of_unique in Hin. rewrite (count_of_zero v vs Hin). lia.
  - intros w Hw. apply list_elem_of_filter in Hw as [Hw _].
    rewrite count_of_cons. by rewrite decide_False by congruence.
Qed.
End unique_facts.

Section exact_match_facts.
Context {Id G P : Type} `{EqDecision Id, EqDecision G, EqDecision P}.
Implicit Types (gt : list (Id * option G)) (parsed : list (Id * option P)).

Lemma label_at_elem_of gt i :
  NoDup (index gt) → i ∈ index gt → (i, label_at gt i) ∈ gt.
Proof.
  intros Hnd Hi. pose proof (loc_label_at gt i Hnd Hi) as Hloc.
  assert ((i, label_at gt i) ∈ loc gt i) as Hin by (rewrite Hloc; left).
  by apply loc_in in Hin as [? _].
Qed.

Lemma label_at_labelled gt i :
  NoDup (index gt) → labelled gt → i ∈ index gt → is_Some (label_at gt i).
Proof.
  intros Hnd Hlab Hi. pose proof (label_at_elem_of gt i Hnd Hi) as Hin.
  unfold labelled in Hlab. rewrite list.Forall_forall in Hlab.
  specialize (Hlab _ Hin). cbn in Hlab. by destruct (label_at gt i).
Qed.

Lemma label_at_values gt i g :
  NoDup (index gt) → i ∈ index gt → label_at gt i = Some g → g ∈ values gt.
Proof.
  intros Hnd Hi Hg. pose proof (label_at_elem_of gt i Hnd Hi) as Hin.
  unfold values. apply list_elem_of_omap. exists (i, label_at gt i).
  by rewrite Hg in *.
Qed.

Lemma omap_const {A} (h : A → option G) g (l : list A) :
  Forall (λ x, h x = Some g) l →
  Forall (λ w, w = g) (omap h l) ∧ length (omap h l) = length l.
Proof.
  induction 1 as [|x l Hx _ [IH1 IH2]]; [done|]. cbn [omap list_omap].
  rewrite Hx. cbn [length]. split; [by constructor|by rewrite IH2].
Qed.

Lemma select_nonempty parsed p : p ∈ values parsed → select parsed p ≠ [].
Proof.
  unfold values. intros Hp Hnil. apply list_elem_of_omap in Hp as [r [Hr Hp]].
  assert (r ∈ select parsed p) as Hin by (by apply list_elem_of_filter).
  rewrite Hnil in Hin. by apply elem_of_nil in Hin.
Qed.

(** What the code adds to [accurate_events] for a predicted class is its
    member count exactly when the class is an exact match. *)
Lemma class_events_exact_match gt parsed p :
  aligned gt parsed → labelled gt → p ∈ values parsed →
  class_events gt parsed p
  = if decide (exact_match gt parsed p) then class_size parsed p else 0.
Proof.
  intros [Hnd Hperm] Hlab Hp.
  assert (index (select parsed p) ⊆ index gt) as Hsub.
  { intros i Hi. rewrite <-Hperm. by eapply select_index_subseteq. }
  unfold class_events. destruct (decide (exact_match gt parsed p)) as [Hex|Hex].
  - apply list.Exists_exists in Hex as (g & _ & Hall & Hsize).
    destruct (omap_const _ _ _ Hall) as [Hgs Hlen].
    rewrite (unique_const g), decide_True; [done..| |done].
    intros Hnil. rewrite Hnil in Hlen. cbn in Hlen.
    unfold index in Hlen. rewrite length_fmap in Hlen.
    apply (select_nonempty parsed p Hp). by apply nil_length_inv.
  - destruct (unique _) as [|g [|g' l]] eqn:Hu; [done| |done].
    case_decide as Hsize; [|done]. destruct Hex.
    pose proof (unique_singleton _ _ Hu) as Hgs.
    rewrite list.Forall_forall in Hgs.
    assert (∀ i, i ∈ index (select parsed p) → label_at gt i = Some g) as Hall.
    { intros i Hi. destruct (label_at_labelled gt i Hnd Hlab (Hsub i Hi)) as [g' Hg'].
      rewrite Hg'. f_equal. apply Hgs. apply list_elem_of_omap. by exists i. }
    apply list.Exists_exists. exists g. split; [|split; [|done]].
    + assert (g ∈ unique (omap (label_at gt) (index (select parsed p)))) as Hg
        by (rewrite Hu; left).
      apply elem_of_unique, list_elem_of_omap in Hg as (i & Hi & Hgi).
      apply elem_of_unique. by apply (label_at_values gt i g Hnd (Hsub i Hi)).
    + by apply list.Forall_forall.
Qed.

(** C3. On aligned labelings whose ground truth carries no null label,
    [accurate_events] is the sum of the member counts of exactly those
    predicted classes whose members all carry one single ground-truth
    label and whose size is the number of lines with that label; it is
    therefore at most the number of ground-truth lines. *)
Theorem accurate_events_exact_matches gt parsed debug :
  aligned gt parsed → labelled gt →
  ∃ c out, get_counts gt parsed debug = Ok (c, out)
    ∧ accurate_events c = exact_match_events gt parsed
    ∧ accurate_events c ≤ size gt.
Proof.
  intros Hal Hlab. pose proof (get_counts_aligned gt parsed debug Hal) as Hc.
  destruct (get_counts gt parsed debug) as [[c out]|]; [|done].
  injection Hc as ->. eexists _, _. split; [done|]. split.
  - cbn. unfold exact_match_events. rewrite <-sum_list_with_filter.
    apply sum_list_with_ext_in. intros p Hp.
    apply class_events_exact_match; [done..|]. by apply elem_of_unique.
  - by destruct (aligned_counts_bounds gt parsed Hal) as (_ & _ & ?).
Qed.
End exact_match_facts.

(** ** A labeling scored against itself *)

Lemma ratio_self n : n ≠ 0 → (ratio n n == 1)%Q.
Proof.
  intros Hn. unfold ratio. rewrite decide_True by done.
  pose proof (Qnat_pos n Hn). unfold Qdiv. apply Qmult_inv_r. lra.
Qed.

Lemma harmonic_one p r : (p == 1)%Q → (r == 1)%Q → (harmonic p r == 1)%Q.
Proof.
  intros Hp Hr. unfold harmonic. destruct (Qeq_bool (p + r) 0) eqn:E; cbn.
  - apply Qeq_bool_eq in E. lra.
  - rewrite Hp, Hr. reflexivity.
Qed.

Section self.
Context {Id L : Type} `{EqDecision Id, EqDecision L}.
Implicit Types (s : list (Id * option L)).

Lemma aligned_self s : NoDup (index s) → aligned s s.
Proof. by split. Qed.

Lemma label_at_select s p i :
  NoDup (index s) → i ∈ index (select s p) → label_at s i = Some p.
Proof.
  intros Hnd Hi. unfold index in Hi. apply list_elem_of_fmap in Hi as [[j v] [-> Hr]].
  apply list_elem_of_filter in Hr as [Hv Hr]. cbn in Hv. subst v.
  unfold label_at. by rewrite (loc_NoDup s j (Some p)).
Qed.

Lemma class_pairs_self s p :
  NoDup (index s) → class_pairs s s p = comb (count_of p (values s)) 2.
Proof.
  intros Hnd. unfold class_pairs.
  destruct (omap_const (label_at s) p (index (select s p))) as [Hall Hlen].
  { apply list.Forall_forall. intros i Hi. by apply label_at_select. }
  rewrite (same_pairs_const p) by done. rewrite Hlen, <-class_size_count.
  unfold class_size, size, index. by rewrite length_fmap.
Qed.

Lemma class_events_self s p :
  NoDup (index s) → p ∈ values s → class_events s s p = count_of p (values s).
Proof.
  intros Hnd Hp. unfold class_events.
  destruct (omap_const (label_at s) p (index (select s p))) as [Hall Hlen].
  { apply list.Forall_forall. intros i Hi. by apply label_at_select. }
  rewrite (unique_const p), decide_True, class_size_count; [done|done| |done].
  intros Hnil. rewrite Hnil in Hlen. unfold index in Hlen.
  rewrite length_fmap in Hlen. cbn in Hlen.
  apply (select_nonempty s p Hp). by apply nil_length_inv.
Qed.

Lemma length_values_labelled s : labelled s → length (values s) = length s.
Proof.
  unfold values. induction 1 as [|[i [v|]] s Hr _ IH]; [done| |done].
  cbn. by rewrite IH.
Qed.

Lemma aligned_counts_self s :
  NoDup (index s) → labelled s →
  aligned_counts s s
  = Counts (same_pairs (values s)) (same_pairs (values s))
           (same_pairs (values s)) (size s) (size s).
Proof.
  intros Hnd Hlab. unfold aligned_counts. f_equal.
  - rewrite <-(same_pairs_unique (values s)).
    apply sum_list_with_ext_in. intros p _. by apply class_pairs_self.
  - unfold size. rewrite <-(length_values_labelled s Hlab).
    rewrite <-(sum_count_of_unique (values s)).
    apply sum_list_with_ext_in. intros p Hp.
    apply class_events_self; [done|]. by apply elem_of_unique.
Qed.

(** C2, amended. A labeling with distinct line ids and no null label in
    which some label is carried by at least two lines, scored against
    itself, gets precision = recall = f_measure = accuracy = 1. *)
Theorem identical_labelings_score_one s debug v :
  NoDup (index s) → labelled s → 2 ≤ class_size s v →
  ∃ sc out, get_accuracy s s debug = Ok (sc, out)
    ∧ scores_eq sc (Scores 1 1 1 1).
Proof.
  intros Hnd Hlab Hv.
  pose proof (get_accuracy_aligned s s debug (aligned_self s Hnd)) as Hs.
  destruct (get_accuracy s s debug) as [[sc out]|]; [|done].
  injection Hs as ->. eexists _, _. split; [done|].
  rewrite aligned_counts_self by done.
  assert (same_pairs (values s) ≠ 0) as Hpairs.
  { pose proof (comb_count_le_same_pairs v (values s)) as Hle.
    rewrite <-class_size_count in Hle.
    pose proof (comb_2_mono _ _ Hv) as Hc. cbn in Hc. lia. }
  assert (size s ≠ 0) as Hsize.
  { unfold class_size, size, select in *.
    pose proof (length_filter (λ r : Id * option L, r.2 = Some v) s). lia. }
  unfold scores_eq, scores_of_counts. cbn.
  pose proof (ratio_self _ Hpairs). pose proof (ratio_self _ Hsize).
  split_and!; [done|done|by apply harmonic_one|done].
Qed.
End self.

(** Counterexample to C2 without the shared label: a labeling whose labels
    are all distinct, scored against itself, has no pairs at all, and the
    zero-denominator guards return precision = recall = f_measure = 0
    (accuracy is 1). *)
Lemma identical_labelings_without_pairs :
  ∃ sc out, get_accuracy distinct_labels distinct_labels false = Ok (sc, out)
    ∧ scores_eq sc (Scores 0 0 0 1) ∧ ¬ scores_eq sc (Scores 1 1 1 1).
Proof.
  eexists _, _. split; [by vm_compute|]. split; [by vm_compute|].
  intros [Hp _]. vm_compute in Hp. done.
Qed.

Lemma identical_labelings_score_one_witness :
  NoDup (index scenario_groundtruth) ∧ labelled scenario_groundtruth
  ∧ 2 ≤ class_size scenario_groundtruth "X"%string
  ∧ ∃ sc out, get_accuracy scenario_groundtruth scenario_groundtruth true = Ok (sc, out)
      ∧ scores_eq sc (Scores 1 1 1 1).
Proof.
  assert (NoDup (index scenario_groundtruth)) as Hnd
    by (apply (bool_decide_unpack _); vm_compute; exact I).
  assert (labelled scenario_groundtruth) as Hlab
    by (apply (bool_decide_unpack _); vm_compute; exact I).
  assert (2 ≤ class_size scenario_groundtruth "X"%string) as Hv
    by (vm_compute; lia).
  split_and!; [done..|].
  exact (identical_labelings_score_one scenario_groundtruth true "X"%string Hnd Hlab Hv).
Defined.

Lemma scenario_A_aligned : aligned scenario_groundtruth scenario_A_predicted.
Proof.
  split; [|reflexivity]. apply (bool_decide_unpack _). vm_compute. exact I.
Defined.

Lemma scenario_groundtruth_labelled : labelled scenario_groundtruth.
Proof. apply (bool_decide_unpack _). vm_compute. exact I. Defined.

Lemma accurate_events_exact_matches_witness :
  aligned scenario_groundtruth scenario_A_predicted
  ∧ labelled scenario_groundtruth
  ∧ ∃ c out, get_counts scenario_groundtruth scenario_A_predicted true = Ok (c, out)
      ∧ accurate_events c = exact_match_events scenario_groundtruth scenario_A_predicted
      ∧ accurate_events c ≤ size scenario_groundtruth.
Proof.
  split; [exact scenario_A_aligned|]. split; [exact scenario_groundtruth_labelled|].
  exact (accurate_events_exact_matches _ _ true scenario_A_aligned
           scenario_groundtruth_labelled).
Defined.

Lemma prefix_inj (pre : string) : Inj (=) (=) (String.append pre).
Proof.
  intros x y. induction pre as [|c pre IH]; [done|]. cbn. intros [= ?]. by apply IH.
Defined.



Lemma ratio_nonneg a b : (0 <= ratio a b)%Q.
Proof.
  unfold ratio. case_decide as Hb; [|lra].
  pose proof (Qnat_pos b Hb). pose proof (Qnat_nonneg a).
  apply Qle_shift_div_l; [done|]. lra.
Qed.



Section null_predictions.
Context {Id G P : Type} `{EqDecision Id, EqDecision G, EqDecision P}.
Implicit Types (gt : list (Id * option G)) (parsed : list (Id * option P)).








Lemma NoDup_index_filter {V} (Q : Id * V → Prop) `{∀ r, Decision (Q r)}
    (s : list (Id * V)) :
  NoDup (index s) → NoDup (index (filter Q s)).
Proof.
  intros Hnd. eapply sublist_NoDup; [done|]. unfold index.
  apply fmap_sublist, sublist_filter.
Qed.









End null_predictions.

(** ** Tables *)

Lemma position_Ok name cols :
  name ∈ cols → ∃ k, position name cols = Ok k ∧ cols !! k = Some name.
Proof.
  intros Hin. unfold position.
  destruct (list_find_elem_of (λ c, c = name) cols name Hin eq_refl) as [[k c] Hk].
  rewrite Hk. exists k. split; [done|].
  apply list_find_Some in Hk as (Hk & -> & _). done.
Qed.

Lemma position_Raise name cols : name ∉ cols → position name cols = Raise KeyError.
Proof.
  intros Hnot. unfold position.
  destruct (list_find _ cols) as [[k c]|] eqn:Hk; [|done].
  apply list_find_Some in Hk as (Hk & -> & _).
  destruct Hnot. by eapply list_elem_of_lookup_2.
Qed.

Lemma position_error name cols e : position name cols = Raise e → e = KeyError.
Proof. unfold position. destruct (list_find _ cols) as [[k c]|]; congruence. Qed.

Lemma elem_of_delete_ne {A} (l : list A) k x y :
  x ∈ l → l !! k = Some y → x ≠ y → x ∈ delete k l.
Proof.
  intros Hx Hk Hne. apply list_elem_of_lookup in Hx as [j Hj].
  destruct (decide (j < k)) as [Hlt|Hge].
  - apply (list_elem_of_lookup_2 _ j). by rewrite list_lookup_delete_lt.
  - assert (j ≠ k) by (intros ->; congruence).
    apply (list_elem_of_lookup_2 _ (j - 1)).
    rewrite list_lookup_delete_ge by lia. by replace (S (j - 1)) with j by lia.
Qed.

Lemma event_series_Ok df :
  LineId ∈ columns df → EventId ∈ columns df → ∃ s, event_series df = Ok s.
Proof.
  intros HL HE. destruct (position_Ok _ _ HL) as (k & Hpos & Hk).
  destruct (position_Ok EventId (delete k (columns df))) as (k' & Hpos' & _).
  { by apply (elem_of_delete_ne _ _ _ LineId). }
  eexists. unfold event_series, set_index. rewrite Hpos, !bind_Ok.
  unfold getcol. cbn [icolumns irows]. by rewrite Hpos', bind_Ok.
Qed.

Lemma event_series_Raise df :
  LineId ∈ columns df → EventId ∉ columns df → event_series df = Raise KeyError.
Proof.
  intros HL HE. unfold event_series, set_index.
  destruct (position_Ok _ _ HL) as (k & -> & Hk). rewrite !bind_Ok.
  unfold getcol. cbn [icolumns irows]. rewrite position_Raise; [done|].
  intros Hin. apply HE. apply list_elem_of_lookup in Hin as [j Hj].
  destruct (decide (j < k)).
  - rewrite list_lookup_delete_lt in Hj by done. by eapply list_elem_of_lookup_2.
  - rewrite list_lookup_delete_ge in Hj by lia. by eapply list_elem_of_lookup_2.
Qed.

(** Taking a column of a table commutes with selecting rows by index. *)
Section column.
Context {Id V W : Type} `{EqDecision Id}.
Context (h : Id * V → Id * W) (Hh : ∀ r, (h r).1 = r.1).

Lemma index_column (s : list (Id * V)) : index (h <$> s) = index s.
Proof.
  unfold index. rewrite <-list_fmap_compose.
  apply Forall_fmap_ext_1, list.Forall_forall. intros r _. apply Hh.
Qed.

Lemma loc_column (s : list (Id * V)) i : loc (h <$> s) i = h <$> loc s i.
Proof.
  unfold loc. rewrite filter_fmap. f_equal. apply list_filter_iff.
  intros r. by rewrite Hh.
Qed.

Lemma bind_loc_column (s : list (Id * V)) ids :
  ids ≫= loc (h <$> s) = h <$> (ids ≫= loc s).
Proof.
  induction ids as [|i ids IH]; [done|].
  by rewrite !bind_cons, fmap_app, IH, loc_column.
Qed.
End column.

Lemma elem_of_intersection_cells (idx other : list cell) i :
  i ∈ intersection idx other ↔ i ∈ idx ∧ i ∈ other.
Proof. unfold intersection. rewrite elem_of_unique, list_elem_of_filter. tauto. Qed.

Lemma align_guard df_groundtruth df_parsedlog :
  LineId ∉ columns df_groundtruth ∨ LineId ∉ columns df_parsedlog →
  align df_groundtruth df_parsedlog = Raise ValueError.
Proof. intros Hmiss. unfold align. by rewrite decide_True. Qed.

(** Past the guard, [align] applies [align_series] to the two [EventId]
    series (and raises [KeyError] when one of them is missing). *)
Lemma align_spec df_groundtruth df_parsedlog :
  LineId ∈ columns df_groundtruth → LineId ∈ columns df_parsedlog →
  align df_groundtruth df_parsedlog
  = (gs ← event_series df_groundtruth;
     ps ← event_series df_parsedlog;
     Ok (align_series gs ps)).
Proof.
  intros Hg Hp. unfold align. rewrite decide_False by tauto.
  destruct (position_Ok _ _ Hg) as (kg & Hkg & _).
  destruct (position_Ok _ _ Hp) as (kp & Hkp & _).
  unfold event_series, set_index. rewrite Hkg, Hkp, !bind_Ok.
  set (gi := {| icolumns := delete kg (columns df_groundtruth); irows := _ |}).
  set (pi := {| icolumns := delete kp (columns df_parsedlog); irows := _ |}).
  unfold dropnull, getcol.
  destruct (position EventId (icolumns gi)) as [k|e] eqn:Ek; [|done].
  rewrite !bind_Ok. unfold frame_loc. cbn [icolumns irows].
  set (gf := filter (λ r : cell * list cell, cell_at k r.2 ≠ None) (irows gi)).
  rewrite (getitem_Ok gf), (getitem_Ok (irows pi)), !bind_Ok.
  - cbn [icolumns irows]. rewrite Ek, !bind_Ok.
    destruct (position EventId (icolumns pi)) as [k'|e] eqn:Ek'; [|done].
    rewrite !bind_Ok. unfold align_series, drop_unlabelled.
    rewrite (filter_fmap _ (λ r : cell * cell, r.2 ≠ None)). cbn [snd fst].
    fold gf. rewrite !index_column, !bind_loc_column by done. done.
  - intros i Hi. by apply elem_of_intersection_cells in Hi as [_ ?].
  - intros i Hi. by apply elem_of_intersection_cells in Hi as [? _].
Qed.

Section returns.
Context {Id G P : Type} `{EqDecision Id, EqDecision G, EqDecision P}.
Implicit Types (gt : list (Id * option G)) (parsed : list (Id * option P)).

Lemma loop_counts_returns gt parsed ps :
  index parsed ⊆ index gt → ∃ x, loop_counts gt parsed ps = Ok x.
Proof.
  intros Hsub. induction ps as [|p ps [y IH]]; [by eexists|].
  cbn [loop_counts]. unfold class_counts. rewrite getitem_Ok.
  - rewrite !bind_Ok, IH, bind_Ok. by eexists.
  - intros i Hi. by eapply Hsub, select_index_subseteq.
Qed.

(** [get_accuracy] returns whenever every predicted line id is a
    ground-truth line id: no look-up fails, no division is by zero. *)
Lemma get_accuracy_returns gt parsed debug :
  index parsed ⊆ index gt → ∃ s out, get_accuracy gt parsed debug = Ok (s, out).
Proof.
  intros Hsub. pose proof (get_accuracy_pure gt parsed debug) as Hs.
  unfold pure_scores in Hs.
  destruct (loop_counts_returns gt parsed (unique (values parsed)) Hsub) as [x Hx].
  rewrite Hx, bind_Ok, ratios_Ok in Hs.
  destruct (get_accuracy gt parsed debug) as [[s out]|]; [|done]. by eexists _, _.
Qed.

Lemma elem_of_index_bind_loc {V} (s : list (Id * V)) ids i :
  ids ⊆ index s → i ∈ index (ids ≫= loc s) ↔ i ∈ ids.
Proof.
  intros Hsub. unfold index. rewrite list_elem_of_fmap. split.
  - intros [r [-> Hr]]. apply list_elem_of_bind in Hr as (j & Hr & Hj).
    by apply loc_in in Hr as [_ ->].
  - intros Hi. pose proof (loc_nonempty s i (Hsub i Hi)) as Hne.
    destruct (loc s i) as [|r rs] eqn:E; [done|].
    assert (r ∈ loc s i) as Hr by (rewrite E; left).
    exists r. split; [by apply loc_in in Hr as [_ ->]|].
    apply list_elem_of_bind. by exists i.
Qed.
End returns.

Lemma align_series_index gs ps :
  let common := intersection (index (drop_unlabelled gs)) (index ps) in
  (∀ i, i ∈ index (align_series gs ps).1 ↔ i ∈ common)
  ∧ (∀ i, i ∈ index (align_series gs ps).2 ↔ i ∈ common).
Proof.
  cbn. split; intros i; apply elem_of_index_bind_loc; intros j Hj;
    apply elem_of_intersection_cells in Hj; tauto.
Qed.



Lemma align_series_empty gs ps :
  (∀ i, i ∈ index (drop_unlabelled gs) → i ∉ index ps) →
  align_series gs ps = ([], []).
Proof.
  intros Hdisj. unfold align_series, intersection.
  rewrite filter_none; [done|]. apply list.Forall_forall. intros i Hi. by apply Hdisj.
Qed.


Lemma event_series_LineId df s : event_series df = Ok s → LineId ∈ columns df.
Proof.
  intros Hs. destruct (decide (LineId ∈ columns df)) as [|Hnot]; [done|].
  unfold event_series, set_index in Hs. by rewrite position_Raise in Hs.
Qed.

Lemma evaluate_unfold df_groundtruth df_parsedlog g p :
  align df_groundtruth df_parsedlog = Ok (g, p) →
  evaluate df_groundtruth df_parsedlog
  = (λ s, (f_measure s, accuracy s)) <$> (fst <$> get_accuracy g p false).
Proof.
  intros Hal. unfold evaluate. rewrite Hal, bind_Ok.
  by destruct (get_accuracy g p false) as [[s out]|].
Qed.

(** ** Properties of [evaluate] *)

(** C6. When no labelled ground-truth line id is a predicted line id, both
    aligned series are empty, [get_accuracy] on them raises nothing and
    returns precision = recall = f_measure = accuracy = 0, and so does
    [evaluate]; for any counts whatsoever the guarded ratios return
    instead of dividing by zero, so that [get_accuracy] never raises
    [ZeroDivisionError]. *)
Theorem empty_intersection_scores_zero df_groundtruth df_parsedlog gs ps debug :
  event_series df_groundtruth = Ok gs → event_series df_parsedlog = Ok ps →
  (∀ i, i ∈ index (drop_unlabelled gs) → i ∉ index ps) →
  align df_groundtruth df_parsedlog = Ok ([], [])
  ∧ get_accuracy (Id:=cell) (G:=value) (P:=value) [] [] debug
    = Ok (Scores 0 0 0 0, [])
  ∧ evaluate df_groundtruth df_parsedlog = Ok (0%Q, 0%Q)
  ∧ (∀ c, ∃ s, ratios c = Ok s)
  ∧ (∀ (gt parsed : list (cell * cell)) flag,
       get_accuracy gt parsed flag ≠ Raise ZeroDivisionError).
Proof.
  intros Hgs Hps Hdisj.
  assert (align df_groundtruth df_parsedlog = Ok ([], [])) as Hal.
  { rewrite align_spec by (by eapply event_series_LineId).
    rewrite Hgs, Hps, !bind_Ok. by rewrite align_series_empty. }
  split_and!; [done|done| | |].
  - by rewrite (evaluate_unfold _ _ _ _ Hal).
  - intros c. rewrite ratios_Ok. by eexists.
  - intros gt parsed flag He. by apply get_accuracy_error in He.
Qed.

Lemma empty_intersection_scores_zero_witness :
  ∃ gs ps,
    event_series table_groundtruth = Ok gs
    ∧ event_series table_parsed_elsewhere = Ok ps
    ∧ (∀ i, i ∈ index (drop_unlabelled gs) → i ∉ index ps)
    ∧ align table_groundtruth table_parsed_elsewhere = Ok ([], [])
    ∧ evaluate table_groundtruth table_parsed_elsewhere = Ok (0%Q, 0%Q).
Proof.
  eexists _, _.
  assert (∀ i : cell,
            i ∈ [Some (VInt 1); Some (VInt 2); Some (VInt 4)] →
            i ∉ [Some (VInt 10); Some (VInt 11)]) as Hdisj.
  { apply list.Forall_forall. by apply (bool_decide_unpack _). }
  split; [reflexivity|]. split; [reflexivity|]. split; [exact Hdisj|].
  pose proof (empty_intersection_scores_zero table_groundtruth
    table_parsed_elsewhere _ _ false eq_refl eq_refl Hdisj)
    as (Hal & _ & Hev & _).
  split; [exact Hal|exact Hev].
Defined.

(** C7, amended. [evaluate] raises [ValueError] and returns no scores when
    the [LineId] column is absent from either table; when both tables have
    it, and both have the [EventId] column, [evaluate] reaches the scoring
    and returns the scores; with [LineId] present, a table without
    [EventId] makes it raise [KeyError]. *)
Theorem evaluate_requires_LineId df_groundtruth df_parsedlog :
  (LineId ∉ columns df_groundtruth ∨ LineId ∉ columns df_parsedlog →
   evaluate df_groundtruth df_parsedlog = Raise ValueError)
  ∧ (LineId ∈ columns df_groundtruth → LineId ∈ columns df_parsedlog →
     EventId ∈ columns df_groundtruth → EventId ∈ columns df_parsedlog →
     ∃ g p s out, align df_groundtruth df_parsedlog = Ok (g, p)
       ∧ get_accuracy g p false = Ok (s, out)
       ∧ evaluate df_groundtruth df_parsedlog = Ok (f_measure s, accuracy s))
  ∧ (LineId ∈ columns df_groundtruth → LineId ∈ columns df_parsedlog →
     EventId ∉ columns df_groundtruth ∨ EventId ∉ columns df_parsedlog →
     evaluate df_groundtruth df_parsedlog = Raise KeyError).
Proof.
  split_and!.
  - intros Hmiss. unfold evaluate. by rewrite align_guard.
  - intros HLg HLp HEg HEp.
    destruct (event_series_Ok _ HLg HEg) as [gs Hgs].
    destruct (event_series_Ok _ HLp HEp) as [ps Hps].
    assert (align df_groundtruth df_parsedlog = Ok (align_series gs ps)) as Hal.
    { rewrite align_spec by done. by rewrite Hgs, Hps. }
    pose proof (align_series_index gs ps) as [H1 H2].
    destruct (align_series gs ps) as [g p].
    destruct (get_accuracy_returns g p false) as (s & out & Hs).
    { intros i Hi. apply (proj2 (H1 i)), (proj1 (H2 i)), Hi. }
    exists g, p, s, out. split; [exact Hal|]. split; [exact Hs|].
    rewrite (evaluate_unfold _ _ _ _ Hal). by rewrite Hs.
  - intros HLg HLp Hmiss. unfold evaluate. rewrite align_spec by done.
    destruct (decide (EventId ∈ columns df_groundtruth)) as [HEg|HEg].
    + destruct (event_series_Ok _ HLg HEg) as [gs ->].
      destruct Hmiss as [?|HEp]; [done|].
      rewrite (event_series_Raise df_parsedlog) by done. reflexivity.
    + rewrite (event_series_Raise df_groundtruth) by done. reflexivity.
Qed.

(** Counterexample to C7 without the [EventId] condition: on tables that
    have [LineId] but lack [EventId] the guard passes and the evaluation
    still stops with [KeyError] before any scoring. *)
Lemma evaluate_without_EventId :
  LineId ∈ columns table_without_EventId ∧ LineId ∈ columns table_parsed
  ∧ evaluate table_without_EventId table_parsed = Raise KeyError.
Proof.
  split; [by apply (bool_decide_unpack _)|].
  split; [by apply (bool_decide_unpack _)|]. reflexivity.
Qed.

Lemma evaluate_requires_LineId_witness :
  ((LineId ∉ columns table_without_LineId)
   ∧ evaluate table_without_LineId table_parsed = Raise ValueError)
  ∧ (LineId ∈ columns table_groundtruth ∧ LineId ∈ columns table_parsed
     ∧ EventId ∈ columns table_groundtruth ∧ EventId ∈ columns table_parsed
     ∧ ∃ g p s out, align table_groundtruth table_parsed = Ok (g, p)
         ∧ get_accuracy g p false = Ok (s, out)
         ∧ evaluate table_groundtruth table_parsed = Ok (f_measure s, accuracy s))
  ∧ ((EventId ∉ columns table_without_EventId)
     ∧ evaluate table_without_EventId table_parsed = Raise KeyError).
Proof.
  assert (LineId ∉ columns table_without_LineId) as H1
    by (by apply (bool_decide_unpack _)).
  assert (LineId ∈ columns table_groundtruth) as H2
    by (by apply (bool_decide_unpack _)).
  assert (LineId ∈ columns table_parsed) as H3
    by (by apply (bool_decide_unpack _)).
  assert (EventId ∈ columns table_groundtruth) as H4
    by (by apply (bool_decide_unpack _)).
  assert (EventId ∈ columns table_parsed) as H5
    by (by apply (bool_decide_unpack _)).
  assert (LineId ∈ columns table_without_EventId) as H6
    by (by apply (bool_decide_unpack _)).
  assert (EventId ∉ columns table_without_EventId) as H7
    by (by apply (bool_decide_unpack _)).
  split; [split; [exact H1|]|split; [|split; [exact H7|]]].
  - exact (proj1 (evaluate_requires_LineId table_without_LineId table_parsed)
             (or_introl H1)).
  - do 4 (split; [assumption|]).
    exact (proj1 (proj2 (evaluate_requires_LineId table_groundtruth table_parsed))
             H2 H3 H4 H5).
  - exact (proj2 (proj2 (evaluate_requires_LineId table_without_EventId table_parsed))
             H6 H3 (or_introl H7)).
Defined.




(** The comparison above is with the line left out of both labelings.
    Compared with a wrong label a null label is not always worse:
    predicting A,A for the ground truth X,Y has accuracy 0, predicting
    A,null has accuracy 1/2. *)
Remark null_label_against_wrong_label :
  ∃ s s' out out',
    get_accuracy wrong_label_groundtruth wrong_label_predicted false = Ok (s, out)
    ∧ get_accuracy wrong_label_groundtruth null_label_predicted false = Ok (s', out')
    ∧ (accuracy s == 0)%Q ∧ (accuracy s' == 1 # 2)%Q.
Proof. eexists _, _, _, _. split_and!; by vm_compute. Qed.

(** ** When [get_accuracy] raises *)

Section key_error.
Context {Id G P : Type} `{EqDecision Id, EqDecision G, EqDecision P}.
Implicit Types (gt : list (Id * option G)) (parsed : list (Id * option P)).

Lemma elem_of_index_drop_unlabelled parsed i :
  i ∈ index (drop_unlabelled parsed)
  ↔ ∃ p, p ∈ values parsed ∧ i ∈ index (select parsed p).
Proof.
  unfold index, drop_unlabelled, select, values. rewrite list_elem_of_fmap. split.
  - intros [[j [p|]] [-> Hr]]; apply list_elem_of_filter in Hr as [Hp Hr]; [|done].
    exists p. split.
    + apply list_elem_of_omap. by exists (j, Some p).
    + apply list_elem_of_fmap. exists (j, Some p). split; [done|].
      by apply list_elem_of_filter.
  - intros (p & _ & Hi). apply list_elem_of_fmap in Hi as [r [-> Hr]].
    apply list_elem_of_filter in Hr as [Hp Hr]. exists r. split; [done|].
    apply list_elem_of_filter. split; [|done]. by rewrite Hp.
Qed.

Lemma class_counts_Raise gt parsed p i :
  i ∈ index (select parsed p) → i ∉ index gt →
  class_counts gt parsed p = Raise KeyError.
Proof.
  intros Hi Hnot. unfold class_counts. by rewrite (getitem_Raise gt _ i).
Qed.

Lemma loop_counts_Raise gt parsed ps p :
  p ∈ ps → class_counts gt parsed p = Raise KeyError →
  loop_counts gt parsed ps = Raise KeyError.
Proof.
  induction ps as [|q ps IH]; intros Hp Hraise.
  - by apply elem_of_nil in Hp.
  - cbn [loop_counts]. apply elem_of_cons in Hp as [<-|Hp].
    + by rewrite Hraise.
    + destruct (class_counts gt parsed q) as [x|e] eqn:Hq.
      * by rewrite bind_Ok, IH.
      * apply class_counts_error in Hq as ->. done.
Qed.

Lemma loop_counts_classes_return gt parsed ps :
  (∀ p, p ∈ ps → index (select parsed p) ⊆ index gt) →
  ∃ x, loop_counts gt parsed ps = Ok x.
Proof.
  induction ps as [|p ps IH]; intros Hsub; [by eexists|].
  destruct IH as [y IH]; [intros q Hq; apply Hsub; by right|].
  cbn [loop_counts]. unfold class_counts. rewrite getitem_Ok by (apply Hsub; left).
  rewrite !bind_Ok, IH, bind_Ok. by eexists.
Qed.

(** X1. [get_accuracy] looks up in the ground truth the line ids of the
    predicted lines that carry a label, and only those: it returns when
    the ground truth has all of them and raises [KeyError] as soon as one
    is missing. A predicted line without a label is never looked up. *)
Theorem get_accuracy_KeyError gt parsed debug :
  (index (drop_unlabelled parsed) ⊆ index gt →
   ∃ s out, get_accuracy gt parsed debug = Ok (s, out))
  ∧ (∀ i, i ∈ index (drop_unlabelled parsed) → i ∉ index gt →
     get_accuracy gt parsed debug = Raise KeyError).
Proof.
  pose proof (get_accuracy_pure gt parsed debug) as Hs. unfold pure_scores in Hs.
  split.
  - intros Hsub.
    destruct (loop_counts_classes_return gt parsed (unique (values parsed))) as [x Hx].
    { intros p Hp i Hi. apply Hsub, elem_of_index_drop_unlabelled.
      exists p. split; [by apply elem_of_unique|done]. }
    rewrite Hx, bind_Ok, ratios_Ok in Hs.
    destruct (get_accuracy gt parsed debug) as [[s out]|]; [|done]. by eexists _, _.
  - intros i Hi Hnot. apply elem_of_index_drop_unlabelled in Hi as (p & Hp & Hi).
    rewrite (loop_counts_Raise gt parsed _ p) in Hs.
    + destruct (get_accuracy gt parsed debug) as [[s out]|e]; [done|].
      by injection Hs as ->.
    + by apply elem_of_unique.
    + by apply (class_counts_Raise gt parsed p i).
Qed.
End key_error.


Lemma get_accuracy_KeyError_witness :
  (index (drop_unlabelled predicted_long_unlabelled) ⊆ index groundtruth_short
   ∧ ∃ s out, get_accuracy groundtruth_short predicted_long_unlabelled false = Ok (s, out))
  ∧ (3%Z ∈ index (drop_unlabelled predicted_long)
     ∧ (3%Z ∉ index groundtruth_short)
     ∧ get_accuracy groundtruth_short predicted_long false = Raise KeyError).
Proof.
  assert (Forall (λ i, i ∈ index groundtruth_short)
            (index (drop_unlabelled predicted_long_unlabelled))) as HF
    by (by apply (bool_decide_unpack _)).
  pose proof (proj1 (list.Forall_forall _ _) HF) as H1.
  assert (3%Z ∈ index (drop_unlabelled predicted_long)) as H2
    by (by apply (bool_decide_unpack _)).
  assert (3%Z ∉ index groundtruth_short) as H3
    by (by apply (bool_decide_unpack _)).
  split; [split; [exact H1|]|split; [exact H2|split; [exact H3|]]].
  - exact (proj1 (get_accuracy_KeyError groundtruth_short
                    predicted_long_unlabelled false) H1).
  - exact (proj2 (get_accuracy_KeyError groundtruth_short predicted_long false)
             3%Z H2 H3).
Defined.

(** ** How the three pair scores relate *)

Lemma Qnat_zero_iff n : (Qnat n == 0)%Q ↔ n = 0.
Proof.
  unfold Qnat. change 0%Q with (inject_Z 0). rewrite inject_Z_injective. lia.
Qed.

Lemma ratio_zero_iff a b : a ≤ b → (ratio a b == 0)%Q ↔ a = 0.
Proof.
  intros Hab. unfold ratio. case_decide as Hb.
  - pose proof (Qnat_pos b Hb) as Hpos. rewrite <-Qnat_zero_iff. split.
    + intros Hz. assert (Qnat a == Qnat a / Qnat b * Qnat b)%Q as ->
        by (field; lra). rewrite Hz. lra.
    + intros ->. unfold Qdiv. lra.
  - split; [lia|reflexivity].
Qed.

Lemma harmonic_zero_iff p r :
  (0 <= p)%Q → (0 <= r)%Q → (harmonic p r == 0)%Q ↔ (p == 0)%Q ∨ (r == 0)%Q.
Proof.
  intros Hp Hr. unfold harmonic. destruct (Qeq_bool (p + r) 0) eqn:E; cbn.
  - apply Qeq_bool_eq in E. split; [|reflexivity]. intros _. left. lra.
  - apply Qeq_bool_neq in E. assert (0 < p + r)%Q as Hpos by lra. split.
    + intros Hz.
      assert (2 * p * r == 2 * p * r / (p + r) * (p + r))%Q as Hprod
        by (field; lra).
      rewrite Hz in Hprod.
      destruct (Qeq_dec p 0) as [?|Hp0]; [by left|]. right.
      assert (0 < p)%Q by lra. nra.
    + intros [Hz|Hz]; rewrite Hz; unfold Qdiv; lra.
Qed.


Section pair_scores.
Context {Id G P : Type} `{EqDecision Id, EqDecision G, EqDecision P}.
Implicit Types (gt : list (Id * option G)) (parsed : list (Id * option P)).


Lemma same_pairs_NoDup {L} `{EqDecision L} (vs : list L) :
  NoDup vs → same_pairs vs = 0.
Proof.
  induction 1 as [|v vs Hv _ IH]; [done|]. cbn [same_pairs].
  by rewrite IH, count_of_zero.
Qed.

(** X3. When either labeling gives no two lines the same label there is no
    pair to agree on: precision, recall and F-measure are all 0. *)
Theorem no_shared_label_scores_zero gt parsed debug :
  aligned gt parsed → NoDup (values parsed) ∨ NoDup (values gt) →
  ∃ s out, get_accuracy gt parsed debug = Ok (s, out)
    ∧ (precision s == 0)%Q ∧ (recall s == 0)%Q ∧ (f_measure s == 0)%Q.
Proof.
  intros Hal Hnd. pose proof (get_accuracy_aligned gt parsed debug Hal) as Hs.
  destruct (get_accuracy gt parsed debug) as [[s out]|]; [|done].
  injection Hs as ->. eexists _, _. split; [done|].
  destruct (aligned_counts_bounds gt parsed Hal) as (Hpp & Hrp & _).
  set (c := aligned_counts gt parsed) in *.
  assert (accurate_pairs c = 0) as Hap.
  { destruct Hnd as [Hnd|Hnd]; apply same_pairs_NoDup in Hnd.
    - assert (parsed_pairs c = 0) by done. lia.
    - assert (real_pairs c = 0) by done. lia. }
  unfold scores_of_counts. cbn [precision recall f_measure accuracy].
  pose proof (proj2 (ratio_zero_iff _ _ Hpp) Hap) as Hp0.
  pose proof (proj2 (ratio_zero_iff _ _ Hrp) Hap) as Hr0.
  split_and!; [done|done|].
  apply harmonic_zero_iff; [apply ratio_nonneg..|by left].
Qed.
End pair_scores.



Lemma predicted_all_distinct_aligned :
  aligned scenario_groundtruth predicted_all_distinct.
Proof.
  split; [|reflexivity]. apply (bool_decide_unpack _). vm_compute. exact I.
Defined.

Lemma no_shared_label_scores_zero_witness :
  aligned scenario_groundtruth predicted_all_distinct
  ∧ NoDup (values predicted_all_distinct)
  ∧ ∃ s out, get_accuracy scenario_groundtruth predicted_all_distinct false = Ok (s, out)
      ∧ (precision s == 0)%Q ∧ (recall s == 0)%Q ∧ (f_measure s == 0)%Q.
Proof.
  assert (NoDup (values predicted_all_distinct)) as Hnd
    by (apply (bool_decide_unpack _); vm_compute; exact I).
  split; [exact predicted_all_distinct_aligned|]. split; [exact Hnd|].
  exact (no_shared_label_scores_zero _ _ false predicted_all_distinct_aligned
           (or_introl Hnd)).
Defined.

(** ** A perfect partition under other names *)

Section perfect.
Context {Id L L' : Type} `{EqDecision Id, EqDecision L, EqDecision L'}.
Implicit Types (s : list (Id * option L)).

Lemma rename_id s : rename id s = s.
Proof.
  unfold rename. rewrite <-(list_fmap_id s) at 2.
  apply Forall_fmap_ext_1, list.Forall_forall. by intros [i [v|]] _.
Qed.

Lemma scores_of_self s v :
  NoDup (index s) → labelled s → 2 ≤ class_size s v →
  scores_eq (scores_of_counts (aligned_counts s s)) (Scores 1 1 1 1).
Proof.
  intros Hnd Hlab Hv. rewrite aligned_counts_self by done.
  assert (same_pairs (values s) ≠ 0) as Hpairs.
  { pose proof (comb_count_le_same_pairs v (values s)) as Hle.
    rewrite <-class_size_count in Hle.
    pose proof (comb_2_mono _ _ Hv) as Hc. cbn in Hc. lia. }
  assert (size s ≠ 0) as Hsize.
  { unfold class_size, size, select in *.
    pose proof (length_filter (λ r : Id * option L, r.2 = Some v) s). lia. }
  unfold scores_eq, scores_of_counts. cbn.
  pose proof (ratio_self _ Hpairs). pose proof (ratio_self _ Hsize).
  split_and!; [done|done|by apply harmonic_one|done].
Qed.

(** X4. A prediction that groups the lines exactly as the ground truth does,
    under labels of its own (an injective renaming of the ground-truth
    labels), gets precision = recall = f_measure = accuracy = 1, provided
    the line ids are distinct, no label is null and some class has at
    least two lines. *)
Theorem renamed_groundtruth_scores_one (f : L → L') `{!Inj (=) (=) f} s debug v :
  NoDup (index s) → labelled s → 2 ≤ class_size s v →
  ∃ sc out, get_accuracy s (rename f s) debug = Ok (sc, out)
    ∧ scores_eq sc (Scores 1 1 1 1).
Proof.
  intros Hnd Hlab Hv.
  pose proof (get_accuracy_pure s (rename f s) debug) as Hs.
  assert (pure_scores s (rename f s) = pure_scores s s) as Heq.
  { rewrite <-(pure_scores_rename id f s s). by rewrite rename_id. }
  rewrite Heq, <-(get_accuracy_pure s s debug) in Hs.
  rewrite (get_accuracy_aligned s s debug (aligned_self s Hnd)) in Hs.
  destruct (get_accuracy s (rename f s) debug) as [[sc out]|]; [|done].
  injection Hs as ->. eexists _, _. split; [done|]. by eapply scores_of_self.
Qed.
End perfect.

Lemma renamed_groundtruth_scores_one_witness :
  Inj (=) (=) (String.append "c_")
  ∧ NoDup (index scenario_groundtruth) ∧ labelled scenario_groundtruth
  ∧ 2 ≤ class_size scenario_groundtruth "X"%string
  ∧ ∃ sc out, get_accuracy scenario_groundtruth
                (rename (String.append "c_") scenario_groundtruth) false = Ok (sc, out)
      ∧ scores_eq sc (Scores 1 1 1 1).
Proof.
  assert (NoDup (index scenario_groundtruth)) as Hnd
    by (apply (bool_decide_unpack _); vm_compute; exact I).
  assert (2 ≤ class_size scenario_groundtruth "X"%string) as Hv
    by (vm_compute; lia).
  split; [exact (prefix_inj "c_")|]. split; [exact Hnd|].
  split; [exact scenario_groundtruth_labelled|]. split; [exact Hv|].
  exact (renamed_groundtruth_scores_one (String.append "c_") (Inj0:=prefix_inj "c_")
           scenario_groundtruth false "X"%string Hnd scenario_groundtruth_labelled Hv).
Defined.

(** ** The order of the rows *)



Section unique_perm.
Context {L : Type} `{EqDecision L}.

End unique_perm.

Section row_order.
Context {Id G P : Type} `{EqDecision Id, EqDecision G, EqDecision P}.
Implicit Types (gt : list (Id * option G)) (parsed : list (Id * option P)).







End row_order.



(** ** Exchanging ground truth and prediction *)


Section pairs_by_class.
Context {A B : Type} `{EqDecision A, EqDecision B}.


End pairs_by_class.

Section joint_facts.
Context {Id G P : Type} `{EqDecision Id, EqDecision G, EqDecision P}.
Implicit Types (gt : list (Id * option G)) (parsed : list (Id * option P)).






End joint_facts.

Section exchange.
Context {Id G P : Type} `{EqDecision Id, EqDecision G, EqDecision P}.
Implicit Types (gt : list (Id * option G)) (parsed : list (Id * option P)).


Lemma aligned_exchange gt parsed : aligned gt parsed → aligned parsed gt.
Proof. intros [Hnd Hp]. split; [by rewrite Hp|done]. Qed.


End exchange.


(** ** Exact matches are mutual *)

Lemma sum_list_with_swap {A B : Type} (F : A → B → nat) (la : list A) (lb : list B) :
  sum_list_with (λ a, sum_list_with (F a) lb) la
  = sum_list_with (λ b, sum_list_with (λ a, F a b) la) lb.
Proof.
  induction la as [|a la IH]; cbn [sum_list_with].
  - by rewrite sum_list_with_zero.
  - by rewrite IH, sum_list_with_add.
Qed.

(** Among the entries of a list at most one of which satisfies [M], the
    indicator of "some entry satisfies [M]" is the sum of the indicators. *)
Lemma indicator_Exists {A : Type} (M : A → Prop) `{∀ x, Decision (M x)}
    (n : nat) (l : list A) :
  NoDup l → (∀ x y, x ∈ l → y ∈ l → M x → M y → x = y) →
  (if decide (Exists M l) then n else 0)
  = sum_list_with (λ x, if decide (M x) then n else 0) l.
Proof.
  induction 1 as [|x l Hx Hnd IH]; intros Hone.
  - cbn. destruct (decide (Exists M [])) as [He|]; [|done]. by inversion He.
  - cbn [sum_list_with]. rewrite <-IH by (intros y z Hy Hz; apply Hone; by right).
    destruct (decide (M x)) as [Hm|Hm].
    + rewrite decide_True by (by left).
      rewrite decide_False; [lia|]. intros He.
      apply list.Exists_exists in He as (y & Hy & Hmy).
      assert (x = y) as -> by (apply Hone; [left|by right|done..]). done.
    + destruct (decide (Exists M l)) as [He|He].
      * rewrite decide_True by (by right). done.
      * rewrite decide_False; [done|]. intros He'.
        apply List.Exists_cons in He' as [?|?]; done.
Qed.

Section mutual.
Context {Id G P : Type} `{EqDecision Id, EqDecision G, EqDecision P}.
Implicit Types (gt : list (Id * option G)) (parsed : list (Id * option P)).

Lemma elem_of_index_select {L} `{EqDecision L} (s : list (Id * option L)) v i :
  i ∈ index (select s v) ↔ (i, Some v) ∈ s.
Proof.
  unfold index, select. rewrite list_elem_of_fmap. split.
  - intros [[j o] [-> Hr]]. apply list_elem_of_filter in Hr as [Ho Hr].
    cbn in *. by subst o.
  - intros Hin. exists (i, Some v). split; [done|]. by apply list_elem_of_filter.
Qed.

(** A predicted class that exactly matches a ground-truth class has the
    same lines: the ground-truth class exactly matches it in return. *)
Lemma exact_match_of_mutual gt parsed p g :
  aligned gt parsed →
  exact_match_of gt parsed p g → exact_match_of parsed gt g p.
Proof.
  intros [Hnd Hperm] [Hall Hsize].
  assert (NoDup (index parsed)) as Hndp by (by rewrite Hperm).
  split; [|done]. rewrite list.Forall_forall in Hall.
  assert (index (select parsed p) ≡ₚ index (select gt g)) as Hsame.
  { apply submseteq_length_Permutation.
    - apply NoDup_submseteq; [by apply NoDup_index_filter|].
      intros i Hi. pose proof (Hall i Hi) as Hg.
      apply elem_of_index_select. rewrite <-Hg. apply label_at_elem_of; [done|].
      rewrite <-Hperm. by eapply select_index_subseteq.
    - unfold class_size, size in Hsize. unfold index. rewrite !length_fmap. lia. }
  apply list.Forall_forall. intros i Hi. rewrite <-Hsame in Hi.
  by apply label_at_select.
Qed.

Lemma exact_match_of_unique gt parsed p g g' :
  p ∈ values parsed →
  exact_match_of gt parsed p g → exact_match_of gt parsed p g' → g = g'.
Proof.
  intros Hp [Hall _] [Hall' _].
  pose proof (select_nonempty parsed p Hp) as Hne.
  assert (∃ i, i ∈ index (select parsed p)) as [i Hi].
  { destruct (select parsed p) as [|[i o] l]; [done|]. exists i. left. }
  rewrite list.Forall_forall in Hall, Hall'.
  pose proof (Hall i Hi). pose proof (Hall' i Hi). congruence.
Qed.

Lemma class_events_indicator gt parsed p :
  aligned gt parsed → labelled gt → p ∈ values parsed →
  class_events gt parsed p
  = sum_list_with
      (λ g, if decide (exact_match_of gt parsed p g) then class_size parsed p else 0)
      (unique (values gt)).
Proof.
  intros Hal Hlab Hp. rewrite class_events_exact_match by done.
  unfold exact_match. apply indicator_Exists; [apply NoDup_unique|].
  intros g g' _ _. by apply exact_match_of_unique.
Qed.
End mutual.

Section mutual_events.
Context {Id G P : Type} `{EqDecision Id, EqDecision G, EqDecision P}.
Implicit Types (gt : list (Id * option G)) (parsed : list (Id * option P)).

(** When neither labeling has a null label, the lines counted in
    [accurate_events] are the same whichever labeling plays the ground
    truth. *)
Lemma accurate_events_exchange gt parsed :
  aligned gt parsed → labelled gt → labelled parsed →
  accurate_events (aligned_counts parsed gt) = accurate_events (aligned_counts gt parsed).
Proof.
  intros Hal Hg Hp. pose proof (aligned_exchange gt parsed Hal) as Hal'. cbn.
  rewrite (sum_list_with_ext_in (class_events parsed gt) _ _
    (λ g Hin, class_events_indicator parsed gt g Hal' Hp
                (proj1 (elem_of_unique g (values gt)) Hin))).
  rewrite (sum_list_with_ext_in (class_events gt parsed) _ _
    (λ p Hin, class_events_indicator gt parsed p Hal Hg
                (proj1 (elem_of_unique p (values parsed)) Hin))).
  rewrite sum_list_with_swap. apply sum_list_with_ext_in. intros p _.
  apply sum_list_with_ext_in. intros g _.
  destruct (decide (exact_match_of gt parsed p g)) as [Hm|Hm].
  - pose proof (exact_match_of_mutual gt parsed p g Hal Hm) as Hm'.
    rewrite decide_True by done. by destruct Hm'.
  - rewrite decide_False; [done|]. intros Hm'. apply Hm.
    by apply (exact_match_of_mutual parsed gt g p).
Qed.

(** X7. With no null label in either labeling the parsing accuracy does not
    depend on which of the two is taken as the ground truth. *)
Theorem exchange_keeps_accuracy gt parsed debug :
  aligned gt parsed → labelled gt → labelled parsed →
  ∃ s s' out out',
    get_accuracy gt parsed debug = Ok (s, out)
    ∧ get_accuracy parsed gt debug = Ok (s', out')
    ∧ (accuracy s' == accuracy s)%Q.
Proof.
  intros Hal Hg Hp. pose proof (aligned_exchange gt parsed Hal) as Hal'.
  pose proof (get_accuracy_aligned gt parsed debug Hal) as Hs.
  pose proof (get_accuracy_aligned parsed gt debug Hal') as Hs'.
  destruct (get_accuracy gt parsed debug) as [[s out]|]; [|done].
  destruct (get_accuracy parsed gt debug) as [[s' out']|]; [|done].
  injection Hs as ->. injection Hs' as ->. eexists _, _, _, _.
  split; [done|]. split; [done|].
  unfold scores_of_counts. cbn [precision recall f_measure accuracy].
  rewrite (accurate_events_exchange gt parsed Hal Hg Hp).
  change (groundtruth_size (aligned_counts parsed gt)) with (size parsed).
  change (groundtruth_size (aligned_counts gt parsed)) with (size gt).
  unfold size. rewrite (aligned_length gt parsed Hal). reflexivity.
Qed.
End mutual_events.

Lemma scenario_B_predicted_labelled : labelled scenario_B_predicted.
Proof. apply (bool_decide_unpack _). vm_compute. exact I. Defined.

Lemma exchange_keeps_accuracy_witness :
  aligned scenario_groundtruth scenario_B_predicted
  ∧ labelled scenario_groundtruth ∧ labelled scenario_B_predicted
  ∧ ∃ s s' out out',
      get_accuracy scenario_groundtruth scenario_B_predicted false = Ok (s, out)
      ∧ get_accuracy scenario_B_predicted scenario_groundtruth false = Ok (s', out')
      ∧ (accuracy s' == accuracy s)%Q.
Proof.
  split; [exact scenario_B_aligned|]. split; [exact scenario_groundtruth_labelled|].
  split; [exact scenario_B_predicted_labelled|].
  exact (exchange_keeps_accuracy _ _ false scenario_B_aligned
           scenario_groundtruth_labelled scenario_B_predicted_labelled).
Defined.

(** ** Precision 1 and recall 1 *)



Section all_equal.
Context {L : Type} `{EqDecision L}.

End all_equal.

Section purity_of_classes.
Context {Id G P : Type} `{EqDecision Id, EqDecision G, EqDecision P}.
Implicit Types (gt : list (Id * option G)) (parsed : list (Id * option P)).



End purity_of_classes.

Section precision_recall_one.
Context {Id G P : Type} `{EqDecision Id, EqDecision G, EqDecision P}.
Implicit Types (gt : list (Id * option G)) (parsed : list (Id * option P)).


End precision_recall_one.



(** ** What [evaluate] depends on *)

Lemma filter_ext_in {A : Type} (Q R : A → Prop) `{∀ x, Decision (Q x)}
    `{∀ x, Decision (R x)} (l : list A) :
  (∀ x, x ∈ l → Q x ↔ R x) → filter Q l = filter R l.
Proof.
  induction l as [|x l IH]; intros Hext; [done|].
  rewrite !filter_cons, IH by (intros y Hy; apply Hext; by right).
  pose proof (Hext x ltac:(left)).
  destruct (decide (Q x)), (decide (R x)); tauto || done.
Qed.

(** The [EventId] series of a table is computed row by row. *)
Lemma event_series_rows df s :
  event_series df = Ok s →
  ∃ h : list cell → cell * cell,
    ∀ rows', event_series {| columns := columns df; rows := rows' |} = Ok (h <$> rows').
Proof.
  unfold event_series, set_index, getcol. cbn [columns rows].
  destruct (position LineId (columns df)) as [k|] eqn:Ek; [|done].
  rewrite !bind_Ok. cbn [icolumns irows].
  destruct (position EventId (delete k (columns df))) as [k'|] eqn:Ek'; [|done].
  intros _. exists (λ r, (cell_at k r, cell_at k' (delete k r))). intros rows'.
  rewrite !bind_Ok. cbn [icolumns irows]. rewrite Ek', bind_Ok.
  by rewrite <-list_fmap_compose.
Qed.

Section loc_facts.
Context {Id V : Type} `{EqDecision Id}.
Implicit Types (s : list (Id * V)).

Lemma loc_app s s' i : loc (s ++ s') i = loc s i ++ loc s' i.
Proof. unfold loc. apply list.filter_app. Qed.


End loc_facts.





Lemma align_event_series df_groundtruth df_parsedlog gs ps :
  event_series df_groundtruth = Ok gs → event_series df_parsedlog = Ok ps →
  align df_groundtruth df_parsedlog = Ok (align_series gs ps).
Proof.
  intros Hgs Hps. rewrite align_spec by (by eapply event_series_LineId).
  by rewrite Hgs, Hps.
Qed.

Lemma evaluate_event_series df_groundtruth df_parsedlog gs ps :
  event_series df_groundtruth = Ok gs → event_series df_parsedlog = Ok ps →
  evaluate df_groundtruth df_parsedlog
  = (λ s, (f_measure s, accuracy s))
      <$> (fst <$> get_accuracy (align_series gs ps).1 (align_series gs ps).2 false).
Proof.
  intros Hgs Hps. apply evaluate_unfold.
  rewrite (align_event_series _ _ gs ps) by done. by destruct (align_series gs ps).
Qed.





Lemma event_series_of_rows df h :
  (∀ rows', event_series {| columns := columns df; rows := rows' |} = Ok (h <$> rows')) →
  event_series df = Ok (h <$> rows df).
Proof. intros Hh. specialize (Hh (rows df)). by destruct df. Qed.

Lemma align_series_more_parsed gs ps es :
  (∀ i, i ∈ index es → i ∉ index (drop_unlabelled gs)) →
  align_series gs (ps ++ es) = align_series gs ps.
Proof.
  intros Hout. unfold align_series. cbn zeta.
  assert (intersection (index (drop_unlabelled gs)) (index (ps ++ es))
          = intersection (index (drop_unlabelled gs)) (index ps)) as ->.
  { unfold intersection. f_equal. apply filter_ext_in. intros i Hi.
    unfold index. rewrite fmap_app, elem_of_app. split; [|tauto].
    intros [?|He]; [done|]. by destruct (Hout i He). }
  f_equal. apply Forall_bind_ext, list.Forall_forall. intros i Hi.
  apply elem_of_intersection_cells in Hi as [Hi _].
  rewrite loc_app, (loc_nil_not_in es i), app_nil_r; [done|].
  intros He. by destruct (Hout i He).
Qed.

Lemma align_series_more_groundtruth gs ps es :
  (∀ r, r ∈ es → r.2 = None ∨ r.1 ∉ index ps) →
  align_series (gs ++ es) ps = align_series gs ps.
Proof.
  intros Hout. unfold align_series. cbn zeta.
  assert (∀ i, i ∈ index ps → loc (drop_unlabelled es) i = []) as Hloc.
  { intros i Hi. apply loc_nil_not_in. intros He. unfold index in He.
    apply list_elem_of_fmap in He as [r [-> Hr]].
    unfold drop_unlabelled in Hr. apply list_elem_of_filter in Hr as [Hr1 Hr2].
    destruct (Hout r Hr2); done. }
  assert (drop_unlabelled (gs ++ es) = drop_unlabelled gs ++ drop_unlabelled es) as ->
    by apply list.filter_app.
  assert (intersection (index (drop_unlabelled gs ++ drop_unlabelled es)) (index ps)
          = intersection (index (drop_unlabelled gs)) (index ps)) as ->.
  { unfold intersection. f_equal. unfold index. rewrite fmap_app, list.filter_app.
    assert (filter (λ i, i ∈ ps.*1) (drop_unlabelled es).*1 = []) as ->; [|by rewrite app_nil_r].
    apply filter_none, list.Forall_forall. intros i Hi Hp.
    apply list_elem_of_fmap in Hi as [r [-> Hr]].
    apply list_elem_of_filter in Hr as [Hr1 Hr2]. destruct (Hout r Hr2); done. }
  f_equal. apply Forall_bind_ext, list.Forall_forall. intros i Hi.
  apply elem_of_intersection_cells in Hi as [_ Hi].
  by rewrite loc_app, (Hloc i Hi), app_nil_r.
Qed.

(** X12. Only the lines of the labelled ground truth are scored: rows added to
    the parser's table whose line id is not the id of a labelled
    ground-truth row do not change what [evaluate] returns. *)
Theorem evaluate_ignores_unmatched_parsed_rows df_groundtruth df_parsedlog extra gs es :
  event_series df_groundtruth = Ok gs →
  event_series {| columns := columns df_parsedlog; rows := extra |} = Ok es →
  (∀ i, i ∈ index es → i ∉ index (drop_unlabelled gs)) →
  evaluate df_groundtruth
           {| columns := columns df_parsedlog; rows := rows df_parsedlog ++ extra |}
  = evaluate df_groundtruth df_parsedlog.
Proof.
  intros Hgs Hes Hout.
  destruct (event_series_rows _ _ Hes) as [h Hh]. cbn [columns] in Hh.
  assert (es = h <$> extra) as -> by (specialize (Hh extra); congruence).
  rewrite (evaluate_event_series _ _ _ _ Hgs (Hh (rows df_parsedlog ++ extra))).
  rewrite (evaluate_event_series _ _ _ _ Hgs (event_series_of_rows _ _ Hh)).
  by rewrite fmap_app, align_series_more_parsed.
Qed.

Lemma evaluate_ignores_unmatched_parsed_rows_witness :
  ∃ gs es,
    event_series table_groundtruth = Ok gs
    ∧ event_series {| columns := columns table_parsed;
                      rows := rows_parsed_unmatched |} = Ok es
    ∧ (∀ i, i ∈ index es → i ∉ index (drop_unlabelled gs))
    ∧ evaluate table_groundtruth
               {| columns := columns table_parsed;
                  rows := rows table_parsed ++ rows_parsed_unmatched |}
      = evaluate table_groundtruth table_parsed.
Proof.
  eexists _, _.
  assert (∀ i : cell,
            i ∈ [Some (VInt 3); Some (VInt 10)] →
            i ∉ [Some (VInt 1); Some (VInt 2); Some (VInt 4)]) as Hout.
  { apply list.Forall_forall. by apply (bool_decide_unpack _). }
  split; [reflexivity|]. split; [reflexivity|]. split; [exact Hout|].
  exact (evaluate_ignores_unmatched_parsed_rows table_groundtruth table_parsed
           rows_parsed_unmatched _ _ eq_refl eq_refl Hout).
Defined.

(** X13. Lines the parser did not report are not held against it: rows added
    to the ground truth that have no [EventId], or whose line id is not in
    the parser's table, do not change what [evaluate] returns. *)
Theorem evaluate_ignores_unmatched_groundtruth_rows df_groundtruth df_parsedlog extra ps es :
  event_series df_parsedlog = Ok ps →
  event_series {| columns := columns df_groundtruth; rows := extra |} = Ok es →
  (∀ r, r ∈ es → r.2 = None ∨ r.1 ∉ index ps) →
  evaluate {| columns := columns df_groundtruth; rows := rows df_groundtruth ++ extra |}
           df_parsedlog
  = evaluate df_groundtruth df_parsedlog.
Proof.
  intros Hps Hes Hout.
  destruct (event_series_rows _ _ Hes) as [h Hh]. cbn [columns] in Hh.
  assert (es = h <$> extra) as -> by (specialize (Hh extra); congruence).
  rewrite (evaluate_event_series _ _ _ _ (Hh (rows df_groundtruth ++ extra)) Hps).
  rewrite (evaluate_event_series _ _ _ _ (event_series_of_rows _ _ Hh) Hps).
  by rewrite fmap_app, align_series_more_groundtruth.
Qed.

Lemma evaluate_ignores_unmatched_groundtruth_rows_witness :
  ∃ ps es,
    event_series table_parsed = Ok ps
    ∧ event_series {| columns := columns table_groundtruth;
                      rows := rows_groundtruth_unmatched |} = Ok es
    ∧ (∀ r, r ∈ es → r.2 = None ∨ r.1 ∉ index ps)
    ∧ evaluate {| columns := columns table_groundtruth;
                  rows := rows table_groundtruth ++ rows_groundtruth_unmatched |}
               table_parsed
      = evaluate table_groundtruth table_parsed.
Proof.
  eexists _, _.
  assert (∀ r : cell * cell,
            r ∈ [(Some (VInt 5), None); (Some (VInt 6), Some (VStr "E2"))] →
            r.2 = None
            ∨ r.1 ∉ [Some (VInt 1); Some (VInt 2); Some (VInt 3); Some (VInt 4);
                     Some (VInt 5)]) as Hout.
  { apply list.Forall_forall. by apply (bool_decide_unpack _). }
  split; [reflexivity|]. split; [reflexivity|]. split; [exact Hout|].
  exact (evaluate_ignores_unmatched_groundtruth_rows table_groundtruth table_parsed
           rows_groundtruth_unmatched _ _ eq_refl eq_refl Hout).
Defined.

(** ** The batch evaluation of [main] *)

Section evaluator_main_facts.
Variable isfile : string → bool.
Variable read_csv : string → option DataFrame.


Lemma each_app {A B : Type} (body : A → B → outcome A) st l l' :
  each body st (l ++ l') = each body st l ≫= λ st', each body st' l'.
Proof.
  revert st. induction l as [|x l IH]; intros st; [done|].
  cbn [each app]. destruct (body st x) as [st'|f]; [apply IH|done].
Qed.

Lemma main_body_runs acc d :
  main_body isfile read_csv acc d = each (run_step isfile read_csv) acc (runs_of d).
Proof.
  unfold main_body, runs_of. cbn [each run_step].
  destruct (evaluate_if_present _ _ acc _ _ _ _) as [acc1|f]; [|done].
  cbn [mbind outcome_bind].
  by destruct (evaluate_if_present _ _ acc1 _ _ _ _) as [acc2|f].
Qed.

(** The loop over the datasets is a loop over the evaluations. *)
Lemma main_loop_runs acc names :
  each (main_body isfile read_csv) acc names
  = each (run_step isfile read_csv) acc (names ≫= runs_of).
Proof.
  revert acc. induction names as [|d names IH]; intros acc; [done|].
  rewrite bind_cons, each_app. cbn [each]. rewrite main_body_runs.
  destruct (each _ acc (runs_of d)) as [acc'|f]; [apply IH|done].
Qed.

Lemma run_step_absent acc d m g p :
  isfile p ≠ true → run_step isfile read_csv acc (d, m, g, p) = Done acc.
Proof. intros Hp. unfold run_step, evaluate_if_present. by destruct (isfile p). Qed.

Lemma run_step_present acc d m g p :
  isfile p = true →
  run_step isfile read_csv acc (d, m, g, p)
  = evaluate_files read_csv g p ≫= λ '(f1, a), Done (acc ++ [(d, m, f1, a)]).
Proof. intros Hp. unfold run_step, evaluate_if_present. by rewrite Hp. Qed.

(** An evaluation whose parsed file is absent is skipped. *)
Lemma each_run_present acc rs :
  each (run_step isfile read_csv) acc rs
  = each (run_step isfile read_csv) acc (filter (λ r, isfile r.2 = true) rs).
Proof.
  revert acc. induction rs as [|r rs IH]; intros acc; [done|].
  rewrite filter_cons. case_decide as Hr.
  - cbn [each]. destruct (run_step isfile read_csv acc r); [apply IH|done].
  - cbn [each]. destruct r as [[[d m] g] p]. cbn [snd] in Hr.
    rewrite (run_step_absent _ _ _ _ _ Hr). apply IH.
Qed.

Lemma each_present_Done acc rs out :
  Forall (λ r, isfile r.2 = true) rs →
  each (run_step isfile read_csv) acc rs = Done out
  ↔ ∃ rows, out = acc ++ rows ∧ Forall2 (row_of_run read_csv) rows rs.
Proof.
  intros Hrs. revert acc. induction Hrs as [|[[[d m] g] p] rs Hr _ IH]; intros acc.
  - cbn [each]. split.
    + intros [= <-]. exists []. by rewrite app_nil_r.
    + intros (rows & -> & ->%Forall2_nil_inv_r). by rewrite app_nil_r.
  - cbn [each fst snd] in *. rewrite (run_step_present _ _ _ _ _ Hr).
    destruct (evaluate_files read_csv g p) as [[f1 acc']|f] eqn:Hev.
    + cbn [mbind outcome_bind mret outcome_ret]. rewrite IH. split.
      * intros (rows & -> & Hrows). exists ((d, m, f1, acc') :: rows).
        split; [by rewrite <-app_assoc|]. constructor; [|done].
        by exists f1, acc'.
      * intros (rows & -> & Hrows).
        apply Forall2_cons_inv_r in Hrows as (row & rows' & Hrow & Hrows & ->).
        destruct Hrow as (f1' & acc'' & Hev' & ->).
        rewrite Hev in Hev'. injection Hev' as <- <-.
        exists rows'. by rewrite <-app_assoc.
    + cbn [mbind outcome_bind]. split; [done|].
      intros (rows & -> & Hrows).
      apply Forall2_cons_inv_r in Hrows as (row & rows' & Hrow & _ & _).
      destruct Hrow as (f1' & acc'' & Hev' & _). by rewrite Hev in Hev'.
Qed.

Lemma main_loop_Done names out :
  main_loop isfile read_csv names = Done out
  ↔ Forall2 (row_of_run read_csv) out (present_runs isfile names).
Proof.
  unfold main_loop, present_runs. rewrite main_loop_runs, each_run_present.
  rewrite each_present_Done.
  - split; [by intros (rows & -> & ?)|]. intros ?. by exists out.
  - apply list.Forall_forall. intros r Hr. by apply list_elem_of_filter in Hr as [? _].
Qed.

(** X14. [main] writes the summary exactly when every evaluation whose parsed
    file is there succeeds and there is at least one; the rows are then
    the results of these evaluations, in the order of the datasets and
    with the raw-log run of a dataset before its structured run. *)
Theorem main_writes_summary rows :
  main isfile read_csv = Done (Some rows)
  ↔ rows ≠ [] ∧ Forall2 (row_of_run read_csv) rows (present_runs isfile datasets).
Proof.
  unfold main. split.
  - destruct (main_loop isfile read_csv datasets) as [out|f] eqn:Hloop; [|done].
    apply main_loop_Done in Hloop. cbn [mbind outcome_bind mret outcome_ret].
    destruct out as [|row out]; [done|]. by intros [= <-].
  - intros [Hne Hrows]. apply main_loop_Done in Hrows. rewrite Hrows.
    cbn [mbind outcome_bind mret outcome_ret]. by destruct rows.
Qed.

(** X15. [main] ends without a summary and without an error exactly when none
    of the parsed files it looks for is there; the ground-truth files are
    then not read. *)
Theorem main_without_results :
  main isfile read_csv = Done None
  ↔ ∀ r, r ∈ datasets ≫= runs_of → isfile r.2 = false.
Proof.
  assert (present_runs isfile datasets = []
          ↔ ∀ r, r ∈ datasets ≫= runs_of → isfile r.2 = false) as <-.
  { unfold present_runs. split.
    - intros Hnil r Hr. destruct (isfile r.2) eqn:Hf; [|done].
      assert (r ∈ filter (λ r, isfile r.2 = true) (datasets ≫= runs_of)) as Hin
        by (by apply list_elem_of_filter).
      rewrite Hnil in Hin. by apply elem_of_nil in Hin.
    - intros Hno. apply filter_none, list.Forall_forall. intros r Hr.
      by rewrite (Hno r Hr). }
  unfold main. split.
  - destruct (main_loop isfile read_csv datasets) as [out|f] eqn:Hloop; [|done].
    apply main_loop_Done in Hloop. cbn [mbind outcome_bind mret outcome_ret].
    destruct out as [|row out]; [|done]. intros _. by apply Forall2_nil_inv_l in Hloop.
  - intros Hnil. assert (main_loop isfile read_csv datasets = Done []) as ->; [|done].
    apply main_loop_Done. rewrite Hnil. constructor.
Qed.

(** X16. One failure loses the whole summary: if a parsed file is there and
    its evaluation fails, be it on a ground-truth file that cannot be
    read, [main] fails, whatever the other evaluations give. *)
Theorem main_fails_as_a_whole dataset mode gt_csv parsed_csv f :
  (dataset, mode, gt_csv, parsed_csv) ∈ datasets ≫= runs_of →
  isfile parsed_csv = true →
  evaluate_files read_csv gt_csv parsed_csv = Failed f →
  ∃ f', main isfile read_csv = Failed f'.
Proof.
  intros Hr Hf Hev. unfold main.
  destruct (main_loop isfile read_csv datasets) as [out|f'] eqn:Hloop; [|by eexists].
  apply main_loop_Done in Hloop.
  assert ((dataset, mode, gt_csv, parsed_csv) ∈ present_runs isfile datasets) as Hin
    by (by apply list_elem_of_filter).
  apply list_elem_of_lookup in Hin as [k Hk].
  destruct (Forall2_lookup_r _ _ _ _ _ Hloop Hk) as (row & _ & Hrow).
  destruct Hrow as (f1 & acc & Hev' & _). by rewrite Hev in Hev'.
Qed.
End evaluator_main_facts.

Lemma main_writes_summary_witness :
  ∃ f1 acc,
    main only_HDFS_rawlog example_tables = Done (Some [("HDFS", "rawlog", f1, acc)]).
Proof.
  eexists _, _.
  apply (proj2 (main_writes_summary only_HDFS_rawlog example_tables _)).
  split; [done|].
  assert (present_runs only_HDFS_rawlog datasets
          = [("HDFS", "rawlog",
              "/home/davidh/logparser/data/HDFS/HDFS_2k.log_structured.csv",
              "/home/davidh/logparser/Drain3/examples/results_HDFS/HDFS_Drain3_parsed_rawlog.csv")])
    as -> by (vm_compute; reflexivity).
  constructor; [|constructor].
  eexists _, _. split; [vm_compute; reflexivity|reflexivity].
Defined.

Lemma main_without_results_witness :
  main (λ _, false) nothing_loads = Done None.
Proof.
  apply (proj2 (main_without_results (λ _, false) nothing_loads)). done.
Defined.

Lemma main_fails_as_a_whole_witness :
  ("HDFS", "rawlog",
   "/home/davidh/logparser/data/HDFS/HDFS_2k.log_structured.csv",
   "/home/davidh/logparser/Drain3/examples/results_HDFS/HDFS_Drain3_parsed_rawlog.csv")
    ∈ datasets ≫= runs_of
  ∧ only_HDFS_rawlog
      "/home/davidh/logparser/Drain3/examples/results_HDFS/HDFS_Drain3_parsed_rawlog.csv"
    = true
  ∧ evaluate_files nothing_loads
      "/home/davidh/logparser/data/HDFS/HDFS_2k.log_structured.csv"
      "/home/davidh/logparser/Drain3/examples/results_HDFS/HDFS_Drain3_parsed_rawlog.csv"
    = Failed (CannotRead "/home/davidh/logparser/data/HDFS/HDFS_2k.log_structured.csv")
  ∧ ∃ f', main only_HDFS_rawlog nothing_loads = Failed f'.
Proof.
  assert (("HDFS", "rawlog",
           "/home/davidh/logparser/data/HDFS/HDFS_2k.log_structured.csv",
           "/home/davidh/logparser/Drain3/examples/results_HDFS/HDFS_Drain3_parsed_rawlog.csv")
            ∈ datasets ≫= runs_of) as Hin
    by (by apply (bool_decide_unpack _)).
  split; [exact Hin|]. split; [reflexivity|]. split; [reflexivity|].
  exact (main_fails_as_a_whole only_HDFS_rawlog nothing_loads _ _ _ _ _
           Hin eq_refl eq_refl).
Defined.

(** ** Training and inference *)

Lemma list_getitem_nonneg {A : Type} (l : list A) (i : nat) :
  list_getitem l (Z.of_nat i)
  = match l !! i with Some a => Done a | None => Failed IndexError end.
Proof.
  unfold list_getitem. cbn zeta.
  rewrite (decide_False (P := (Z.of_nat i < 0)%Z)) by lia.
  rewrite decide_False by lia. by rewrite Nat2Z.id.
Qed.

Lemma list_getitem_negative {A : Type} (l : list A) (i : Z) :
  (i < 0)%Z →
  list_getitem l i
  = if decide (i + Z.of_nat (length l) < 0)%Z then Failed IndexError
    else match l !! Z.to_nat (i + Z.of_nat (length l)) with
         | Some a => Done a
         | None => Failed IndexError
         end.
Proof.
  intros Hi. unfold list_getitem. cbn zeta.
  by rewrite (decide_True (P := (i < 0)%Z)) by done.
Qed.

(** The lines [range(start_index, len(lines))] looks up. *)
Lemma lines_from_getitem (lines : list string) (start_index : Z) j line :
  (- Z.of_nat (length lines) ≤ start_index)%Z →
  lines_from lines start_index !! j = Some line →
  list_getitem lines (start_index + Z.of_nat j) = Done line.
Proof.
  intros Hlo. unfold lines_from. case_decide as Hneg.
  - set (k := Z.to_nat (Z.of_nat (length lines) + start_index)).
    assert (Z.of_nat k = Z.of_nat (length lines) + start_index)%Z as Hk
      by (unfold k; lia).
    clearbody k.
    assert (length (drop k lines) = Z.to_nat (- start_index)) as Hlen
      by (rewrite length_drop; lia).
    destruct (decide (j < length (drop k lines))) as [Hj|Hj].
    + rewrite lookup_app_l, lookup_drop by done. intros Hl.
      rewrite list_getitem_negative by lia. rewrite decide_False by lia.
      replace (Z.to_nat (start_index + Z.of_nat j + Z.of_nat (length lines)))
        with (k + j) by lia.
      by rewrite Hl.
    + rewrite lookup_app_r by lia. intros Hl.
      replace (start_index + Z.of_nat j)%Z
        with (Z.of_nat (j - length (drop k lines))) by lia.
      by rewrite list_getitem_nonneg, Hl.
  - rewrite lookup_drop. intros Hl.
    replace (start_index + Z.of_nat j)%Z
      with (Z.of_nat (Z.to_nat start_index + j)) by lia.
    by rewrite list_getitem_nonneg, Hl.
Qed.

Lemma length_lines_from (lines : list string) (start_index : Z) :
  (- Z.of_nat (length lines) ≤ start_index)%Z →
  range start_index (Z.of_nat (length lines))
  = seqZ start_index (Z.of_nat (length (lines_from lines start_index))).
Proof.
  intros Hlo. unfold range, lines_from. case_decide.
  - rewrite length_app, length_drop. f_equal. lia.
  - rewrite length_drop.
    destruct (decide (start_index ≤ Z.of_nat (length lines))%Z).
    + f_equal. lia.
    + rewrite !seqZ_nil; [done|lia|lia].
Qed.

Section template_miner_facts.
Context {Miner Logger Ratio : Type}.
Variable add_log_message : Miner → string → Miner.
Variable miner_match : Miner → string → Miner * option LogCluster.
Variable int_times : nat → Ratio → option Z.

Lemma train_loop_resolved m lines s ls :
  (∀ j line, ls !! j = Some line →
             list_getitem lines (s + Z.of_nat j) = Done line) →
  train_loop add_log_message m lines (seqZ s (Z.of_nat (length ls)))
  = (foldl add_log_message m ls, Done ()).
Proof.
  revert m s. induction ls as [|line ls IH]; intros m s Hres; [done|].
  rewrite seqZ_cons by (cbn [length]; lia). cbn [train_loop].
  pose proof (Hres 0 line eq_refl) as H0. rewrite Z.add_0_r in H0. rewrite H0.
  replace (Z.pred (Z.of_nat (length (line :: ls)))) with (Z.of_nat (length ls))
    by (cbn [length]; lia).
  rewrite IH; [done|]. intros j l Hj.
  replace (Z.succ s + Z.of_nat j)%Z with (s + Z.of_nat (S j))%Z by lia.
  by apply Hres.
Qed.

Lemma train_loop_app m lines is1 is2 :
  train_loop add_log_message m lines (is1 ++ is2)
  = match train_loop add_log_message m lines is1 with
    | (m', Done _) => train_loop add_log_message m' lines is2
    | (m', Failed f) => (m', Failed f)
    end.
Proof.
  revert m. induction is1 as [|i is1 IH]; intros m; [done|].
  cbn [app train_loop]. destruct (list_getitem lines i); [apply IH|done].
Qed.

Lemma train_loop_prefix m lines n :
  n ≤ length lines →
  train_loop add_log_message m lines (seqZ 0 (Z.of_nat n))
  = (foldl add_log_message m (take n lines), Done ()).
Proof.
  intros Hn.
  rewrite <-(train_loop_resolved m lines 0 (take n lines)).
  - by rewrite length_take_le.
  - intros j line Hj. rewrite Z.add_0_l, list_getitem_nonneg.
    apply lookup_take_Some in Hj as [-> _]. done.
Qed.

(** X17. With [n] the value of [int(len(lines) * subset_ratio)] and
    [num_train] equal to [n], or to 1 when [n] is 0: [train_on_subset]
    trains on the first [num_train] lines, on none when [num_train] is
    negative, and returns [num_train] when the input has that many lines;
    otherwise it raises [IndexError] after it has trained on every line.
    An empty input for which [n] is 0 makes it raise. *)
Theorem train_on_subset_outcome m lines subset_ratio (logger : Logger) n :
  int_times (length lines) subset_ratio = Some n →
  let num_train := if decide (n = 0)%Z then 1%Z else n in
  train_on_subset add_log_message int_times m lines subset_ratio (Some logger)
  = if decide (num_train ≤ Z.of_nat (length lines))%Z
    then (foldl add_log_message m (take (Z.to_nat num_train) lines), Done num_train)
    else (foldl add_log_message m lines, Failed IndexError).
Proof.
  intros Hn num_train. unfold train_on_subset. rewrite Hn. fold num_train.
  unfold range. rewrite Z.sub_0_r. case_decide as Hle.
  - destruct (decide (num_train < 0)%Z) as [Hneg|Hpos].
    + rewrite seqZ_nil by lia. cbn [train_loop].
      replace (Z.to_nat num_train) with 0 by lia. by rewrite take_0.
    + replace num_train with (Z.of_nat (Z.to_nat num_train)) at 1 by lia.
      rewrite train_loop_prefix by lia. done.
  - replace num_train
      with (Z.of_nat (length lines) + (num_train - Z.of_nat (length lines)))%Z
      at 1 by lia.
    rewrite seqZ_app by lia. rewrite train_loop_app.
    rewrite train_loop_prefix by done. rewrite take_ge by done.
    rewrite seqZ_cons by lia. cbn [train_loop].
    rewrite Z.add_0_l, list_getitem_nonneg.
    by rewrite (lookup_ge_None_2 lines (length lines)) by done.
Qed.

Lemma inference_loop_resolved m lines acc s ls :
  (∀ j line, ls !! j = Some line →
             list_getitem lines (s + Z.of_nat j) = Done line) →
  inference_loop miner_match m lines acc (seqZ s (Z.of_nat (length ls)))
  = let '(m', rows) := enumerate_loop miner_match m acc s ls in (m', Done rows).
Proof.
  revert m s acc. induction ls as [|line ls IH]; intros m s acc Hres; [done|].
  rewrite seqZ_cons by (cbn [length]; lia). cbn [inference_loop enumerate_loop].
  pose proof (Hres 0 line eq_refl) as H0. rewrite Z.add_0_r in H0. rewrite H0.
  destruct (match_row miner_match m s line) as [m' row].
  replace (Z.pred (Z.of_nat (length (line :: ls)))) with (Z.of_nat (length ls))
    by (cbn [length]; lia).
  replace (s + 1)%Z with (Z.succ s) by lia.
  apply IH. intros j l Hj.
  replace (Z.succ s + Z.of_nat j)%Z with (s + Z.of_nat (S j))%Z by lia.
  by apply Hres.
Qed.

Lemma match_row_fields m i line :
  line_id (match_row miner_match m i line).2 = (i + 1)%Z
  ∧ content (match_row miner_match m i line).2 = line
  ∧ (event_id (match_row miner_match m i line).2 = None
     ↔ event_template (match_row miner_match m i line).2 = None).
Proof.
  unfold match_row. destruct (miner_match m line) as [m' [c|]]; done.
Qed.

Lemma enumerate_loop_rows m acc i ls :
  line_id <$> (enumerate_loop miner_match m acc i ls).2
  = (line_id <$> acc) ++ seqZ (i + 1) (Z.of_nat (length ls))
  ∧ content <$> (enumerate_loop miner_match m acc i ls).2
    = (content <$> acc) ++ ls
  ∧ (Forall (λ row, event_id row = None ↔ event_template row = None) acc →
     Forall (λ row, event_id row = None ↔ event_template row = None)
       (enumerate_loop miner_match m acc i ls).2).
Proof.
  revert m acc i. induction ls as [|line ls IH]; intros m acc i.
  - cbn [enumerate_loop snd length]. by rewrite seqZ_nil, !app_nil_r by done.
  - cbn [enumerate_loop].
    pose proof (match_row_fields m i line) as (Hid & Hc & Hn).
    destruct (match_row miner_match m i line) as [m' row]. cbn [snd] in *.
    destruct (IH m' (acc ++ [row]) (i + 1)%Z) as (IH1 & IH2 & IH3).
    rewrite IH1, IH2, !fmap_app. cbn [fmap list_fmap]. rewrite Hid, Hc.
    rewrite <-!app_assoc. split_and!; [|done|].
    + f_equal. rewrite (seqZ_cons (i + 1)) by (cbn [length]; lia).
      cbn [app]. do 2 f_equal. cbn [length]. lia.
    + intros Hacc. apply IH3, Forall_app. split; [done|]. by constructor.
Qed.


(** X18. The inference of [main] gives one row for every line of the input, in
    the order of the input: line ids count from 1, the content is the
    line, and a row has no event id exactly when it has no template,
    whatever the miner is. *)
Theorem infer_all_rows m lines :
  let rows := (infer_all miner_match m lines).2 in
  line_id <$> rows = seqZ 1 (Z.of_nat (length lines))
  ∧ content <$> rows = lines
  ∧ Forall (λ row, event_id row = None ↔ event_template row = None) rows.
Proof.
  cbn zeta. unfold infer_all.
  destruct (enumerate_loop_rows m [] 0%Z lines) as (H1 & H2 & H3).
  split_and!; [done|done|]. by apply H3.
Qed.

(** X19. [inference_on_remaining] numbers the lines by their position in the
    whole input: from a start index that is not negative no index is out
    of range, and it gives one row for every line from that index on, in
    order, with line ids from [start_index + 1] and the line as content:
    the rows of the enumeration of these lines that starts at
    [start_index]. *)
Theorem inference_on_remaining_rows m lines start_index (logger : Logger) :
  (0 ≤ start_index)%Z →
  ∃ m' rows,
    inference_on_remaining miner_match m lines start_index (Some logger)
    = (m', Done rows)
    ∧ (m', rows)
      = enumerate_loop miner_match m [] start_index
          (drop (Z.to_nat start_index) lines)
    ∧ line_id <$> rows
      = seqZ (start_index + 1) (Z.of_nat (length lines) - start_index)
    ∧ content <$> rows = drop (Z.to_nat start_index) lines.
Proof.
  intros Hstart. unfold inference_on_remaining.
  rewrite length_lines_from by lia.
  rewrite inference_loop_resolved
    by (intros j line; apply lines_from_getitem; lia).
  unfold lines_from. rewrite decide_False by lia.
  destruct (enumerate_loop_rows m [] start_index
              (drop (Z.to_nat start_index) lines)) as (H1 & H2 & _).
  destruct (enumerate_loop _ _ _ _ _) as [m' rows]. exists m', rows.
  cbn [snd fmap list_fmap app] in *. split_and!; [done|done| |done].
  rewrite H1, length_drop.
  destruct (decide (start_index ≤ Z.of_nat (length lines))%Z).
  - f_equal. lia.
  - rewrite !seqZ_nil; [done|lia|lia].
Qed.

(** X20. A negative start index wraps around: when the input has at least
    [- start_index] lines, its last [- start_index] lines are matched
    first, with line ids from [start_index + 1] up to 0, and then all the
    lines; when it has fewer, [IndexError] is raised before the miner is
    asked anything. *)
Theorem inference_on_remaining_negative_start m lines start_index (logger : Logger) :
  (start_index < 0)%Z →
  let wrapped :=
    drop (Z.to_nat (Z.of_nat (length lines) + start_index)) lines ++ lines in
  inference_on_remaining miner_match m lines start_index (Some logger)
  = if decide (- Z.of_nat (length lines) ≤ start_index)%Z
    then let '(m', rows) := enumerate_loop miner_match m [] start_index wrapped in
         (m', Done rows)
    else (m, Failed IndexError).
Proof.
  intros Hneg wrapped. unfold inference_on_remaining. case_decide as Hlo.
  - rewrite length_lines_from by done.
    rewrite inference_loop_resolved
      by (intros j line; by apply lines_from_getitem).
    unfold lines_from. by rewrite decide_True by done.
  - unfold range. rewrite seqZ_cons by lia. cbn [inference_loop].
    rewrite list_getitem_negative by done. by rewrite decide_True by lia.
Qed.
End template_miner_facts.


Lemma train_on_subset_outcome_witness :
  tenth 3 () = Some 0%Z
  ∧ train_on_subset history_add tenth [] ["a"; "b"; "c"]%string () (Some ())
    = (["a"%string], Done 1%Z).
Proof.
  split; [reflexivity|].
  exact (train_on_subset_outcome history_add tenth [] ["a"; "b"; "c"]%string
           () () 0%Z eq_refl).
Defined.

Lemma inference_on_remaining_rows_witness :
  (0 ≤ 1)%Z
  ∧ ∃ m' rows,
      inference_on_remaining history_match ["b"]%string ["a"; "b"; "c"]%string
        1%Z (Some ())
      = (m', Done rows)
      ∧ (m', rows)
        = enumerate_loop history_match ["b"]%string [] 1%Z ["b"; "c"]%string
      ∧ line_id <$> rows = [2; 3]%Z
      ∧ content <$> rows = ["b"; "c"]%string.
Proof.
  assert (0 ≤ 1)%Z as H01 by lia.
  split; [exact H01|].
  exact (inference_on_remaining_rows history_match ["b"]%string
           ["a"; "b"; "c"]%string 1%Z () H01).
Defined.

Lemma inference_on_remaining_negative_start_witness :
  (-2 < 0)%Z
  ∧ inference_on_remaining history_match ["b"]%string ["a"; "b"; "c"]%string
      (-2)%Z (Some ())
    = (["b"]%string,
       Done [((-1)%Z, "b", Some 1%Z, Some "b"); (0%Z, "c", None, None);
             (1%Z, "a", None, None); (2%Z, "b", Some 1%Z, Some "b");
             (3%Z, "c", None, None)]%string).
Proof.
  assert (-2 < 0)%Z as Hneg by lia.
  split; [exact Hneg|].
  exact (inference_on_remaining_negative_start history_match ["b"]%string
           ["a"; "b"; "c"]%string (-2)%Z () Hneg).
Defined.

(** ** From the parse to the evaluation *)


Section parse_then_evaluate.
Context {Miner : Type}.
Variable miner_match : Miner → string → Miner * option LogCluster.

End parse_then_evaluate.


(** ** File names *)

Lemma append_cons c (a b : string) : String c a +:+ b = String c (a +:+ b).
Proof. reflexivity. Qed.

Lemma append_nil_l (b : string) : EmptyString +:+ b = b.
Proof. reflexivity. Qed.

Lemma append_assoc (a b c : string) : (a +:+ b) +:+ c = a +:+ (b +:+ c).
Proof. induction a as [|x a IH]; [done|]. by rewrite !append_cons, IH. Qed.

Lemma startswith_cons c s :
  startswith (String c s) "/" = bool_decide (String c EmptyString = "/").
Proof. unfold startswith. cbn. by destruct s. Qed.

Lemma endswith_cons c s :
  endswith (String c s) "/"
  = if bool_decide (s = EmptyString) then bool_decide (String c EmptyString = "/")
    else endswith s "/".
Proof.
  unfold endswith. destruct s as [|c' s]; [reflexivity|].
  rewrite (bool_decide_eq_false_2 (String c' s = EmptyString)) by done.
  change (String.length (String c (String c' s)))
    with (S (S (String.length s))).
  change (String.length (String c' s)) with (S (String.length s)).
  change (String.length "/") with 1.
  rewrite !Nat.sub_succ, !Nat.sub_0_r. reflexivity.
Qed.

Lemma startswith_app d t :
  has_slash d = false → startswith t "/" = false →
  startswith (d +:+ t) "/" = false.
Proof.
  intros Hd Ht. destruct d as [|c d]; [done|].
  rewrite ?append_cons. rewrite startswith_cons.
  cbn [has_slash] in Hd. by apply orb_false_iff in Hd as [? _].
Qed.

Lemma endswith_no_slash d : has_slash d = false → endswith d "/" = false.
Proof.
  induction d as [|c d IH]; [done|]. cbn [has_slash].
  intros [Hc Hd]%orb_false_iff. rewrite endswith_cons, Hc.
  destruct (bool_decide (d = EmptyString)); [done|by apply IH].
Qed.

Lemma endswith_app p d :
  endswith p "/" = false → has_slash d = false →
  endswith (p +:+ d) "/" = false.
Proof.
  intros Hp Hd. induction p as [|c p IH]; [by apply endswith_no_slash|].
  rewrite ?append_cons. rewrite endswith_cons in Hp |- *.
  destruct p as [|c' p].
  - change (EmptyString +:+ d) with d.
    rewrite (bool_decide_eq_true_2 (EmptyString = EmptyString)) in Hp by done.
    rewrite endswith_no_slash by done.
    by destruct (bool_decide (d = EmptyString)).
  - rewrite (bool_decide_eq_false_2 (String c' p = EmptyString)) in Hp by done.
    rewrite append_cons.
    rewrite (bool_decide_eq_false_2 (String c' (p +:+ d) = EmptyString)) by done.
    rewrite <-append_cons. by apply IH.
Qed.

Lemma join_step_plain a b :
  a ≠ EmptyString → endswith a "/" = false → startswith b "/" = false →
  join_step a b = a +:+ "/" +:+ b.
Proof.
  intros Ha He Hs. unfold join_step. rewrite Hs, He.
  by rewrite bool_decide_eq_false_2 by done.
Qed.

Lemma append_nonempty (a b : string) : a ≠ EmptyString → a +:+ b ≠ EmptyString.
Proof. by destruct a. Qed.

(** The file a run writes into its results folder. *)
Lemma results_file (prefix d file : string) :
  prefix ≠ EmptyString → endswith prefix "/" = false → has_slash d = false →
  startswith file "/" = false →
  path_join (prefix +:+ d) [d +:+ file] = prefix +:+ d +:+ "/" +:+ d +:+ file.
Proof.
  intros Hp He Hd Hf. unfold path_join. cbn [foldl].
  rewrite join_step_plain.
  - by rewrite !append_assoc.
  - by apply append_nonempty.
  - by apply endswith_app.
  - by apply startswith_app.
Qed.

(** A path is cut at its first slash in one way only. *)
Lemma cut_at_slash a1 a2 b1 b2 :
  has_slash a1 = false → has_slash a2 = false →
  a1 +:+ "/" +:+ b1 = a2 +:+ "/" +:+ b2 → a1 = a2 ∧ b1 = b2.
Proof.
  revert a2. induction a1 as [|c a1 IH]; intros [|c' a2] H1 H2 Heq.
  - rewrite !append_nil_l, !append_cons, !append_nil_l in Heq.
    by injection Heq as ->.
  - rewrite !append_nil_l, !append_cons, ?append_nil_l in Heq. cbn [has_slash] in H2.
    apply orb_false_iff in H2 as [H2 _]. injection Heq as <- _.
    by rewrite bool_decide_eq_true_2 in H2.
  - rewrite !append_nil_l, !append_cons, ?append_nil_l in Heq. cbn [has_slash] in H1.
    apply orb_false_iff in H1 as [H1 _]. injection Heq as -> _.
    by rewrite bool_decide_eq_true_2 in H1.
  - rewrite (append_cons c), (append_cons c') in Heq. cbn [has_slash] in H1, H2.
    apply orb_false_iff in H1 as [_ H1]. apply orb_false_iff in H2 as [_ H2].
    injection Heq as -> Heq. destruct (IH a2 H1 H2 Heq) as [-> ->]. done.
Qed.

Section parse_all_facts.
Variable listdir : string → option (list string).
Variable isdir : string → bool.
Variable isfile : string → bool.

(** What the runs for one entry are. *)
Lemma elem_of_parse_entry base_dir parser_script entry c :
  c ∈ parse_entry isdir isfile base_dir parser_script entry →
  c.1 = parser_script
  ∧ arg_dataset c.2 = entry
  ∧ arg_results_folder c.2 = "results_" +:+ entry
  ∧ ((arg_mode c.2 = "log"
      ∧ arg_path c.2 = path_join base_dir [entry; entry +:+ "_2k.log"]
      ∧ arg_persistence_file c.2
        = Some (path_join ("results_" +:+ entry) [entry +:+ "_snapshot_log.json"]))
     ∨ (arg_mode c.2 = "csv"
        ∧ arg_path c.2
          = path_join base_dir [entry; entry +:+ "_2k.log_structured.csv"]
        ∧ arg_persistence_file c.2
          = Some (path_join ("results_" +:+ entry)
                    [entry +:+ "_snapshot_csv.json"])))
  ∧ isdir (path_join base_dir [entry]) = true
  ∧ isfile (arg_path c.2) = true.
Proof.
  unfold parse_entry. destruct (isdir _) eqn:Hdir; cbn [negb]; [|by intros ?%elem_of_nil].
  rewrite elem_of_app. intros [Hc|Hc].
  - destruct (isfile _) eqn:Hfile; [|by apply elem_of_nil in Hc].
    apply list_elem_of_singleton in Hc as ->. cbn. split_and!; try done.
    by left.
  - destruct (isfile (path_join (path_join base_dir [entry])
                        [entry +:+ "_2k.log_structured.csv"])) eqn:Hfile;
      [|by apply elem_of_nil in Hc].
    apply list_elem_of_singleton in Hc as ->. cbn. split_and!; try done.
    by right.
Qed.

(** X22. The evaluator reads what the parse writes: for every run that
    [parse_all_datasets] makes on the evaluator's data directory, the file
    the run writes, taken from the directory of the scripts, is the parsed
    file that the evaluator looks for under the same dataset name, the
    raw-log one for mode [log] and the structured one for mode [csv]; and
    the input of a run in mode [csv] is the evaluator's ground-truth
    file. *)
Theorem evaluator_reads_parse_output parser_script runs c :
  parse_all_datasets listdir isdir isfile data_dir parser_script = Done runs →
  c ∈ runs →
  has_slash (arg_dataset c.2) = false →
  ∃ mode gt_csv parsed_csv,
    (arg_dataset c.2, mode, gt_csv, parsed_csv) ∈ runs_of (arg_dataset c.2)
    ∧ parsed_csv = examples_dir +:+ output_csv c.2
    ∧ (mode = "rawlog" ↔ arg_mode c.2 = "log")
    ∧ (arg_mode c.2 = "csv" → arg_path c.2 = gt_csv).
Proof.
  unfold parse_all_datasets. destruct (listdir data_dir) as [entries|]; [|done].
  intros [= <-] Hc Hd. apply list_elem_of_bind in Hc as (entry & Hc & _).
  apply elem_of_parse_entry in Hc as (_ & Hds & Hrf & Hmode & _).
  rewrite Hds in *. unfold output_csv, run_mode_suffix. rewrite Hds, Hrf.
  unfold runs_of.
  destruct Hmode as [(Hm & _ & _)|(Hm & Hp & _)]; rewrite Hm.
  - eexists "rawlog", _, _. split; [by left|]. split; [|done].
    rewrite bool_decide_eq_true_2 by done. unfold results_dir_prefix, examples_dir.
    rewrite (results_file "results_" entry ("_Drain3_parsed" +:+ "_rawlog" +:+ ".csv"))
      by done.
    by rewrite (results_file "/home/davidh/logparser/Drain3/examples/results_"
                  entry "_Drain3_parsed_rawlog.csv") by done.
  - eexists "structured_csv", _, _. split; [right; by left|]. split; [|done].
    rewrite bool_decide_eq_false_2 by done. unfold results_dir_prefix, examples_dir.
    rewrite (results_file "results_" entry
               ("_Drain3_parsed" +:+ "_structured_csv" +:+ ".csv")) by done.
    by rewrite (results_file "/home/davidh/logparser/Drain3/examples/results_"
                  entry "_Drain3_parsed_structured_csv.csv") by done.
Qed.

Lemma parse_entry_output base_dir parser_script entry c :
  has_slash entry = false →
  c ∈ parse_entry isdir isfile base_dir parser_script entry →
  ∃ suffix snapshot,
    output_csv c.2
    = ("results_" +:+ entry) +:+ "/" +:+ (entry +:+ "_Drain3_parsed" +:+ suffix)
    ∧ arg_persistence_file c.2
      = Some (("results_" +:+ entry) +:+ "/" +:+ (entry +:+ "_snapshot_" +:+ snapshot))
    ∧ ((arg_mode c.2 = "log" ∧ suffix = "_rawlog.csv" ∧ snapshot = "log.json")
       ∨ (arg_mode c.2 = "csv" ∧ suffix = "_structured_csv.csv"
          ∧ snapshot = "csv.json")).
Proof.
  intros Hd Hc.
  apply elem_of_parse_entry in Hc as (_ & Hds & Hrf & Hmode & _).
  unfold output_csv, run_mode_suffix. rewrite Hds, Hrf.
  destruct Hmode as [(Hm & _ & ->)|(Hm & _ & ->)]; rewrite Hm.
  - exists "_rawlog.csv", "log.json". rewrite bool_decide_eq_true_2 by done.
    rewrite (results_file "results_" entry ("_Drain3_parsed" +:+ "_rawlog" +:+ ".csv"))
      by done.
    rewrite (results_file "results_" entry "_snapshot_log.json") by done.
    rewrite !append_assoc. split_and!; [done|done|by left].
  - exists "_structured_csv.csv", "csv.json". rewrite bool_decide_eq_false_2 by done.
    rewrite (results_file "results_" entry
               ("_Drain3_parsed" +:+ "_structured_csv" +:+ ".csv")) by done.
    rewrite (results_file "results_" entry "_snapshot_csv.json") by done.
    rewrite !append_assoc. split_and!; [done|done|by right].
Qed.

Lemma parse_entry_mode base_dir parser_script entry c c' :
  c ∈ parse_entry isdir isfile base_dir parser_script entry →
  c' ∈ parse_entry isdir isfile base_dir parser_script entry →
  arg_mode c.2 = arg_mode c'.2 → c = c'.
Proof.
  unfold parse_entry. destruct (isdir _); cbn [negb]; [|by intros ?%elem_of_nil].
  destruct (isfile (path_join (path_join base_dir [entry]) [entry +:+ "_2k.log"])),
    (isfile (path_join (path_join base_dir [entry])
               [entry +:+ "_2k.log_structured.csv"]));
    cbn [app]; intros Hc Hc' Hm;
    repeat match goal with
           | H : _ ∈ _ :: _ |- _ => apply elem_of_cons in H as [->|H]
           | H : _ ∈ [] |- _ => by apply elem_of_nil in H
           end;
    cbn [snd arg_mode] in Hm; done.
Qed.

(** Runs that write the same parsed file, or keep the same snapshot, are
    the same run. *)
Lemma parse_runs_inj base_dir parser_script entry entry' c c' :
  has_slash entry = false → has_slash entry' = false →
  c ∈ parse_entry isdir isfile base_dir parser_script entry →
  c' ∈ parse_entry isdir isfile base_dir parser_script entry' →
  output_csv c.2 = output_csv c'.2
  ∨ arg_persistence_file c.2 = arg_persistence_file c'.2 →
  entry = entry' ∧ c = c'.
Proof.
  intros Hd Hd' Hc Hc' Heq.
  destruct (parse_entry_output _ _ _ _ Hd Hc) as (sf & sn & Ho & Hs & Hm).
  destruct (parse_entry_output _ _ _ _ Hd' Hc') as (sf' & sn' & Ho' & Hs' & Hm').
  assert (has_slash ("results_" +:+ entry) = false) as Hr by done.
  assert (has_slash ("results_" +:+ entry') = false) as Hr' by done.
  assert (entry = entry' ∧ (sf = sf' ∨ sn = sn')) as [<- Hsame].
  { destruct Heq as [Heq|Heq].
    - rewrite Ho, Ho' in Heq.
      apply cut_at_slash in Heq as [He Hf]; [|done|done].
      apply String.app_inj in He as <-. split; [done|]. left.
      apply String.app_inj in Hf. by apply String.app_inj in Hf.
    - rewrite Hs, Hs' in Heq. injection Heq as Heq.
      apply cut_at_slash in Heq as [He Hf]; [|done|done].
      apply String.app_inj in He as <-. split; [done|]. right.
      apply String.app_inj in Hf. by apply String.app_inj in Hf. }
  split; [done|]. apply (parse_entry_mode base_dir parser_script entry); [done|done|].
  destruct Hm as [(-> & -> & ->)|(-> & -> & ->)],
      Hm' as [(-> & -> & ->)|(-> & -> & ->)]; try done;
    by destruct Hsame.
Qed.

(** X23. No run overwrites what another run has written: when the entries of
    the base directory are distinct names, the parsed files of the runs
    are pairwise distinct, and so are their snapshot files. *)
Theorem parse_outputs_distinct base_dir parser_script entries runs :
  listdir base_dir = Some entries →
  NoDup entries →
  Forall (λ entry, has_slash entry = false) entries →
  parse_all_datasets listdir isdir isfile base_dir parser_script = Done runs →
  NoDup ((λ c, output_csv c.2) <$> runs)
  ∧ NoDup ((λ c, arg_persistence_file c.2) <$> runs).
Proof.
  intros Hls Hnd Hns. unfold parse_all_datasets. rewrite Hls. intros [= <-].
  rewrite list.Forall_forall in Hns.
  assert (NoDup (entries ≫= parse_entry isdir isfile base_dir parser_script))
    as Hruns.
  { apply NoDup_bind; [| |done].
    - intros e e' c He He' Hc Hc'.
      by destruct (parse_runs_inj base_dir parser_script e e' c c
                     (Hns _ He) (Hns _ He') Hc Hc' (or_introl eq_refl)).
    - intros e He. unfold parse_entry.
      destruct (isdir _); cbn [negb]; [|constructor].
      destruct (isfile _), (isfile _); cbn [app];
        repeat (apply list.NoDup_cons; split); try apply NoDup_nil_2;
        rewrite ?list_elem_of_singleton; try apply not_elem_of_nil; done. }
  split.
  - apply NoDup_fmap_2_strong; [|done]. intros c c' Hc Hc' Heq.
    apply list_elem_of_bind in Hc as (e & Hc & He).
    apply list_elem_of_bind in Hc' as (e' & Hc' & He').
    by destruct (parse_runs_inj base_dir parser_script e e' c c'
                   (Hns _ He) (Hns _ He') Hc Hc' (or_introl Heq)).
  - apply NoDup_fmap_2_strong; [|done]. intros c c' Hc Hc' Heq.
    apply list_elem_of_bind in Hc as (e & Hc & He).
    apply list_elem_of_bind in Hc' as (e' & Hc' & He').
    by destruct (parse_runs_inj base_dir parser_script e e' c c'
                   (Hns _ He) (Hns _ He') Hc Hc' (or_intror Heq)).
Qed.
End parse_all_facts.

Lemma evaluator_reads_parse_output_witness :
  ∃ runs,
    parse_all_datasets example_listdir example_isdir example_isfile data_dir
      "drain_train_infer.py" = Done runs
    ∧ example_run ∈ runs
    ∧ has_slash (arg_dataset example_run.2) = false
    ∧ ∃ mode gt_csv parsed_csv,
        (arg_dataset example_run.2, mode, gt_csv, parsed_csv)
          ∈ runs_of (arg_dataset example_run.2)
        ∧ parsed_csv = examples_dir +:+ output_csv example_run.2
        ∧ (mode = "rawlog" ↔ arg_mode example_run.2 = "log")
        ∧ (arg_mode example_run.2 = "csv" → arg_path example_run.2 = gt_csv).
Proof.
  eexists.
  assert (example_run
            ∈ ["HDFS"; "README.md"; "BGL"]
              ≫= parse_entry example_isdir example_isfile data_dir
                   "drain_train_infer.py") as Hin
    by (by apply (bool_decide_unpack _)).
  split; [reflexivity|]. split; [exact Hin|]. split; [reflexivity|].
  exact (evaluator_reads_parse_output example_listdir example_isdir example_isfile
           "drain_train_infer.py" _ example_run eq_refl Hin eq_refl).
Defined.

Lemma parse_outputs_distinct_witness :
  ∃ runs,
    example_listdir data_dir = Some ["HDFS"; "README.md"; "BGL"]
    ∧ NoDup ["HDFS"; "README.md"; "BGL"]
    ∧ Forall (λ entry, has_slash entry = false) ["HDFS"; "README.md"; "BGL"]
    ∧ parse_all_datasets example_listdir example_isdir example_isfile data_dir
        "drain_train_infer.py" = Done runs
    ∧ NoDup ((λ c, output_csv c.2) <$> runs)
    ∧ NoDup ((λ c, arg_persistence_file c.2) <$> runs).
Proof.
  eexists.
  assert (NoDup ["HDFS"; "README.md"; "BGL"]) as Hnd
    by (by apply (bool_decide_unpack _)).
  assert (Forall (λ entry, has_slash entry = false) ["HDFS"; "README.md"; "BGL"])
    as Hns by (by apply (bool_decide_unpack _)).
  split; [reflexivity|]. split; [exact Hnd|]. split; [exact Hns|].
  split; [reflexivity|].
  exact (parse_outputs_distinct example_listdir example_isdir example_isfile
           data_dir "drain_train_infer.py" _ _ eq_refl Hnd Hns eq_refl).
Defined.

(** ** Rounding to binary64 *)

Section rounding.
Local Open Scope Q_scope.

Lemma pow2_pos (z : Z) : 0 < 2 ^ z.
Proof. by apply Qpower_0_lt. Qed.

Lemma pow2_succ (z : Z) : 2 ^ (z + 1) == 2 * 2 ^ z.
Proof. rewrite Qpower_plus by done. change (2 ^ 1) with 2. ring. Qed.

Lemma pow2_pred (z : Z) : 2 ^ (z - 1) == 2 ^ z / 2.
Proof.
  pose proof (pow2_succ (z - 1)) as H.
  replace (z - 1 + 1)%Z with z in H by lia. rewrite H. field.
Qed.

Lemma pow2_add (a b : Z) : 2 ^ (a + b) == 2 ^ a * 2 ^ b.
Proof. by apply Qpower_plus. Qed.

Lemma pow2_sub (a b : Z) : 2 ^ (a - b) == 2 ^ a / 2 ^ b.
Proof. by apply Qpower_minus. Qed.

Lemma pow2_inject (z : Z) : (0 <= z)%Z → inject_Z (2 ^ z) == 2 ^ z.
Proof. intros Hz. by rewrite Zpower_Qpower. Qed.

Lemma pow2_le (a b : Z) : (a <= b)%Z → 2 ^ a <= 2 ^ b.
Proof. intros Hab. by apply Qpower_le_compat_l. Qed.

Lemma pow2_lt (a b : Z) : (a < b)%Z → 2 ^ a < 2 ^ b.
Proof. intros Hab. by apply Qpower_lt_compat_l. Qed.

Lemma pow2_lt_inv (a b : Z) : 2 ^ a < 2 ^ b → (a < b)%Z.
Proof. intros Hab. by apply (Qpower_lt_compat_l_inv 2). Qed.

(** A positive rational lies in one binade only. *)
Lemma binade_unique_aux x (a b : Z) :
  2 ^ a <= x → x < 2 ^ (a + 1) → 2 ^ b <= x → x < 2 ^ (b + 1) → a = b.
Proof.
  intros Ha1 Ha2 Hb1 Hb2.
  assert (a < b + 1)%Z by (apply pow2_lt_inv; lra).
  assert (b < a + 1)%Z by (apply pow2_lt_inv; lra).
  lia.
Qed.

Lemma Zlog2_bounds (n : Z) :
  (0 < n)%Z → inject_Z (2 ^ Z.log2 n) <= inject_Z n ∧ inject_Z n < 2 * inject_Z (2 ^ Z.log2 n).
Proof.
  intros Hn. destruct (Z.log2_spec n Hn) as [H1 H2].
  rewrite Z.pow_succ_r in H2 by apply Z.log2_nonneg.
  split.
  - by rewrite <-Zle_Qle.
  - change 2 with (inject_Z 2). rewrite <-inject_Z_mult, <-Zlt_Qlt. lia.
Qed.

Lemma binade_spec x : 0 < x → 2 ^ binade x <= x ∧ x < 2 ^ (binade x + 1).
Proof.
  intros Hx. unfold binade.
  set (p := Qnum x). set (q := Z.pos (Qden x)).
  assert (0 < p)%Z as Hp.
  { unfold p. destruct x as [n d]. unfold Qlt in Hx. cbn in *. lia. }
  assert (x == inject_Z p / inject_Z q) as Hxq.
  { destruct x as [n d]. apply Qmake_Qdiv. }
  destruct (Zlog2_bounds p Hp) as [Hp1 Hp2].
  destruct (Zlog2_bounds q ltac:(done)) as [Hq1 Hq2].
  rewrite !pow2_inject in Hp1, Hp2, Hq1, Hq2 by apply Z.log2_nonneg.
  set (a := Z.log2 p) in *. set (b := Z.log2 q) in *.
  pose proof (pow2_pos a) as HA. pose proof (pow2_pos b) as HB.
  assert (0 < inject_Z q) as Hq0 by lra.
  assert (inject_Z p == x * inject_Z q) as Hpx.
  { rewrite Hxq. field. lra. }
  assert (2 ^ (a - b) * 2 ^ b == 2 ^ a) as Hab.
  { rewrite pow2_sub. field. lra. }
  pose proof (pow2_pos (a - b)) as HAB.
  assert (x < 2 ^ (a - b + 1)) as Hup.
  { rewrite pow2_succ. apply Qnot_le_lt. intros Hle.
    assert (2 * 2 ^ (a - b) * inject_Z q <= x * inject_Z q) as H1
      by (apply Qmult_le_compat_r; lra).
    assert (2 ^ (a - b) * 2 ^ b <= 2 ^ (a - b) * inject_Z q) as H2
      by (apply Qmult_le_l; lra).
    lra. }
  assert (2 ^ (a - b - 1) <= x) as Hlo.
  { apply Qnot_lt_le. intros Hlt.
    pose proof (pow2_succ (a - b - 1)) as Hhalf.
    replace (a - b - 1 + 1)%Z with (a - b)%Z in Hhalf by lia.
    pose proof (pow2_pos (a - b - 1)) as HC.
    assert (x * inject_Z q < 2 ^ (a - b - 1) * inject_Z q) as H1
      by (apply Qmult_lt_compat_r; lra).
    assert (2 ^ (a - b - 1) * inject_Z q < 2 ^ (a - b - 1) * (2 * 2 ^ b)) as H2
      by (apply Qmult_lt_l; lra).
    assert (2 ^ (a - b - 1) * (2 * 2 ^ b) == 2 ^ a) as H3
      by (rewrite <-Hab, Hhalf; ring).
    lra. }
  destruct (Qle_bool (2 ^ (a - b)) x) eqn:Hcmp.
  - apply Qle_bool_iff in Hcmp. done.
  - assert (x < 2 ^ (a - b)) as Hlt.
    { apply Qnot_le_lt. intros Hle. apply Qle_bool_iff in Hle. congruence. }
    split; [done|]. by replace (a - b - 1 + 1)%Z with (a - b)%Z by lia.
Qed.

Lemma binade_unique x (e : Z) : 2 ^ e <= x → x < 2 ^ (e + 1) → binade x = e.
Proof.
  intros H1 H2. pose proof (pow2_pos e).
  destruct (binade_spec x ltac:(lra)) as [H3 H4].
  by apply (binade_unique_aux x).
Qed.

Lemma binade_proper x y : 0 < x → x == y → binade x = binade y.
Proof.
  intros Hx Hxy. destruct (binade_spec x Hx) as [H1 H2].
  symmetry. apply binade_unique; by rewrite <-Hxy.
Qed.

Lemma binade_mono x y : 0 < x → x <= y → (binade x <= binade y)%Z.
Proof.
  intros Hx Hxy. destruct (binade_spec x Hx) as [H1 _].
  destruct (binade_spec y ltac:(lra)) as [_ H2].
  assert (binade x < binade y + 1)%Z by (apply pow2_lt_inv; lra). lia.
Qed.
End rounding.

Section nearest.
Local Open Scope Q_scope.

Lemma nearest_even_proper x y : x == y → nearest_even x = nearest_even y.
Proof.
  intros Hxy. unfold nearest_even. rewrite (Qfloor_comp _ _ Hxy).
  assert ((x - inject_Z (Qfloor y) ?= 1 # 2) = (y - inject_Z (Qfloor y) ?= 1 # 2))
    as -> by (by rewrite Hxy).
  done.
Qed.

Lemma nearest_even_Z (z : Z) : nearest_even (inject_Z z) = z.
Proof.
  unfold nearest_even. rewrite Qfloor_Z.
  destruct (Qcompare_spec (inject_Z z - inject_Z z) (1 # 2)); [lra|done|lra].
Qed.

Lemma nearest_even_bounds x :
  (Qfloor x <= nearest_even x)%Z ∧ (nearest_even x <= Qfloor x + 1)%Z.
Proof.
  unfold nearest_even. destruct (_ ?= _); [destruct (Z.even _)|..]; lia.
Qed.

Lemma nearest_even_mono x y : x <= y → (nearest_even x <= nearest_even y)%Z.
Proof.
  intros Hxy. pose proof (Qfloor_resp_le _ _ Hxy) as Hf.
  destruct (nearest_even_bounds x) as [_ Hx], (nearest_even_bounds y) as [Hy _].
  destruct (decide (Qfloor x = Qfloor y)) as [Heq|Hne]; [|lia].
  clear Hx Hy. unfold nearest_even. rewrite <-Heq.
  destruct (Qcompare_spec (x - inject_Z (Qfloor x)) (1 # 2)) as [Hx|Hx|Hx],
      (Qcompare_spec (y - inject_Z (Qfloor x)) (1 # 2)) as [Hy|Hy|Hy];
    try destruct (Z.even _); try lia; lra.
Qed.

Lemma nearest_even_ge x (a : Z) : inject_Z a <= x → (a <= nearest_even x)%Z.
Proof. intros Ha. rewrite <-(nearest_even_Z a). by apply nearest_even_mono. Qed.

Lemma nearest_even_le x (b : Z) : x <= inject_Z b → (nearest_even x <= b)%Z.
Proof. intros Hb. rewrite <-(nearest_even_Z b). by apply nearest_even_mono. Qed.
End nearest.

Section round_pos_facts.
Local Open Scope Q_scope.

Lemma inject_Z_le (a b : Z) : (a <= b)%Z → inject_Z a <= inject_Z b.
Proof. intros Hab. unfold Qle. cbn. lia. Qed.

Lemma inject_Z_lt (a b : Z) : (a < b)%Z → inject_Z a < inject_Z b.
Proof. intros Hab. unfold Qlt. cbn. lia. Qed.

Lemma pow2_52 : 2 ^ 52 == inject_Z (2 ^ 52).
Proof. reflexivity. Qed.

Lemma pow2_53 : 2 ^ 53 == inject_Z (2 ^ 53).
Proof. reflexivity. Qed.

(** The significand of a positive rational lies between [2^52] and [2^53]. *)
Lemma significand_bounds x :
  0 < x →
  2 ^ 52 <= x / 2 ^ (binade x - 52) ∧ x / 2 ^ (binade x - 52) < 2 ^ 53.
Proof.
  intros Hx. destruct (binade_spec x Hx) as [H1 H2].
  pose proof (pow2_pos (binade x - 52)) as Hu.
  assert (2 ^ binade x == 2 ^ 52 * 2 ^ (binade x - 52)) as He.
  { rewrite <-pow2_add. by replace (52 + (binade x - 52))%Z with (binade x) by lia. }
  assert (2 ^ (binade x + 1) == 2 ^ 53 * 2 ^ (binade x - 52)) as He'.
  { rewrite <-pow2_add. by replace (53 + (binade x - 52))%Z with (binade x + 1)%Z by lia. }
  split.
  - apply Qle_shift_div_l; [done|]. by rewrite <-He.
  - apply Qlt_shift_div_r; [done|]. by rewrite <-He'.
Qed.

Lemma round_pos_proper x y : 0 < x → x == y → round_pos x == round_pos y.
Proof.
  intros Hx Hxy. unfold round_pos. rewrite <-(binade_proper x y Hx Hxy).
  assert (x / 2 ^ (binade x - 52) == y / 2 ^ (binade x - 52)) as Hm
    by (apply Qdiv_comp; [done|reflexivity]).
  by rewrite (nearest_even_proper _ _ Hm).
Qed.

Lemma round_pos_bounds x :
  0 < x → 2 ^ binade x <= round_pos x ∧ round_pos x <= 2 ^ (binade x + 1).
Proof.
  intros Hx. destruct (significand_bounds x Hx) as [H1 H2].
  pose proof (pow2_pos (binade x - 52)) as Hu. unfold round_pos.
  assert (2 ^ binade x == inject_Z (2 ^ 52) * 2 ^ (binade x - 52)) as ->.
  { rewrite <-pow2_52, <-pow2_add.
    by replace (52 + (binade x - 52))%Z with (binade x) by lia. }
  assert (2 ^ (binade x + 1) == inject_Z (2 ^ 53) * 2 ^ (binade x - 52)) as ->.
  { rewrite <-pow2_53, <-pow2_add.
    by replace (53 + (binade x - 52))%Z with (binade x + 1)%Z by lia. }
  split.
  - apply Qmult_le_compat_r; [|lra]. apply inject_Z_le.
    apply nearest_even_ge. by rewrite <-pow2_52.
  - apply Qmult_le_compat_r; [|lra]. apply inject_Z_le.
    apply nearest_even_le. rewrite <-pow2_53. lra.
Qed.

Lemma round_pos_positive x : 0 < x → 0 < round_pos x.
Proof.
  intros Hx. destruct (round_pos_bounds x Hx) as [H _].
  pose proof (pow2_pos (binade x)). lra.
Qed.

Lemma round_pos_mono x y : 0 < x → x <= y → round_pos x <= round_pos y.
Proof.
  intros Hx Hxy. assert (0 < y) as Hy by lra.
  pose proof (binade_mono x y Hx Hxy) as He.
  destruct (decide (binade x = binade y)) as [Heq|Hne].
  - unfold round_pos. rewrite <-Heq.
    pose proof (pow2_pos (binade x - 52)) as Hu.
    apply Qmult_le_compat_r; [|lra]. apply inject_Z_le.
    apply nearest_even_mono. apply Qle_shift_div_l; [done|].
    assert (x / 2 ^ (binade x - 52) * 2 ^ (binade x - 52) == x) as -> by (field; lra).
    done.
  - destruct (round_pos_bounds x Hx) as [_ H1], (round_pos_bounds y Hy) as [H2 _].
    pose proof (pow2_le (binade x + 1) (binade y) ltac:(lia)). lra.
Qed.

(** An integer below [2^53] times a power of two is not changed. *)
Lemma round_pos_dyadic (k j : Z) :
  (0 < k < 2 ^ 53)%Z → round_pos (inject_Z k * 2 ^ j) == inject_Z k * 2 ^ j.
Proof.
  intros [Hk0 Hk]. destruct (Zlog2_bounds k Hk0) as [Hl1 Hl2].
  assert (Z.log2 k < 53)%Z as Hlog by (by apply Z.log2_lt_pow2).
  pose proof (Z.log2_nonneg k) as Hlog0. set (a := Z.log2 k) in *.
  rewrite pow2_inject in Hl1, Hl2 by done.
  pose proof (pow2_pos j) as Hj. pose proof (pow2_pos a) as Ha.
  assert (binade (inject_Z k * 2 ^ j) = (a + j)%Z) as He.
  { apply binade_unique.
    - rewrite pow2_add. apply Qmult_le_compat_r; lra.
    - replace (a + j + 1)%Z with (a + 1 + j)%Z by lia.
      rewrite pow2_add, pow2_succ. apply Qmult_lt_compat_r; lra. }
  unfold round_pos. rewrite He.
  assert (inject_Z k * 2 ^ j / 2 ^ (a + j - 52) == inject_Z (k * 2 ^ (52 - a))) as Hm.
  { rewrite inject_Z_mult, pow2_inject by lia.
    replace (a + j - 52)%Z with (j - (52 - a))%Z by lia.
  rewrite (pow2_sub j (52 - a)).
    pose proof (pow2_pos (52 - a)) as Hs.
    remember (2 ^ (52 - a)) as S eqn:ES. remember (2 ^ j) as J eqn:EJ.
    field. split; lra. }
  rewrite (nearest_even_proper _ _ Hm), nearest_even_Z.
  rewrite inject_Z_mult, pow2_inject by lia.
  replace (a + j - 52)%Z with (j - (52 - a))%Z by lia.
  rewrite (pow2_sub j (52 - a)).
  pose proof (pow2_pos (52 - a)) as Hs.
  remember (2 ^ (52 - a)) as S eqn:ES. remember (2 ^ j) as J eqn:EJ.
  field. lra.
Qed.
End round_pos_facts.

Section round64_facts.
Local Open Scope Q_scope.

Lemma round64_positive_eq x : 0 < x → round64 x == round_pos x.
Proof.
  intros Hx. unfold round64. rewrite Qred_correct.
  destruct (Qcompare_spec x 0); [lra|lra|done].
Qed.

Lemma round64_zero x : x == 0 → round64 x = 0.
Proof.
  intros Hx. unfold round64.
  destruct (Qcompare_spec x 0); [done|lra|lra].
Qed.

(** Rounding does not depend on how the rational is written. *)
Lemma round64_proper x y : x == y → round64 x = round64 y.
Proof.
  intros Hxy. unfold round64. apply Qred_complete.
  destruct (Qcompare_spec x 0), (Qcompare_spec y 0); try lra; try done.
  - apply Qopp_comp. apply round_pos_proper; [lra|]. by rewrite Hxy.
  - by apply round_pos_proper.
Qed.

Lemma round64_pos x : 0 < x → 0 < round64 x.
Proof.
  intros Hx. rewrite round64_positive_eq by done. by apply round_pos_positive.
Qed.

Lemma round64_nonneg x : 0 <= x → 0 <= round64 x.
Proof.
  intros Hx. destruct (Qlt_le_dec 0 x) as [Hpos|Hle].
  - apply Qlt_le_weak. by apply round64_pos.
  - rewrite (round64_zero x) by lra. lra.
Qed.

(** Rounding is monotone. *)
Lemma round64_mono x y : 0 <= x → x <= y → round64 x <= round64 y.
Proof.
  intros Hx Hxy. destruct (Qlt_le_dec 0 x) as [Hpos|Hle].
  - rewrite !round64_positive_eq by lra. by apply round_pos_mono.
  - rewrite (round64_zero x) by lra. apply round64_nonneg. lra.
Qed.

(** Representable numbers are not changed. *)
Lemma round64_representable x : representable x → round64 x == x.
Proof.
  intros (k & j & Hk & Hx). pose proof (pow2_pos j) as Hj.
  assert (0 < inject_Z k) as Hk0 by (change 0 with (inject_Z 0); apply inject_Z_lt; lia).
  assert (0 < x) as Hpos.
  { rewrite Hx. apply Qmult_lt_0_compat; lra. }
  rewrite round64_positive_eq by done.
  rewrite (round_pos_proper x _ Hpos Hx), round_pos_dyadic by done. by symmetry.
Qed.

Lemma representable_inject_Z (z : Z) : (0 < z < 2 ^ 53)%Z → representable (inject_Z z).
Proof. intros Hz. exists z, 0%Z. split; [done|]. change (2 ^ 0) with 1. ring. Qed.

Lemma Qred_inject_Z (z : Z) : Qred (inject_Z z) = inject_Z z.
Proof. apply Qred_identity. cbn. apply Z.gcd_1_r. Qed.

(** Integers below [2^53] are binary64 numbers. *)
Lemma round64_inject_Z (z : Z) : (0 <= z < 2 ^ 53)%Z → round64 (inject_Z z) = inject_Z z.
Proof.
  intros Hz. destruct (decide (z = 0%Z)) as [->|Hne]; [done|].
  rewrite <-(Qred_inject_Z z) at 2.
  unfold round64 at 1. apply Qred_complete.
  pose proof (round64_representable (inject_Z z)
                (representable_inject_Z z ltac:(lia))) as Hr.
  unfold round64 in Hr. by rewrite Qred_correct in Hr.
Qed.

Lemma round64_1 : round64 1 = 1.
Proof. by apply (round64_inject_Z 1). Qed.

Lemma round64_le_1 x : 0 <= x → x <= 1 → round64 x <= 1.
Proof. intros H0 H1. rewrite <-round64_1. by apply round64_mono. Qed.

(** What rounding returns is representable. *)
Lemma representable_round64 x : 0 < x → representable (round64 x).
Proof.
  intros Hx. destruct (significand_bounds x Hx) as [H1 H2].
  set (M := nearest_even (x / 2 ^ (binade x - 52))).
  assert (2 ^ 52 <= M)%Z as HM1 by (apply nearest_even_ge; by rewrite <-pow2_52).
  assert (M <= 2 ^ 53)%Z as HM2 by (apply nearest_even_le; rewrite <-pow2_53; lra).
  assert (round64 x == inject_Z M * 2 ^ (binade x - 52)) as Hr
    by (by rewrite round64_positive_eq).
  destruct (decide (M = 2 ^ 53)%Z) as [HM|HM].
  - exists (2 ^ 52)%Z, (binade x - 51)%Z. split; [lia|].
    rewrite Hr, HM. replace (binade x - 51)%Z with (binade x - 52 + 1)%Z by lia.
    rewrite pow2_succ. change (inject_Z (2 ^ 53)) with (2 * inject_Z (2 ^ 52)). ring.
  - exists M, (binade x - 52)%Z. split; [lia|done].
Qed.

Lemma representable_double x : representable x → representable (2 * x).
Proof.
  intros (k & j & Hk & Hx). exists k, (j + 1)%Z. split; [done|].
  rewrite Hx, pow2_succ. ring.
Qed.

Lemma representable_pos x : representable x → 0 < x.
Proof.
  intros (k & j & Hk & Hx). pose proof (pow2_pos j) as Hj. rewrite Hx.
  apply Qmult_lt_0_compat; [|done].
  change 0 with (inject_Z 0). apply inject_Z_lt. lia.
Qed.
End round64_facts.

(** ** Exact counting in binary64 *)

Lemma Qnat_add a b : (Qnat a + Qnat b == Qnat (a + b))%Q.
Proof. unfold Qnat. by rewrite Nat2Z.inj_add, inject_Z_plus. Qed.

Lemma Qnat_eq_bool n : Qeq_bool (Qnat n) 0 = bool_decide (n = 0).
Proof.
  case_bool_decide as Hn.
  - by subst.
  - destruct (Qeq_bool (Qnat n) 0) eqn:He; [|done].
    apply Qeq_bool_iff in He. by apply Qnat_zero_iff in He.
Qed.

(** [float(n)] is [n] itself below [2^53]. *)
Lemma float_of_nat_exact n : (Z.of_nat n < 2 ^ 53)%Z → float_of_nat n = Qnat n.
Proof. intros Hn. unfold float_of_nat, Qnat. apply round64_inject_Z. lia. Qed.

Lemma round64_Qnat n : (Z.of_nat n < 2 ^ 53)%Z → round64 (Qnat n) = Qnat n.
Proof. apply float_of_nat_exact. Qed.

Lemma round64_inject_Z_eq (z : Z) x :
  (0 <= z < 2 ^ 53)%Z → (x == inject_Z z)%Q → round64 x = inject_Z z.
Proof. intros Hz Hx. rewrite (round64_proper _ _ Hx). by apply round64_inject_Z. Qed.

(** Half of an integer below [2^53] is a binary64 number. *)
Lemma round64_half (z : Z) x :
  (0 <= z < 2 ^ 53)%Z → (x * 2 == inject_Z z)%Q → (round64 x == x)%Q.
Proof.
  intros Hz Hx. destruct (decide (z = 0%Z)) as [->|Hne].
  - change (inject_Z 0) with 0%Q in Hx.
    assert (x == 0)%Q as H0 by lra. by rewrite (round64_zero x H0), H0.
  - apply round64_representable. exists z, (-1)%Z. split; [lia|].
    change (2 ^ (-1))%Q with (1 # 2)%Q. lra.
Qed.

Lemma inject_Z_minus (a b : Z) : inject_Z (a - b) = (inject_Z a - inject_Z b)%Q.
Proof. unfold Z.sub, Qminus. by rewrite inject_Z_plus, inject_Z_opp. Qed.

(** An even integer below [2^54] is a binary64 number. *)
Lemma round64_double_Z (z : Z) :
  (0 <= z < 2 ^ 53)%Z → (round64 (inject_Z (2 * z)) == inject_Z (2 * z))%Q.
Proof.
  intros Hz. destruct (decide (z = 0%Z)) as [->|Hne].
  - by rewrite (round64_inject_Z (2 * 0)).
  - apply round64_representable. exists z, 1%Z. split; [lia|].
    rewrite inject_Z_mult. change (2 ^ 1)%Q with 2%Q. change (inject_Z 2) with 2%Q.
    ring.
Qed.

(** The binomial of the source is exact as long as [n * (n - 1)], which
    is even, is below [2^54]. *)
Lemma comb64_exact n :
  2 ≤ n → (Z.of_nat n * (Z.of_nat n - 1) < 2 ^ 54)%Z → comb64 n = Qnat (comb n 2).
Proof.
  intros Hn Hb. set (z := Z.of_nat n) in *.
  assert (2 <= z)%Z as Hz by lia.
  assert (z + 2 < 2 ^ 53)%Z as Hz2 by nia.
  unfold comb64, binom64. rewrite float_of_nat_exact by lia. unfold Qnat. fold z.
  unfold add64, sub64, mul64.
  assert (round64 (1 + inject_Z z) = inject_Z (1 + z)) as ->.
  { apply round64_inject_Z_eq; [lia|]. by rewrite inject_Z_plus. }
  assert (round64 (inject_Z (1 + z) - 2) = inject_Z (z - 1)) as ->.
  { apply round64_inject_Z_eq; [lia|].
    replace (z - 1)%Z with (1 + z - 2)%Z by lia. by rewrite inject_Z_minus. }
  assert (round64 (1 * inject_Z (z - 1)) = inject_Z (z - 1)) as ->.
  { apply round64_inject_Z_eq; [lia|]. ring. }
  assert (round64 (2 + inject_Z z) = inject_Z (2 + z)) as ->.
  { apply round64_inject_Z_eq; [lia|]. by rewrite inject_Z_plus. }
  assert (round64 (inject_Z (2 + z) - 2) = inject_Z z) as ->.
  { apply round64_inject_Z_eq; [lia|].
    replace z with (2 + z - 2)%Z at 2 by lia. by rewrite inject_Z_minus. }
  pose proof (comb_2_closed n) as Hc.
  assert (2 * Z.of_nat (comb n 2) = (z - 1) * z)%Z as Hcz.
  { unfold z. replace (Z.of_nat n - 1)%Z with (Z.of_nat (n - 1)) by lia.
    rewrite <-!Nat2Z.inj_mul. change 2%Z with (Z.of_nat 2). rewrite <-Nat2Z.inj_mul.
    f_equal. lia. }
  assert (round64 (inject_Z (z - 1) * inject_Z z)
          == inject_Z (2 * Z.of_nat (comb n 2)))%Q as Hprod.
  { rewrite <-inject_Z_mult, <-Hcz. apply round64_double_Z. lia. }
  apply round64_inject_Z_eq; [lia|].
  rewrite Hprod, inject_Z_mult. change (inject_Z 2) with 2%Q. field.
Qed.

Lemma comb_le_add_pairs a c : 1 < c → comb c 2 ≤ add_pairs a c.
Proof. intros Hc. unfold add_pairs. rewrite decide_True by done. lia. Qed.

Lemma add_pairs_ge a c : a ≤ add_pairs a c.
Proof. unfold add_pairs. case_decide; lia. Qed.

Lemma foldl_add_pairs_ge a cs : a ≤ foldl add_pairs a cs.
Proof.
  revert a. induction cs as [|c cs IH]; intros a; [done|]. cbn [foldl].
  etrans; [apply (add_pairs_ge a c)|apply IH].
Qed.

Lemma add_pairs64_exact a c :
  (Z.of_nat (add_pairs a c) < 2 ^ 53)%Z →
  add_pairs64 (Qnat a) c = Qnat (add_pairs a c).
Proof.
  intros Hb. unfold add_pairs64, add_pairs in *. case_decide as Hc; [|done].
  pose proof (comb_2_closed c) as Hcl.
  rewrite comb64_exact.
  - unfold add64. apply round64_inject_Z_eq; [lia|]. apply Qnat_add.
  - lia.
  - replace (Z.of_nat c - 1)%Z with (Z.of_nat (c - 1)) by lia.
    rewrite <-Nat2Z.inj_mul, <-Hcl. lia.
Qed.

Lemma foldl_add_pairs64_exact a cs :
  (Z.of_nat (foldl add_pairs a cs) < 2 ^ 53)%Z →
  foldl add_pairs64 (Qnat a) cs = Qnat (foldl add_pairs a cs).
Proof.
  revert a. induction cs as [|c cs IH]; intros a Hb; [done|]. cbn [foldl] in *.
  pose proof (foldl_add_pairs_ge (add_pairs a c) cs).
  rewrite add_pairs64_exact by lia. by apply IH.
Qed.

Section exact_counts.
Context {Id G P : Type} `{EqDecision Id, EqDecision G, EqDecision P}.
Implicit Types (gt : list (Id * option G)) (parsed : list (Id * option P)).

Lemma score_class_pairs_ge debug gt parsed a e out p a' e' out' :
  score_class debug gt parsed (a, e, out) p = Ok (a', e', out') → a ≤ a'.
Proof.
  unfold score_class. destruct (getitem gt _) as [sel|]; [|done].
  rewrite bind_Ok.
  match goal with |- context [let '(_, _) := ?m in _] => destruct m end.
  intros [= <- _ _]. apply foldl_add_pairs_ge.
Qed.

Lemma for_each_pairs_ge debug gt parsed ps a e out a' e' out' :
  for_each (score_class debug gt parsed) (a, e, out) ps = Ok (a', e', out') →
  a ≤ a'.
Proof.
  revert a e out. induction ps as [|p ps IH]; intros a e out; cbn [for_each].
  - by intros [= <- _ _].
  - destruct (score_class debug gt parsed (a, e, out) p) as [[[a1 e1] out1]|] eqn:Hp;
      [|done].
    rewrite bind_Ok. intros Hrest. apply score_class_pairs_ge in Hp.
    apply IH in Hrest. lia.
Qed.

Lemma score_class64_exact debug gt parsed a e out p a' e' out' :
  score_class debug gt parsed (a, e, out) p = Ok (a', e', out') →
  (Z.of_nat a' < 2 ^ 53)%Z →
  score_class64 debug gt parsed (Qnat a, e, out) p = Ok (Qnat a', e', out').
Proof.
  unfold score_class, score_class64. destruct (getitem gt _) as [sel|]; [|done].
  rewrite !bind_Ok.
  match goal with |- context [let '(_, _) := ?m in _] => destruct m end.
  intros [= <- <- <-] Hb. by rewrite foldl_add_pairs64_exact.
Qed.

Lemma for_each64_exact debug gt parsed ps a e out a' e' out' :
  for_each (score_class debug gt parsed) (a, e, out) ps = Ok (a', e', out') →
  (Z.of_nat a' < 2 ^ 53)%Z →
  for_each (score_class64 debug gt parsed) (Qnat a, e, out) ps
  = Ok (Qnat a', e', out').
Proof.
  revert a e out. induction ps as [|p ps IH]; intros a e out; cbn [for_each].
  - by intros [= <- <- <-].
  - destruct (score_class debug gt parsed (a, e, out) p) as [[[a1 e1] out1]|] eqn:Hp;
      [|done].
    rewrite bind_Ok. intros Hrest Hb.
    pose proof (for_each_pairs_ge _ _ _ _ _ _ _ _ _ _ Hrest).
    rewrite (score_class64_exact _ _ _ _ _ _ _ _ _ _ Hp) by lia.
    rewrite bind_Ok. by apply IH.
Qed.

(** When the three pair counts are below [2^53], the binary64 counting
    holds them exactly. *)
Lemma get_counts64_exact gt parsed debug c out :
  get_counts gt parsed debug = Ok (c, out) →
  (Z.of_nat (real_pairs c) < 2 ^ 53)%Z →
  (Z.of_nat (parsed_pairs c) < 2 ^ 53)%Z →
  (Z.of_nat (accurate_pairs c) < 2 ^ 53)%Z →
  get_counts64 gt parsed debug = Ok (counts64_of c, out).
Proof.
  unfold get_counts, get_counts64.
  destruct (for_each _ _ _) as [[[a e] out1]|] eqn:Hloop; [|done].
  rewrite bind_Ok. intros [= <- <-]. cbn [real_pairs parsed_pairs accurate_pairs].
  intros Hr Hp Ha.
  change 0%Q with (Qnat 0). rewrite (for_each64_exact _ _ _ _ _ _ _ _ _ _ Hloop Ha).
  rewrite bind_Ok. unfold counts64_of. cbn.
  by rewrite !foldl_add_pairs64_exact.
Qed.
End exact_counts.

Lemma ratios64_exact c :
  (Z.of_nat (parsed_pairs c) < 2 ^ 53)%Z →
  (Z.of_nat (real_pairs c) < 2 ^ 53)%Z →
  (Z.of_nat (accurate_pairs c) < 2 ^ 53)%Z →
  (Z.of_nat (accurate_events c) < 2 ^ 53)%Z →
  (Z.of_nat (groundtruth_size c) < 2 ^ 53)%Z →
  ratios64 (counts64_of c) = Ok (scores64_of_counts c).
Proof.
  intros Hp Hr Ha He Hn. unfold ratios64, counts64_of, scores64_of_counts.
  cbn [parsed_pairs64 real_pairs64 accurate_pairs64 accurate_events64
       groundtruth_size64].
  rewrite !Qnat_eq_bool, round64_Qnat, !float_of_nat_exact by lia.
  unfold div64, ratio64. rewrite !Qnat_eq_bool.
  assert (∀ a b, (if negb (bool_decide (b = 0))
                  then (if bool_decide (b = 0) then Raise ZeroDivisionError
                        else Ok (round64 (Qnat a / Qnat b)))
                  else Ok 0%Q)
                 = Ok (if decide (b ≠ 0) then round64 (Qnat a / Qnat b) else 0%Q))
    as Hratio.
  { intros a b. case_bool_decide; case_decide; done. }
  rewrite !Hratio, !bind_Ok.
  set (p := if decide (parsed_pairs c ≠ 0) then _ else _).
  set (r := if decide (real_pairs c ≠ 0) then _ else _).
  unfold harmonic64.
  assert ((if decide (groundtruth_size c ≠ 0)
           then (if bool_decide (groundtruth_size c = 0) then Raise ZeroDivisionError
                 else Ok (round64 (Qnat (accurate_events c) / Qnat (groundtruth_size c))))
           else Ok 0%Q)
          = Ok (if decide (groundtruth_size c ≠ 0)
                then round64 (Qnat (accurate_events c) / Qnat (groundtruth_size c))
                else 0%Q)) as ->.
  { case_decide; [by case_bool_decide|done]. }
  by destruct (Qeq_bool (add64 p r) 0).
Qed.

Section exact_scores.
Context {Id G P : Type} `{EqDecision Id, EqDecision G, EqDecision P}.
Implicit Types (gt : list (Id * option G)) (parsed : list (Id * option P)).

Lemma comb_2_small_lines n :
  (Z.of_nat n <= exact_lines)%Z → (Z.of_nat (comb n 2) < 2 ^ 53)%Z.
Proof.
  unfold exact_lines. intros Hn. pose proof (comb_2_closed n) as Hc.
  assert (2 * Z.of_nat (comb n 2) = Z.of_nat n * (Z.of_nat n - 1))%Z as Hz.
  { destruct n as [|n]; [done|].
    replace (Z.of_nat (S n) - 1)%Z with (Z.of_nat (S n - 1)) by lia.
    rewrite <-Nat2Z.inj_mul, <-Hc. lia. }
  nia.
Qed.

Lemma same_pairs_small {L : Type} `{EqDecision L} (s : list (Id * option L)) n :
  length s ≤ n → (Z.of_nat n <= exact_lines)%Z →
  (Z.of_nat (same_pairs (values s)) < 2 ^ 53)%Z.
Proof.
  intros Hs Hn. pose proof (comb_2_small_lines n Hn) as Hb.
  pose proof (same_pairs_le_comb (values s)) as H1.
  pose proof (comb_2_mono (length (values s)) n) as H2.
  pose proof (length_values_le s) as H3.
  assert (comb (length (values s)) 2 ≤ comb n 2) by (apply H2; lia). lia.
Qed.

(** On aligned labelings of at most [exact_lines] lines the binary64
    counting is exact: the scores are the rounded ratios of the counts. *)
Lemma get_accuracy64_exact gt parsed debug :
  aligned gt parsed → (Z.of_nat (size gt) <= exact_lines)%Z →
  fst <$> get_accuracy64 gt parsed debug
  = Ok (scores64_of_counts (aligned_counts gt parsed)).
Proof.
  intros Hal Hn. pose proof (get_counts_aligned gt parsed debug Hal) as Hc.
  destruct (get_counts gt parsed debug) as [[c out]|] eqn:Hget; [|done].
  injection Hc as Hc. cbn [fst] in Hc. subst c.
  pose proof (aligned_counts_bounds gt parsed Hal) as (Hb1 & Hb2 & Hb3).
  pose proof (aligned_length gt parsed Hal) as Hlen.
  assert (Z.of_nat (real_pairs (aligned_counts gt parsed)) < 2 ^ 53)%Z as Hr
    by (by apply (same_pairs_small gt (size gt))).
  assert (Z.of_nat (parsed_pairs (aligned_counts gt parsed)) < 2 ^ 53)%Z as Hp
    by (apply (same_pairs_small parsed (size gt)); [unfold size; lia|done]).
  assert (Z.of_nat (groundtruth_size (aligned_counts gt parsed)) < 2 ^ 53)%Z as Hs
    by (cbn; unfold exact_lines in Hn; lia).
  unfold get_accuracy64.
  rewrite (get_counts64_exact gt parsed debug _ _ Hget) by lia.
  rewrite bind_Ok, ratios64_exact by lia. done.
Qed.
End exact_scores.

(** ** Counting on runs *)

Section expand_facts.
Context {L : Type} `{EqDecision L}.
Implicit Types (r : list (L * positive)) (v : L).

Lemma expand_cons {A : Type} (x : A * positive) (r : list (A * positive)) :
  expand (x :: r) = replicate (Pos.to_nat x.2) x.1 ++ expand r.
Proof. done. Qed.

Lemma filter_idemp {A : Type} (Q : A → Prop) `{∀ x, Decision (Q x)} (l : list A) :
  filter Q (filter Q l) = filter Q l.
Proof.
  induction l as [|x l IH]; [done|]. rewrite filter_cons.
  case_decide; [|done]. by rewrite filter_cons_True, IH.
Qed.

Lemma unique_replicate_app n v (l : list L) :
  unique (replicate (S n) v ++ l) = v :: filter (λ w, w ≠ v) (unique l).
Proof.
  induction n as [|n IH]; [done|].
  change (replicate (S (S n)) v ++ l) with (v :: (replicate (S n) v ++ l)).
  cbn [unique]. rewrite IH, filter_cons.
  destruct (decide (v ≠ v)) as [Hv|_]; [done|]. by rewrite filter_idemp.
Qed.

Lemma unique_expand r : unique (expand r) = unique r.*1.
Proof.
  induction r as [|[v n] r IH]; [done|]. rewrite expand_cons. cbn [fst snd fmap list_fmap].
  destruct (Pos2Nat.is_succ n) as [k ->]. by rewrite unique_replicate_app, IH.
Qed.

Lemma count_of_app v (l l' : list L) : count_of v (l ++ l') = count_of v l + count_of v l'.
Proof. unfold count_of. by rewrite list.filter_app, length_app. Qed.

Lemma count_of_replicate v w n :
  count_of v (replicate n w) = if decide (w = v) then n else 0.
Proof.
  unfold count_of. destruct (decide (w = v)) as [Hw|Hw].
  - induction n as [|n IH]; [done|]. cbn [replicate].
    rewrite filter_cons, decide_True by done. cbn [length]. by rewrite IH.
  - induction n as [|n IH]; [done|]. cbn [replicate].
    by rewrite filter_cons, decide_False.
Qed.

Lemma total_cons v x r :
  total v (x :: r) = if decide (x.1 = v) then (Z.pos x.2 + total v r)%Z else total v r.
Proof. done. Qed.

Lemma total_nonneg v r : (0 <= total v r)%Z.
Proof.
  induction r as [|x r IH]; [done|]. rewrite total_cons. case_decide; lia.
Qed.

Lemma count_of_expand v r : count_of v (expand r) = Z.to_nat (total v r).
Proof.
  induction r as [|[w n] r IH]; [done|]. rewrite expand_cons, count_of_app, IH.
  rewrite count_of_replicate, total_cons. cbn [fst snd].
  pose proof (total_nonneg v r). destruct (decide (w = v)); [|done].
  rewrite Z2Nat.inj_add; [by rewrite Z2Nat.inj_pos|done|done].
Qed.

Lemma insert_desc_Z (x : L * Z) l :
  (0 <= x.2)%Z → Forall (λ y, 0 <= y.2)%Z l →
  insert_desc (to_nat_count x) (to_nat_count <$> l)
  = to_nat_count <$> insert_descZ x l.
Proof.
  intros Hx Hl. destruct x as [vx zx]. cbn [snd] in Hx.
  induction Hl as [|[vy zy] l Hy _ IH]; [done|]. cbn [snd] in Hy.
  cbn [fmap list_fmap insert_desc insert_descZ]. unfold to_nat_count at 1 2. cbn [snd].
  destruct (decide (zx < zy)%Z); case_decide; try lia; [|done].
  cbn [fmap list_fmap]. by rewrite <-IH.
Qed.

Lemma Forall_insert_descZ (Q : L * Z → Prop) x l :
  Q x → Forall Q l → Forall Q (insert_descZ x l).
Proof.
  intros Hx Hl. induction Hl as [|y l Hy Hl IH]; cbn [insert_descZ].
  - by constructor.
  - case_decide; repeat constructor; done.
Qed.

Lemma Forall_sort_descZ (Q : L * Z → Prop) l : Forall Q l → Forall Q (sort_descZ l).
Proof.
  induction 1 as [|x l Hx _ IH]; [constructor|]. by apply Forall_insert_descZ.
Qed.

Lemma sort_desc_Z (l : list (L * Z)) :
  Forall (λ y, 0 <= y.2)%Z l →
  sort_desc (to_nat_count <$> l) = to_nat_count <$> sort_descZ l.
Proof.
  induction 1 as [|x l Hx Hl IH]; [done|].
  cbn [fmap list_fmap sort_desc sort_descZ foldr].
  fold (sort_desc (to_nat_count <$> l)). fold (sort_descZ l).
  rewrite IH. apply insert_desc_Z; [done|]. by apply Forall_sort_descZ.
Qed.

Lemma run_counts_nonneg r : Forall (λ y, 0 <= y.2)%Z (run_counts r).
Proof.
  apply Forall_sort_descZ, list.Forall_forall. intros y Hy.
  apply list_elem_of_fmap in Hy as [v [-> _]]. apply total_nonneg.
Qed.

(** [value_counts] of the expansion of runs, from the runs. *)
Lemma value_counts_expand r :
  sort_desc ((λ v, (v, count_of v (expand r))) <$> unique (expand r))
  = to_nat_count <$> run_counts r.
Proof.
  unfold run_counts. rewrite <-sort_desc_Z.
  - f_equal. rewrite unique_expand, <-list_fmap_compose. apply list_fmap_ext.
    intros _ v _. unfold to_nat_count. cbn. by rewrite count_of_expand.
  - apply list.Forall_forall. intros y Hy.
    apply list_elem_of_fmap in Hy as [v [-> _]]. apply total_nonneg.
Qed.
End expand_facts.

Lemma add_pairs64Z_eq acc (z : Z) :
  (0 <= z)%Z → add_pairs64 acc (Z.to_nat z) = add_pairs64Z acc z.
Proof.
  intros Hz. unfold add_pairs64, add_pairs64Z, comb64, float_of_nat, Qnat.
  rewrite Z2Nat.id by done. destruct (decide (1 < z)%Z).
  - by rewrite decide_True by lia.
  - by rewrite decide_False by lia.
Qed.

Lemma foldl_add_pairs64Z {L : Type} acc (l : list (L * Z)) :
  Forall (λ y, 0 <= y.2)%Z l →
  foldl add_pairs64 acc (to_nat_count <$> l).*2 = foldl add_pairs64Z acc l.*2.
Proof.
  intros Hl. revert acc. induction Hl as [|[v z] l Hy _ IH]; intros acc; [done|].
  cbn [snd] in Hy. cbn [fmap list_fmap foldl]. unfold to_nat_count at 1. cbn [snd].
  rewrite add_pairs64Z_eq by done. apply IH.
Qed.

Section expand_maps.
Context {A B : Type}.

Lemma fmap_expand (f : A → B) (r : list (A * positive)) :
  f <$> expand r = expand ((λ x, (f x.1, x.2)) <$> r).
Proof.
  induction r as [|x r IH]; [done|]. rewrite fmap_cons, !expand_cons, fmap_app, IH.
  by rewrite fmap_replicate.
Qed.

Lemma omap_replicate (f : A → option B) n x :
  omap f (replicate n x) = match f x with Some y => replicate n y | None => [] end.
Proof.
  induction n as [|n IH]; [by destruct (f x)|]. cbn [replicate omap list_omap].
  rewrite IH. by destruct (f x).
Qed.

Lemma omap_expand (f : A → option B) (r : list (A * positive)) :
  omap f (expand r) = expand (omap (λ x, (λ y, (y, x.2)) <$> f x.1) r).
Proof.
  induction r as [|x r IH]; [done|]. rewrite expand_cons, omap_app, IH, omap_replicate.
  cbn [omap list_omap]. by destruct (f x.1).
Qed.

Lemma filter_replicate (Q : A → Prop) `{∀ x, Decision (Q x)} n x :
  filter Q (replicate n x) = if decide (Q x) then replicate n x else [].
Proof.
  induction n as [|n IH]; [by case_decide|]. cbn [replicate].
  rewrite filter_cons, IH. by case_decide.
Qed.

Lemma filter_expand (Q : A → Prop) `{∀ x, Decision (Q x)} (r : list (A * positive)) :
  filter Q (expand r) = expand (filter (λ x, Q x.1) r).
Proof.
  induction r as [|x r IH]; [done|].
  rewrite expand_cons, list.filter_app, IH, filter_replicate, filter_cons.
  by case_decide.
Qed.
End expand_maps.

Section runs_facts.
Context {G P : Type} `{EqDecision G, EqDecision P}.
Implicit Types J : list (G * option P * positive).

Lemma lines_nonneg J : (0 <= lines J)%Z.
Proof. induction J as [|x J IH]; [done|]. cbn [lines foldr]. fold (lines J). lia. Qed.

Lemma length_expand J : length (expand J) = Z.to_nat (lines J).
Proof.
  induction J as [|x J IH]; [done|]. rewrite expand_cons, length_app, length_replicate, IH.
  cbn [lines foldr]. fold (lines J). pose proof (lines_nonneg J).
  rewrite Z2Nat.inj_add; [by rewrite Z2Nat.inj_pos|done|done].
Qed.

Lemma groundtruth_expand J : (expand J).*1 = expand (groundtruth_runs J).
Proof. apply fmap_expand. Qed.

Lemma predicted_expand J : omap snd (expand J) = expand (predicted_runs J).
Proof. apply omap_expand. Qed.

Lemma class_expand J p :
  (filter (λ x, x.2 = Some p) (expand J)).*1 = expand (class_runs J p).
Proof. by rewrite filter_expand, fmap_expand. Qed.
End runs_facts.

(** ** The two series of a table of lines *)

Section rows_facts.
Context {Id G P : Type} `{EqDecision Id, EqDecision G, EqDecision P}.
Implicit Types rows : list (Id * (G * option P)).

Lemma index_groundtruth_of rows : index (groundtruth_of rows) = rows.*1.
Proof. unfold index, groundtruth_of. by rewrite <-list_fmap_compose. Qed.

Lemma index_predicted_of rows : index (predicted_of rows) = rows.*1.
Proof. unfold index, predicted_of. by rewrite <-list_fmap_compose. Qed.

Lemma aligned_rows rows :
  NoDup rows.*1 → aligned (groundtruth_of rows) (predicted_of rows).
Proof.
  intros Hnd. split; rewrite index_groundtruth_of; [done|].
  by rewrite index_predicted_of.
Qed.

Lemma values_groundtruth_of rows : values (groundtruth_of rows) = rows.*2.*1.
Proof.
  unfold values, groundtruth_of. rewrite omap_fmap.
  induction rows as [|r rows IH]; [done|].
  cbn [omap list_omap fmap list_fmap snd fst]. by f_equal.
Qed.

Lemma values_predicted_of rows : values (predicted_of rows) = omap snd rows.*2.
Proof.
  unfold values, predicted_of. rewrite !omap_fmap. done.
Qed.

Lemma label_at_groundtruth_of rows r :
  NoDup rows.*1 → r ∈ rows → label_at (groundtruth_of rows) r.1 = Some r.2.1.
Proof.
  intros Hnd Hr.
  assert (NoDup (index (groundtruth_of rows))) as Hnd'
    by (by rewrite index_groundtruth_of).
  assert (r.1 ∈ index (groundtruth_of rows)) as Hi.
  { rewrite index_groundtruth_of. apply list_elem_of_fmap. by exists r. }
  assert ((r.1, Some r.2.1) ∈ groundtruth_of rows) as Hin.
  { unfold groundtruth_of. apply list_elem_of_fmap. by exists r. }
  pose proof (loc_label_at _ _ Hnd' Hi) as Hloc.
  pose proof (loc_NoDup _ _ _ Hnd' Hin) as Hloc'.
  rewrite Hloc in Hloc'. by injection Hloc' as ->.
Qed.

(** The ground-truth labels of the lines of a predicted class. *)
Lemma class_labels_rows rows p :
  NoDup rows.*1 →
  omap (label_at (groundtruth_of rows)) (index (select (predicted_of rows) p))
  = (filter (λ x, x.2 = Some p) rows.*2).*1.
Proof.
  intros Hnd. unfold index, select, predicted_of.
  rewrite !filter_fmap, <-!list_fmap_compose.
  rewrite omap_fmap. cbn [fst snd compose].
  assert (∀ r, r ∈ filter (λ x : Id * (G * option P), x.2.2 = Some p) rows → r ∈ rows)
    as Hsub by (intros r Hr; by apply list_elem_of_filter in Hr as [_ ?]).
  induction (filter (λ x, x.2.2 = Some p) rows) as [|r l IH]; [done|].
  cbn [omap list_omap fmap list_fmap].
  rewrite (label_at_groundtruth_of rows r Hnd) by (apply Hsub; left).
  cbn. f_equal. apply IH. intros r' Hr'. apply Hsub. by right.
Qed.

Lemma class_size_groundtruth_of rows g :
  size (select (groundtruth_of rows) g) = count_of g rows.*2.*1.
Proof.
  change (size (select ?s g)) with (class_size s g).
  by rewrite class_size_count, values_groundtruth_of.
Qed.

Lemma class_size_predicted_of rows p :
  length (index (select (predicted_of rows) p)) = count_of p (omap snd rows.*2).
Proof.
  unfold index. rewrite length_fmap.
  change (length (select ?s p)) with (class_size s p).
  by rewrite class_size_count, values_predicted_of.
Qed.
End rows_facts.

Lemma numbered_fst {A : Type} (l : list A) :
  (numbered l).*1 = (λ i, Z.of_nat (S i)) <$> seq 0 (length l).
Proof.
  unfold numbered. rewrite fmap_imap. 
  assert (∀ k, imap (λ i (x : A), Z.of_nat (S (k + i))) l
               = (λ i, Z.of_nat (S i)) <$> seq k (length l)) as Hk.
  { induction l as [|x l IH]; intros k; [done|]. cbn [imap length seq fmap list_fmap].
    f_equal; [f_equal; lia|]. rewrite <-IH. apply imap_ext. intros i y _. cbn.
    f_equal. lia. }
  apply (Hk 0).
Qed.

Lemma numbered_NoDup {A : Type} (l : list A) : NoDup (numbered l).*1.
Proof.
  rewrite numbered_fst. apply NoDup_fmap_2; [|apply NoDup_seq].
  intros i j Hij. lia.
Qed.

Lemma numbered_snd {A : Type} (l : list A) : (numbered l).*2 = l.
Proof.
  unfold numbered. rewrite fmap_imap.
  assert (∀ f : nat → nat, imap (λ i (x : A), (Z.of_nat (S (f i)), x).2) l = l) as Hk.
  { induction l as [|x l IH]; intros f; [done|]. cbn [imap]. f_equal.
    apply (IH (f ∘ S)). }
  apply (Hk id).
Qed.

(** ** The binary64 counting on aligned series *)

Section aligned64.
Context {Id G P : Type} `{EqDecision Id, EqDecision G, EqDecision P}.
Implicit Types (gt : list (Id * option G)) (parsed : list (Id * option P)).

Lemma value_counts_list {L : Type} `{EqDecision L} (s : list (Id * option L)) :
  value_counts s = list_counts (values s).
Proof. done. Qed.

Lemma score_class64_aligned debug gt parsed a e out p :
  aligned gt parsed →
  ∃ out', score_class64 debug gt parsed (a, e, out) p
          = Ok (class_step64 gt parsed (a, e) p, out').
Proof.
  intros [Hnd Hp]. unfold score_class64, class_step64.
  rewrite getitem_aligned; [|done|].
  - rewrite bind_Ok, value_counts_list. unfold values. rewrite omap_fmap.
    cbn [fst snd].
    change (omap (λ x, label_at gt x) (index (select parsed p)))
      with (omap (label_at gt) (index (select parsed p))).
    destruct (list_counts (omap (label_at gt) (index (select parsed p))))
      as [|[g n] [|]]; try (by eexists).
    case_decide; by eexists.
  - intros i Hi. rewrite <-Hp. by eapply select_index_subseteq.
Qed.

Lemma for_each64_aligned debug gt parsed ps a e out :
  aligned gt parsed →
  ∃ out', for_each (score_class64 debug gt parsed) (a, e, out) ps
          = Ok (foldl (class_step64 gt parsed) (a, e) ps, out').
Proof.
  intros Hal. revert a e out. induction ps as [|p ps IH]; intros a e out.
  - by eexists.
  - cbn [for_each foldl].
    destruct (score_class64_aligned debug gt parsed a e out p Hal) as [out1 ->].
    rewrite bind_Ok. destruct (class_step64 gt parsed (a, e) p) as [a1 e1].
    apply IH.
Qed.

Lemma get_counts64_aligned gt parsed debug :
  aligned gt parsed →
  fst <$> get_counts64 gt parsed debug
  = Ok (let st := foldl (class_step64 gt parsed) (0%Q, 0)
                    (list_counts (values parsed)).*1 in
        Counts64 (foldl add_pairs64 0%Q (list_counts (values gt)).*2)
                 (foldl add_pairs64 0%Q (list_counts (values parsed)).*2)
                 st.1 st.2 (size gt)).
Proof.
  intros Hal. unfold get_counts64. rewrite !value_counts_list.
  destruct (for_each64_aligned debug gt parsed (list_counts (values parsed)).*1
              0%Q 0 [] Hal) as [out' ->].
  rewrite bind_Ok. by destruct (foldl _ _ _).
Qed.

Lemma get_accuracy64_numeric gt parsed debug :
  fst <$> get_accuracy64 gt parsed debug
  = (fst <$> get_counts64 gt parsed debug) ≫= ratios64.
Proof.
  unfold get_accuracy64. destruct (get_counts64 gt parsed debug) as [[c out]|]; [|done].
  rewrite bind_Ok. cbn. by destruct (ratios64 c).
Qed.
End aligned64.

Lemma ratios64Z_eq real parsed pairs (events size : Z) :
  (0 <= events)%Z → (0 <= size)%Z →
  ratios64 (Counts64 real parsed pairs (Z.to_nat events) (Z.to_nat size))
  = ratios64Z real parsed pairs events size.
Proof.
  intros He Hs. unfold ratios64, ratios64Z, float_of_nat, Qnat.
  cbn [real_pairs64 parsed_pairs64 accurate_pairs64 accurate_events64
       groundtruth_size64].
  rewrite !Z2Nat.id by done.
  destruct (decide (size ≠ 0%Z)), (decide (Z.to_nat size ≠ 0)); try done; lia.
Qed.

Section runs_correct.
Context {G P : Type} `{EqDecision G, EqDecision P}.
Implicit Types J : list (G * option P * positive).

Lemma list_counts_expand {L : Type} `{EqDecision L} (r : list (L * positive)) :
  list_counts (expand r) = to_nat_count <$> run_counts r.
Proof. apply value_counts_expand. Qed.

Lemma to_nat_count_fst {L : Type} (l : list (L * Z)) : (to_nat_count <$> l).*1 = l.*1.
Proof. by rewrite <-list_fmap_compose. Qed.

Lemma class_step64_runs J a (e : Z) p :
  (0 <= e)%Z →
  class_step64 (groundtruth_of_runs J) (predicted_of_runs J) (a, Z.to_nat e) p
  = ((score_class_runs J (a, e) p).1, Z.to_nat (score_class_runs J (a, e) p).2)
    ∧ (0 <= (score_class_runs J (a, e) p).2)%Z.
Proof.
  intros He. unfold class_step64, score_class_runs, groundtruth_of_runs, predicted_of_runs.
  pose proof (numbered_NoDup (expand J)) as Hnd.
  rewrite class_labels_rows, class_size_predicted_of by done.
  rewrite numbered_snd, class_expand, predicted_expand, list_counts_expand.
  rewrite count_of_expand. cbn [fst snd].
  rewrite foldl_add_pairs64Z by apply run_counts_nonneg.
  pose proof (total_nonneg p (predicted_runs J)) as Hp.
  destruct (run_counts (class_runs J p)) as [|[g z] [|]]; try done.
  cbn [fmap list_fmap]. unfold to_nat_count at 1. cbn [fst snd].
  rewrite class_size_groundtruth_of, numbered_snd, groundtruth_expand, count_of_expand.
  pose proof (total_nonneg g (groundtruth_runs J)) as Hg.
  destruct (decide (total p (predicted_runs J) = total g (groundtruth_runs J))),
    (decide (Z.to_nat (total p (predicted_runs J))
             = Z.to_nat (total g (groundtruth_runs J)))); try lia.
  - split; [|lia]. f_equal. lia.
  - done.
Qed.

Lemma foldl_class_step64_runs J ps a (e : Z) :
  (0 <= e)%Z →
  foldl (class_step64 (groundtruth_of_runs J) (predicted_of_runs J)) (a, Z.to_nat e) ps
  = ((foldl (score_class_runs J) (a, e) ps).1,
     Z.to_nat (foldl (score_class_runs J) (a, e) ps).2)
    ∧ (0 <= (foldl (score_class_runs J) (a, e) ps).2)%Z.
Proof.
  revert a e. induction ps as [|p ps IH]; intros a e He; [done|]. cbn [foldl].
  destruct (class_step64_runs J a e p He) as [-> He'].
  destruct (score_class_runs J (a, e) p) as [a1 e1]. by apply IH.
Qed.

Lemma values_groundtruth_of_runs J :
  values (groundtruth_of_runs J) = expand (groundtruth_runs J).
Proof.
  unfold groundtruth_of_runs.
  by rewrite values_groundtruth_of, numbered_snd, groundtruth_expand.
Qed.

Lemma values_predicted_of_runs J :
  values (predicted_of_runs J) = expand (predicted_runs J).
Proof.
  unfold predicted_of_runs.
  by rewrite values_predicted_of, numbered_snd, predicted_expand.
Qed.

(** The scores computed on the runs are those [get_accuracy] computes in
    binary64 on the labeling that the runs stand for. *)
Lemma scores_of_runs_correct J debug :
  fst <$> get_accuracy64 (groundtruth_of_runs J) (predicted_of_runs J) debug
  = scores_of_runs J.
Proof.
  assert (aligned (groundtruth_of_runs J) (predicted_of_runs J)) as Hal
    by apply aligned_rows, numbered_NoDup.
  rewrite get_accuracy64_numeric, get_counts64_aligned by done.
  rewrite bind_Ok. cbn zeta.
  rewrite values_predicted_of_runs, values_groundtruth_of_runs, !list_counts_expand.
  rewrite to_nat_count_fst, !foldl_add_pairs64Z by apply run_counts_nonneg.
  destruct (foldl_class_step64_runs J (run_counts (predicted_runs J)).*1 0%Q 0%Z
              ltac:(done)) as [Hst He].
  change (Z.to_nat 0) with 0 in Hst. rewrite !Hst. cbn [fst snd].
  assert (size (groundtruth_of_runs J) = Z.to_nat (lines J)) as ->.
  { unfold size, groundtruth_of_runs, groundtruth_of, numbered.
    by rewrite length_fmap, length_imap, length_expand. }
  unfold scores_of_runs. apply ratios64Z_eq; [done|apply lines_nonneg].
Qed.
End runs_correct.

(** ** The rounded ratios *)

Section ratios64_facts.
Local Open Scope Q_scope.

Lemma round64_zero_iff x : 0 <= x → round64 x == 0 ↔ x == 0.
Proof.
  intros Hx. split.
  - intros Hz. destruct (Qeq_dec x 0) as [|Hne]; [done|].
    assert (0 < x) as Hpos by lra. pose proof (round64_pos x Hpos). lra.
  - intros Hz. by rewrite (round64_zero x Hz).
Qed.

Lemma Qred_round64 x : Qred (round64 x) = round64 x.
Proof. unfold round64. apply Qred_involutive. Qed.

Lemma round64_idem x : 0 <= x → round64 (round64 x) = round64 x.
Proof.
  intros Hx. destruct (Qeq_dec x 0) as [Hz|Hne].
  - rewrite (round64_zero x Hz). by apply round64_zero.
  - assert (0 < x) as Hpos by lra.
    pose proof (round64_representable _ (representable_round64 x Hpos)) as Hr.
    apply Qred_complete in Hr. by rewrite !Qred_round64 in Hr.
Qed.

(** Doubling a binary64 number is exact. *)
Lemma round64_double x : 0 <= x → mul64 2 (round64 x) == 2 * round64 x.
Proof.
  intros Hx. unfold mul64. destruct (Qeq_dec x 0) as [Hz|Hne].
  - rewrite (round64_zero x Hz). by rewrite (round64_zero (2 * 0)).
  - assert (0 < x) as Hpos by lra.
    apply round64_representable, representable_double, representable_round64, Hpos.
Qed.

Lemma ratio64_round a b : ratio64 a b = round64 (ratio a b).
Proof.
  unfold ratio64, ratio. case_decide; [done|]. symmetry. by apply round64_zero.
Qed.

Lemma ratio64_in_unit a b : a ≤ b → in_unit (ratio64 a b).
Proof.
  intros Hab. rewrite ratio64_round. destruct (ratio_in_unit a b Hab) as [H0 H1].
  split; [by apply round64_nonneg|by apply round64_le_1].
Qed.

Lemma ratio64_zero_iff a b : a ≤ b → ratio64 a b == 0 ↔ a = 0%nat.
Proof.
  intros Hab. rewrite ratio64_round, round64_zero_iff by apply ratio_nonneg.
  by apply ratio_zero_iff.
Qed.

Lemma ratio64_le a b a' b' : ratio a b <= ratio a' b' → ratio64 a b <= ratio64 a' b'.
Proof.
  intros Hle. rewrite !ratio64_round. apply round64_mono; [apply ratio_nonneg|done].
Qed.

(** The harmonic mean of line 77 stays in the unit interval. *)
Lemma harmonic64_in_unit x r :
  in_unit x → in_unit r → in_unit (harmonic64 (round64 x) r).
Proof.
  intros [Hx0 Hx1] [Hr0 Hr1]. unfold harmonic64, in_unit.
  pose proof (round64_nonneg x Hx0) as Hp0.
  pose proof (round64_le_1 x Hx0 Hx1) as Hp1.
  set (p := round64 x) in *.
  destruct (Qeq_bool (add64 p r) 0) eqn:E; cbn; [lra|].
  apply Qeq_bool_neq in E.
  assert (0 <= add64 p r) as Hs by (apply round64_nonneg; lra).
  assert (0 < add64 p r) as Hpos by lra.
  pose proof (round64_double x Hx0) as H2p. fold p in H2p.
  assert (0 <= mul64 2 p) as H2p0 by lra.
  assert (0 <= mul64 (mul64 2 p) r) as Hn
    by (apply round64_nonneg; by apply Qmult_le_0_compat).
  split.
  - apply round64_nonneg. apply Qle_shift_div_l; [done|]. lra.
  - apply round64_le_1.
    + apply Qle_shift_div_l; [done|]. lra.
    + apply Qle_shift_div_r; [done|]. rewrite Qmult_1_l.
      unfold mul64 at 1, add64. apply round64_mono; [nra|]. nra.
Qed.

Lemma harmonic64_zero_iff p r :
  0 <= p → 0 <= r → harmonic64 p r == 0 ↔ p == 0 ∨ r == 0.
Proof.
  intros Hp Hr. unfold harmonic64.
  destruct (Qeq_bool (add64 p r) 0) eqn:E; cbn.
  - apply Qeq_bool_eq in E. unfold add64 in E.
    assert (0 <= p + r) as Hpr by lra.
    apply (proj1 (round64_zero_iff _ Hpr)) in E. split; [|done]. intros _. left. lra.
  - apply Qeq_bool_neq in E.
    assert (0 <= add64 p r) as Hs by (apply round64_nonneg; lra).
    assert (0 < add64 p r) as Hpos by lra.
    assert (0 <= mul64 2 p) as H2p by (apply round64_nonneg; lra).
    assert (0 <= mul64 (mul64 2 p) r) as Hn
      by (apply round64_nonneg; by apply Qmult_le_0_compat).
    rewrite round64_zero_iff by (apply Qle_shift_div_l; [done|]; lra).
    split.
    + intros Hz.
      assert (mul64 (mul64 2 p) r == 0) as Hm.
      { assert (mul64 (mul64 2 p) r
                == mul64 (mul64 2 p) r / add64 p r * add64 p r) as ->
          by (field; lra). rewrite Hz. lra. }
      unfold mul64 at 1 in Hm.
      apply (proj1 (round64_zero_iff _ (Qmult_le_0_compat _ _ H2p Hr))) in Hm.
      apply Qmult_integral in Hm as [Hm2|Hm2]; [left|by right].
      unfold mul64 in Hm2. assert (0 <= 2 * p) as H2 by lra.
      apply (proj1 (round64_zero_iff _ H2)) in Hm2. lra.
    + intros Hz.
      assert (mul64 (mul64 2 p) r == 0) as ->; [|unfold Qdiv; lra].
      unfold mul64 at 1. apply round64_zero_iff; [by apply Qmult_le_0_compat|].
      destruct Hz as [Hz|Hz]; [|rewrite Hz; lra].
      assert (mul64 2 p == 0) as ->; [|lra].
      unfold mul64. apply round64_zero_iff; lra.
Qed.

(** Line 77 does not tell precision from recall. *)
Lemma harmonic64_comm x y :
  0 <= x → 0 <= y →
  harmonic64 (round64 x) (round64 y) = harmonic64 (round64 y) (round64 x).
Proof.
  intros Hx Hy. unfold harmonic64.
  assert (add64 (round64 x) (round64 y) = add64 (round64 y) (round64 x)) as ->
    by (apply round64_proper; lra).
  assert (mul64 (mul64 2 (round64 x)) (round64 y)
          = mul64 (mul64 2 (round64 y)) (round64 x)) as ->; [|done].
  unfold mul64 at 1 3. apply round64_proper.
  rewrite (round64_double x Hx), (round64_double y Hy). lra.
Qed.

(** The largest binary64 number below 1. *)
Lemma round64_below_1 x : 0 <= x → x <= 1 - (1 # 9007199254740992) → round64 x < 1.
Proof.
  intros Hx Hle.
  assert (round64 (1 - (1 # 9007199254740992)) == 1 - (1 # 9007199254740992)) as He.
  { apply round64_representable. exists (2 ^ 53 - 1)%Z, (-53)%Z. split; [done|].
    reflexivity. }
  pose proof (round64_mono x _ Hx Hle) as Hm. rewrite He in Hm.
  assert (0 < 1 # 9007199254740992) by reflexivity. lra.
Qed.

Lemma ratio64_one_iff a b :
  a ≤ b → (Z.of_nat b < 2 ^ 53)%Z → ratio64 a b == 1 ↔ ratio a b == 1.
Proof.
  intros Hab Hb. rewrite ratio64_round. split.
  - intros H1. destruct (decide (a = b)) as [->|Hne].
    + destruct (decide (b = 0%nat)) as [->|Hb0]; [|by apply ratio_self].
      unfold ratio in H1. rewrite decide_False in H1 by lia.
      rewrite (round64_zero 0) in H1; [lra|reflexivity].
    + exfalso. assert (round64 (ratio a b) < 1); [|lra].
      apply round64_below_1; [apply ratio_nonneg|].
      unfold ratio. rewrite decide_True by lia.
      assert (0 < Qnat b) as Hpos by (apply Qnat_pos; lia).
      apply Qle_shift_div_r; [done|].
      assert (Qnat a <= Qnat b - 1) as Ha.
      { unfold Qnat. change 1 with (inject_Z 1). rewrite <-inject_Z_minus.
        apply inject_Z_le. lia. }
      assert (Qnat b <= 9007199254740992 - 1) as Hb'.
      { unfold Qnat. change (9007199254740992 - 1) with (inject_Z (2 ^ 53 - 1)).
        apply inject_Z_le. lia. }
      assert ((1 - (1 # 9007199254740992)) * Qnat b
              == Qnat b - Qnat b * (1 # 9007199254740992)) as -> by ring.
      assert (Qnat b * (1 # 9007199254740992) <= 1); [|lra].
      assert (9007199254740992 * (1 # 9007199254740992) == 1) by reflexivity.
      nra.
  - intros H1. rewrite (round64_proper _ _ H1). by rewrite round64_1.
Qed.
End ratios64_facts.


Section scores64.
Context {Id G P : Type} `{EqDecision Id, EqDecision G, EqDecision P}.
Implicit Types (gt : list (Id * option G)) (parsed : list (Id * option P)).

Lemma get_accuracy64_output gt parsed debug s :
  fst <$> get_accuracy64 gt parsed debug = Ok s →
  ∃ out, get_accuracy64 gt parsed debug = Ok (s, out).
Proof.
  destruct (get_accuracy64 gt parsed debug) as [[s' out]|]; [|done].
  intros [= ->]. by exists out.
Qed.

Lemma scores64_of_counts_in_unit c :
  accurate_pairs c ≤ parsed_pairs c → accurate_pairs c ≤ real_pairs c →
  accurate_events c ≤ groundtruth_size c →
  in_unit (precision (scores64_of_counts c)) ∧ in_unit (recall (scores64_of_counts c))
  ∧ in_unit (f_measure (scores64_of_counts c))
  ∧ in_unit (accuracy (scores64_of_counts c)).
Proof.
  intros Hp Hr Ha. cbn.
  pose proof (ratio64_in_unit _ _ Hp) as Hp'.
  pose proof (ratio64_in_unit _ _ Hr) as Hr'.
  pose proof (ratio64_in_unit _ _ Ha).
  split_and!; [done..| |done].
  rewrite (ratio64_round _ (parsed_pairs c)).
  apply harmonic64_in_unit; [by apply ratio_in_unit|done].
Qed.

(** C1. For aligned labelings (the ground-truth and the predicted series
    are over the same set of line ids, each occurring once) of at most
    134217728 lines [get_accuracy], computed in binary64 as the source
    does, returns, and precision, recall, F-measure and accuracy all lie in
    the closed interval from 0 to 1. *)
Theorem get_accuracy64_in_unit gt parsed debug :
  aligned gt parsed → (Z.of_nat (size gt) <= exact_lines)%Z →
  ∃ s out, get_accuracy64 gt parsed debug = Ok (s, out)
    ∧ in_unit (precision s) ∧ in_unit (recall s)
    ∧ in_unit (f_measure s) ∧ in_unit (accuracy s).
Proof.
  intros Hal Hsize.
  destruct (get_accuracy64_output _ _ _ _ (get_accuracy64_exact gt parsed debug Hal Hsize))
    as [out Hs].
  eexists _, out. split; [done|].
  destruct (aligned_counts_bounds gt parsed Hal) as (? & ? & ?).
  by apply scores64_of_counts_in_unit.
Qed.
End scores64.

Lemma get_accuracy64_in_unit_witness :
  aligned scenario_groundtruth scenario_B_predicted
  ∧ (Z.of_nat (size scenario_groundtruth) <= exact_lines)%Z
  ∧ ∃ s out, get_accuracy64 scenario_groundtruth scenario_B_predicted true = Ok (s, out)
      ∧ in_unit (precision s) ∧ in_unit (recall s)
      ∧ in_unit (f_measure s) ∧ in_unit (accuracy s).
Proof.
  assert (Z.of_nat (size scenario_groundtruth) <= exact_lines)%Z as Hsize
    by (unfold exact_lines; cbn; lia).
  split; [exact scenario_B_aligned|]. split; [exact Hsize|].
  apply (get_accuracy64_in_unit _ _ _ scenario_B_aligned Hsize).
Defined.

Lemma aligned_runs {G P : Type} (J : list (G * option P * positive)) :
  aligned (groundtruth_of_runs J) (predicted_of_runs J).
Proof. apply aligned_rows, numbered_NoDup. Qed.

Lemma get_accuracy64_runs {G P : Type} `{EqDecision G, EqDecision P}
    (J : list (G * option P * positive)) debug s :
  scores_of_runs J = Ok s →
  ∃ out, get_accuracy64 (groundtruth_of_runs J) (predicted_of_runs J) debug = Ok (s, out).
Proof.
  intros Hs. apply get_accuracy64_output. by rewrite scores_of_runs_correct.
Qed.

(** Counterexample to C1 without the bound on the number of lines: on
    [long_merged] the ground-truth classes have 134217732, 3 and 2 lines.
    The largest has 9007199724503046 pairs, above [2^53], where binary64
    holds the even integers only and a tie goes to the multiple of 4.
    [real_pairs] adds 3 and then 1 to it, each sum rounded back to
    9007199724503048; [accurate_pairs] adds 1 within the first predicted
    class, rounded to 9007199724503048, and then 3, rounded to
    9007199724503052. The quotient is recall = 1.0000000000000004. *)
Lemma recall_above_one :
  aligned (groundtruth_of_runs long_merged) (predicted_of_runs long_merged)
  ∧ ∃ s out,
      get_accuracy64 (groundtruth_of_runs long_merged) (predicted_of_runs long_merged)
                     false = Ok (s, out)
      ∧ recall s = (2251799813685249 # 2251799813685248)%Q
      ∧ ¬ in_unit (recall s).
Proof.
  split; [apply aligned_runs|].
  assert (∃ s, scores_of_runs long_merged = Ok s
               ∧ recall s = (2251799813685249 # 2251799813685248)%Q) as (s & Hs & Hr).
  { eexists. split; [vm_compute; reflexivity|reflexivity]. }
  destruct (get_accuracy64_runs long_merged false s Hs) as [out Hout].
  exists s, out. split; [exact Hout|]. split; [exact Hr|].
  rewrite Hr. intros [_ Hle]. revert Hle. clear. intros Hle. vm_compute in Hle. by apply Hle.
Qed.

(** ** Where the pair counts are exact *)

Section exact_pairs.
Context {Id G P : Type} `{EqDecision Id, EqDecision G, EqDecision P}.
Implicit Types (gt : list (Id * option G)) (parsed : list (Id * option P)).

Lemma get_counts_output gt parsed debug c :
  fst <$> get_counts gt parsed debug = Ok c →
  ∃ out, get_counts gt parsed debug = Ok (c, out).
Proof.
  destruct (get_counts gt parsed debug) as [[c' out]|]; [|done].
  intros [= ->]. by exists out.
Qed.

(** C9. The pair counts are binary64 numbers: [comb] is SciPy's with
    [exact=False] and [+=] adds its results as floats. On aligned
    labelings of at most 134217728 lines they hold the exact integers:
    a class of [n] lines contributes [comb n 2], with
    [2 * comb n 2 = n * (n - 1)], and [real_pairs], [parsed_pairs] and
    [accurate_pairs] are the numbers of pairs of lines with the same
    ground-truth label, with the same predicted label and with both. *)
Theorem pair_counts_exact_up_to_2_27 gt parsed debug :
  aligned gt parsed → (Z.of_nat (size gt) <= exact_lines)%Z →
  (∀ n, 2 ≤ n ≤ size gt →
     comb64 n = Qnat (comb n 2) ∧ 2 * comb n 2 = n * (n - 1))
  ∧ ∃ c out,
      get_counts64 gt parsed debug = Ok (c, out)
      ∧ real_pairs64 c = Qnat (same_pairs (values gt))
      ∧ parsed_pairs64 c = Qnat (same_pairs (values parsed))
      ∧ accurate_pairs64 c
        = Qnat (sum_list_with (class_pairs gt parsed) (unique (values parsed))).
Proof.
  intros Hal Hn. split.
  - intros n [Hn2 Hle]. split; [|apply comb_2_closed]. apply comb64_exact; [done|].
    unfold exact_lines in Hn. nia.
  - destruct (get_counts_output _ _ _ _ (get_counts_aligned gt parsed debug Hal))
      as [out Hget].
    pose proof (aligned_length gt parsed Hal) as Hlen.
    exists (counts64_of (aligned_counts gt parsed)), out. split; [|done].
    apply (get_counts64_exact gt parsed debug _ _ Hget); cbn.
    + by apply (same_pairs_small gt (size gt)).
    + apply (same_pairs_small parsed (size gt)); [unfold size; lia|done].
    + destruct (aligned_counts_bounds gt parsed Hal) as (_ & Hb & _). cbn in Hb.
      pose proof (same_pairs_small gt (size gt) ltac:(done) Hn). lia.
Qed.
End exact_pairs.

Lemma pair_counts_exact_up_to_2_27_witness :
  aligned scenario_groundtruth scenario_B_predicted
  ∧ (Z.of_nat (size scenario_groundtruth) <= exact_lines)%Z
  ∧ (comb64 3 = Qnat (comb 3 2) ∧ 2 * comb 3 2 = 3 * (3 - 1))
  ∧ ∃ c out,
      get_counts64 scenario_groundtruth scenario_B_predicted false = Ok (c, out)
      ∧ real_pairs64 c = Qnat (same_pairs (values scenario_groundtruth))
      ∧ parsed_pairs64 c = Qnat (same_pairs (values scenario_B_predicted))
      ∧ accurate_pairs64 c
        = Qnat (sum_list_with (class_pairs scenario_groundtruth scenario_B_predicted)
                  (unique (values scenario_B_predicted))).
Proof.
  assert (Z.of_nat (size scenario_groundtruth) <= exact_lines)%Z as Hsize
    by (unfold exact_lines; cbn; lia).
  pose proof (pair_counts_exact_up_to_2_27 scenario_groundtruth scenario_B_predicted
    false scenario_B_aligned Hsize) as [Hcomb Hcounts].
  split; [exact scenario_B_aligned|]. split; [exact Hsize|].
  split; [|exact Hcounts]. apply Hcomb. cbn. lia.
Defined.

Lemma binom64_Z (z : Z) :
  (0 <= z < 2 ^ 53)%Z → comb64 (Z.to_nat z) = binom64 (inject_Z z).
Proof.
  intros Hz. unfold comb64. rewrite float_of_nat_exact by lia.
  unfold Qnat. by rewrite Z2Nat.id by lia.
Qed.

Lemma comb_Z (z : Z) :
  (1 <= z)%Z → (2 * Z.of_nat (comb (Z.to_nat z) 2) = z * (z - 1))%Z.
Proof.
  intros Hz. pose proof (comb_2_closed (Z.to_nat z)) as Hc.
  apply (f_equal Z.of_nat) in Hc. rewrite !Nat2Z.inj_mul in Hc.
  rewrite Nat2Z.inj_sub, Z2Nat.id in Hc by lia. exact Hc.
Qed.

Lemma real_pairs64_runs {G P : Type} `{EqDecision G, EqDecision P}
    (J : list (G * option P * positive)) debug :
  ∃ c out,
    get_counts64 (groundtruth_of_runs J) (predicted_of_runs J) debug = Ok (c, out)
    ∧ real_pairs64 c = foldl add_pairs64Z 0%Q (run_counts (groundtruth_runs J)).*2.
Proof.
  pose proof (get_counts64_aligned _ _ debug (aligned_runs J)) as Hc.
  destruct (get_counts64 (groundtruth_of_runs J) (predicted_of_runs J) debug)
    as [[c out]|]; [|done].
  injection Hc as ->. eexists _, out. split; [done|]. cbn [real_pairs64].
  rewrite values_groundtruth_of_runs, list_counts_expand.
  by rewrite foldl_add_pairs64Z by apply run_counts_nonneg.
Qed.

(** Counterexample to C9 for all class sizes: a class of 134217730
    lines has 9007199456067585 pairs, an odd number above [2^53];
    [comb] returns 9007199456067584, and this is the [real_pairs] of the
    labeling [long_class]. *)
Lemma pair_count_rounded :
  Z.of_nat (comb (Z.to_nat 134217730) 2) = 9007199456067585%Z
  ∧ comb64 (Z.to_nat 134217730) = inject_Z 9007199456067584
  ∧ ∃ c out,
      get_counts64 (groundtruth_of_runs long_class) (predicted_of_runs long_class)
                   false = Ok (c, out)
      ∧ real_pairs64 c = inject_Z 9007199456067584.
Proof.
  split; [pose proof (comb_Z 134217730 ltac:(done)); lia|].
  split; [rewrite binom64_Z by done; vm_compute; reflexivity|].
  destruct (real_pairs64_runs long_class false) as (c & out & Hc & Hr).
  exists c, out. split; [exact Hc|]. rewrite Hr. vm_compute. reflexivity.
Qed.
